(** * gentyr: the mascot patcher (scripts/patch-clawd.py) and the
      credential-cache research script (scripts/patch-credential-cache.py)

    A shallow embedding of the detection, replacement-construction and
    transactional-apply pipeline, followed by the properties the
    specification states about it and by further properties of the code.

    Conventions of the embedding.
    - Python [bytes] is [list byte]; offsets and lengths are [nat]; the
      signed quantities of the padding solver ([delta], [padding_count]) are
      [Z], with Python's floor division and modulo ([Z.div], [Z.modulo]).
    - The [str] fields of a block are ASCII decodings of regex captures
      ([m.group(i).decode("ascii")]) and only ever reach the output through
      [.encode("ascii")]; they are kept as the bytes they stand for.
    - A byte-string literal is written [B "..."]; the double quote character
      is [dq], [qt s] is [s] between two double quotes, and [U "25CF"] is
      the escape sequence backslash-u-25CF as it stands in the bundle.
    - The regular expressions are values of a small [regex] type, matched
      by a backtracking matcher with the priorities of Python's [re].
    - [main] runs in a state monad [M] over the file system (path to
      content) and the lines printed so far; [return code] and an uncaught
      exception leave [main] early. The external collaborators (locating
      the binary, running it, signing it) and the outcomes the operating
      system decides (a copy, a write, an unlink that raises [OSError]) are
      the fields of an [env], each a function of the current files.
    - A printed line keeps the helper that printed it and its text; numbers
      are rendered in plain decimal; column widths, thousands separators,
      colours and file permissions are not modelled.
    - [main] of patch-clawd.py is one function in the source; here it is
      [main], which calls [main_restore] or [main_patch], which calls
      [main_apply], which calls [main_write], each the code from a given
      line to the end of the function. *)

From Stdlib Require Import ZArith Lia Bool.
From Stdlib Require Import Strings.String Strings.Ascii Strings.Byte.
From stdpp Require Import base option list strings pretty gmap.

Local Open Scope Z_scope.
Local Open Scope nat_scope.

(** ** Byte strings *)

Definition bytes := list byte.

#[global] Instance byte_eq_dec : EqDecision byte := Byte.byte_eq_dec.

Definition B (s : string) : bytes := list_byte_of_string s.

Definition ord (c : ascii) : byte := byte_of_ascii c.

Definition dq : byte := x22.

Definition qt (s : bytes) : bytes := dq :: s ++ [dq].

(** The six ASCII bytes of a JavaScript escape: backslash, [u], four hex
    digits. The bundle holds the glyphs in this escaped form. *)
Definition U (hex : string) : bytes := x5c :: B "u" ++ B hex.

(** [data[a : a + n]] for non-negative [a] and [n]. *)
Definition slice (data : bytes) (a n : nat) : bytes := take n (drop a data).

Fixpoint starts_with (needle hay : bytes) : bool :=
  match needle, hay with
  | [], _ => true
  | _ :: _, [] => false
  | x :: needle', y :: hay' => Byte.eqb x y && starts_with needle' hay'
  end.

(** [needle in hay] on bytes: some suffix of [hay] starts with [needle]. *)
Fixpoint bytes_in (needle hay : bytes) : bool :=
  starts_with needle hay ||
  match hay with
  | [] => false
  | _ :: hay' => bytes_in needle hay'
  end.

(** ** Delimiter extractor: [_extract_block] *)

(** The [for i in range(len(chunk))] loop of [_extract_block]: [i] is the
    index of the head of [chunk]; the result is [end], [0] when the loop
    runs off the chunk without a [break]. *)
Fixpoint scan_block (open_c close_c : byte) (chunk : bytes)
    (i : nat) (depth : Z) (started : bool) : nat :=
  match chunk with
  | [] => 0
  | b :: rest =>
      if Byte.eqb b open_c then
        scan_block open_c close_c rest (S i) (depth + 1)%Z true
      else if Byte.eqb b close_c then
        let depth := (depth - 1)%Z in
        if started && (depth =? 0)%Z then S i
        else scan_block open_c close_c rest (S i) depth started
      else scan_block open_c close_c rest (S i) depth started
  end.

Definition chunk_size : nat := 2000.

Definition delimiters (kind : string) : byte * byte :=
  if String.eqb kind "function" then (ord "{", ord "}") else (ord "(", ord ")").

Definition _extract_block (data : bytes) (start_offset : nat) (kind : string)
    : option bytes * nat :=
  let '(open_c, close_c) := delimiters kind in
  let chunk := slice data start_offset chunk_size in
  if String.eqb kind "function" then
    let end_ := scan_block open_c close_c chunk 0 0%Z false in
    if end_ =? 0 then (None, 0) else (Some (take end_ chunk), end_)
  else
    let end_ := scan_block (ord "(") (ord ")") chunk 0 0%Z false in
    if end_ =? 0 then (None, 0) else (Some (take end_ chunk), end_).

(** The depth trace the specification speaks of: [depth o c p] is the
    number of openers minus the number of closers in [p]. *)
Definition delta (open_c close_c b : byte) : Z :=
  if Byte.eqb b open_c then 1%Z else if Byte.eqb b close_c then (-1)%Z else 0%Z.

Definition depth (open_c close_c : byte) (p : bytes) : Z :=
  foldr (fun b d => (delta open_c close_c b + d)%Z) 0%Z p.

(** [nested o c n w]: [w] is [n] correctly nested delimiter pairs, other
    bytes in between. *)
Inductive nested (o c : byte) : nat -> bytes -> Prop :=
| nested_nil : nested o c 0 []
| nested_skip b n w :
    b <> o -> b <> c -> nested o c n w -> nested o c n (b :: w)
| nested_pair n m u v :
    nested o c n u -> nested o c m v ->
    nested o c (S (n + m)) (o :: u ++ c :: v).

(** The trace over [span] is never negative, becomes positive, and comes
    back to zero exactly once, at the last byte. *)
Definition balanced_trace (o c : byte) (span : bytes) : Prop :=
  (forall k, k <= length span -> (0 <= depth o c (take k span))%Z)
  /\ (exists k, k <= length span /\ (0 < depth o c (take k span))%Z)
  /\ (forall k, 1 <= k <= length span ->
        (depth o c (take k span) = 0%Z /\ depth o c (take (k - 1) span) <> 0%Z)
        <-> k = length span).

(** No prefix of the window that holds an opener is balanced. *)
Definition never_balances (o c : byte) (chunk : bytes) : Prop :=
  forall k, 1 <= k <= length chunk ->
    ~ (o ∈ take k chunk /\ depth o c (take k chunk) = 0%Z).

(** ** Anchor matcher: the regular expressions

    The fragment of Python's [re] the scripts use, over bytes: literals,
    greedy [cls+] and [cls*] over a character class, an optional group
    [(?:r)?], concatenation and capture groups (never nested here).
    Matching is the backtracking search of [re], written with a success
    continuation: a greedy repetition tries the longest run first, an
    optional group tries its body first. *)

Inductive regex :=
| Lit (s : bytes)
| Plus (cls : byte -> bool)
| Star (cls : byte -> bool)
| Opt (r : regex)
| Seq (r1 r2 : regex)
| Group (r : regex).

Declare Scope regex_scope.
Delimit Scope regex_scope with re.
Bind Scope regex_scope with regex.
Infix "·" := Seq (at level 41, right associativity) : regex_scope.

Section Matcher.
Context {R : Type}.

Fixpoint match_star (cls : byte -> bool) (s : bytes)
    (k : bytes -> option R) : option R :=
  match s with
  | b :: s' =>
      if cls b then
        match match_star cls s' k with
        | Some r => Some r
        | None => k s
        end
      else k s
  | [] => k []
  end.

Fixpoint rmatch (r : regex) (s : bytes) (caps : list bytes)
    (k : bytes -> list bytes -> option R) : option R :=
  match r with
  | Lit l =>
      if starts_with l s then k (drop (length l) s) caps else None
  | Plus cls =>
      match s with
      | b :: s' => if cls b then match_star cls s' (fun t => k t caps) else None
      | [] => None
      end
  | Star cls => match_star cls s (fun t => k t caps)
  | Opt r' =>
      match rmatch r' s caps k with
      | Some x => Some x
      | None => k s caps
      end
  | Seq r1 r2 => rmatch r1 s caps (fun t caps' => rmatch r2 t caps' k)
  | Group r' =>
      rmatch r' s caps
        (fun t caps' => k t (caps' ++ [take (length s - length t) s]))
  end.
End Matcher.

(** A match object: [m.start()], [m.end()] and the groups 1, 2, ... *)
Record rematch := { m_start : nat; m_end : nat; m_groups : list bytes }.

Definition group (m : rematch) (i : nat) : bytes := nth (i - 1) (m_groups m) [].

(** [pattern.match] at the head of [s], which sits at offset [pos]. *)
Definition match_here (r : regex) (s : bytes) (pos : nat) : option rematch :=
  rmatch r s []
    (fun t caps => Some {| m_start := pos;
                           m_end := pos + (length s - length t);
                           m_groups := caps |}).

(** [pattern.finditer(data)]: leftmost matches, each search resuming at the
    end of the previous match. [skip] counts the bytes of the last match
    still to step over. None of the patterns here matches the empty string. *)
Fixpoint finditer_from (r : regex) (s : bytes) (pos skip : nat) : list rematch :=
  match s with
  | [] => []
  | _ :: s' =>
      match skip with
      | S skip' => finditer_from r s' (S pos) skip'
      | 0 =>
          match match_here r s pos with
          | Some m => m :: finditer_from r s' (S pos) (m_end m - pos - 1)
          | None => finditer_from r s' (S pos) 0
          end
      end
  end.

Definition finditer (r : regex) (data : bytes) : list rematch :=
  finditer_from r data 0 0.

(** [re.search(pattern, data)]: the leftmost match, if any. *)
Fixpoint search_from (r : regex) (s : bytes) (pos : nat) : option rematch :=
  match match_here r s pos with
  | Some m => Some m
  | None =>
      match s with
      | [] => None
      | _ :: s' => search_from r s' (S pos)
      end
  end.

Definition re_search (r : regex) (data : bytes) : option rematch :=
  search_from r data 0.

Definition in_range (lo hi : N) (b : byte) : bool :=
  (lo <=? Byte.to_N b)%N && (Byte.to_N b <=? hi)%N.

(** [\w] of a bytes pattern: [[a-zA-Z0-9_]]. *)
Definition is_word (b : byte) : bool :=
  in_range 97 122 b || in_range 65 90 b || in_range 48 57 b || Byte.eqb b (ord "_").

(** [[\w$]] *)
Definition is_ident (b : byte) : bool := is_word b || Byte.eqb b (ord "$").

(** [\s] of a bytes pattern: space, \t, \n, \v, \f, \r. *)
Definition is_space (b : byte) : bool :=
  Byte.eqb b (ord " ") || in_range 9 13 b.

(** [{flexDirection:"column",alignItems:"center"}], the option payload of
    both anchors and of the rendered replacement. *)
Definition FLEX_PROPS : bytes :=
  B "{flexDirection:" ++ qt (B "column") ++ B ",alignItems:" ++ qt (B "center") ++ B "}".

(** [[\w$]+(?:\.[\w$]+)?] *)
Definition DOTTED_ID : regex :=
  (Plus is_ident · Opt (Lit (B ".") · Plus is_ident))%re.

Definition FULL_FUNC_RE : regex :=
  (Lit (B "function") · Plus is_space · Group (Plus is_ident)
   · Lit (B "(){return") · Plus is_space · Group DOTTED_ID
   · Lit (B ".createElement(") · Group (Plus is_ident)
   · Lit (B "," ++ FLEX_PROPS))%re.

Definition RETURN_BLOCK_RE : regex :=
  (Lit (B "return") · Plus is_space · Group DOTTED_ID
   · Lit (B ".createElement(") · Group (Plus is_ident)
   · Lit (B "," ++ FLEX_PROPS))%re.

(** [createElement\(([\w$]+),\{color:\"<color>\"] *)
Definition TEXT_COLOR_RE (color : bytes) : regex :=
  (Lit (B "createElement(") · Group (Plus is_ident)
   · Lit (B ",{color:" ++ qt color))%re.

(** [createElement\(([\w$]+),null,] *)
Definition TEXT_NULL_RE : regex :=
  (Lit (B "createElement(") · Group (Plus is_ident) · Lit (B ",null,"))%re.

Definition ANCHOR : bytes :=
  B "flexDirection:" ++ qt (B "column") ++ B ",alignItems:" ++ qt (B "center").

Definition MASCOT_CHARS : list bytes :=
  [ U "25CF"; U "2580"; U "258C"; U "2590"; U "2584";
    U "2596"; U "2597"; U "2598"; U "259D"; U "2726" ].

(** ** Block classifier: [find_mascot_blocks] *)

Inductive block_kind := full_function | return_block.

#[global] Instance block_kind_eq_dec : EqDecision block_kind.
Proof. solve_decision. Defined.

(** The dict [find_mascot_blocks] builds for a block. *)
Record block_info := {
  b_kind : block_kind;
  b_offset : nat;
  b_length : nat;
  b_block : bytes;
  b_func_name : option bytes;
  b_react_var : bytes;
  b_flex_var : bytes;
  b_text_var : bytes;
}.

(** The three [re.search] fallbacks for the text component, in order. *)
Definition find_text_var (block_bytes : bytes) : option bytes :=
  match re_search (TEXT_COLOR_RE (B "clawd_body")) block_bytes with
  | Some m => Some (group m 1)
  | None =>
      match re_search (TEXT_COLOR_RE (B "penguinShimmer")) block_bytes with
      | Some m => Some (group m 1)
      | None =>
          match re_search TEXT_NULL_RE block_bytes with
          | Some m => Some (group m 1)
          | None => None
          end
      end
  end.

Definition context_size : nat := 600.

(** Body of the Strategy 1 loop; returning [blocks] unchanged is [continue]. *)
Definition full_step (data : bytes) (blocks : list block_info) (m : rematch)
    : list block_info :=
  let func_name := group m 1 in
  let react_var := group m 2 in
  let flex_var := group m 3 in
  let func_start := m_start m in
  let context := slice data func_start context_size in
  if negb (bytes_in (B "clawd_body") context) then blocks else
  let has_mascot_char := existsb (fun c => bytes_in c context) MASCOT_CHARS in
  if negb has_mascot_char then blocks else
  match _extract_block data func_start "function" with
  | (None, _) => blocks
  | (Some block_bytes, block_len) =>
      match find_text_var block_bytes with
      | None => blocks
      | Some text_var =>
          blocks ++ [ {| b_kind := full_function;
                         b_offset := func_start;
                         b_length := block_len;
                         b_block := block_bytes;
                         b_func_name := Some func_name;
                         b_react_var := react_var;
                         b_flex_var := flex_var;
                         b_text_var := text_var |} ]
      end
  end.

(** The [for fb in blocks] scan of Strategy 2. *)
Definition inside_full (blocks : list block_info) (return_start : nat) : bool :=
  existsb (fun fb => (b_offset fb <=? return_start)
                     && (return_start <? b_offset fb + b_length fb)) blocks.

(** Body of the Strategy 2 loop. *)
Definition return_step (data : bytes) (blocks : list block_info) (m : rematch)
    : list block_info :=
  let react_var := group m 1 in
  let flex_var := group m 2 in
  let return_start := m_start m in
  if inside_full blocks return_start then blocks else
  let context := slice data return_start context_size in
  if negb (bytes_in (B "clawd_body") context) then blocks else
  let has_mascot_char := existsb (fun c => bytes_in c context) MASCOT_CHARS in
  if negb has_mascot_char then blocks else
  match _extract_block data return_start "return" with
  | (None, _) => blocks
  | (Some block_bytes, block_len) =>
      match find_text_var block_bytes with
      | None => blocks
      | Some text_var =>
          blocks ++ [ {| b_kind := return_block;
                         b_offset := return_start;
                         b_length := block_len;
                         b_block := block_bytes;
                         b_func_name := None;
                         b_react_var := react_var;
                         b_flex_var := flex_var;
                         b_text_var := text_var |} ]
      end
  end.

Definition find_full_functions (data : bytes) : list block_info :=
  fold_left (full_step data) (finditer FULL_FUNC_RE data) [].

Definition find_mascot_blocks (data : bytes) : list block_info :=
  fold_left (return_step data) (finditer RETURN_BLOCK_RE data)
    (find_full_functions data).

(** ** Replacement builder *)

Definition ROW1_STR : bytes :=
  qt (U "2597" ++ U "2598" ++ B " " ++ U "2726" ++ B " " ++ U "259D" ++ U "2596").
Definition ROW2_WING : bytes := qt (U "2590" ++ U "258C").
Definition ROW2_EYE : bytes := qt (B " " ++ U "25CF" ++ B " ").
Definition ROW3_BASE : bytes := qt (B " " ++ U "2580" ++ B "   " ++ U "2580" ++ B " ").

Definition ROW1_COLOR : bytes := B "chromeYellow".
Definition ROW2_WING_COLOR : bytes := B "penguinShimmer".
Definition ROW2_EYE_COLOR : bytes := B "chromeYellow".
Definition ROW3_COLOR : bytes := B "chromeYellow".

(** Row 3 literal with one and with two extra trailing spaces. *)
Definition ROW3_PLUS1 : bytes := qt (B " " ++ U "2580" ++ B "   " ++ U "2580" ++ B "  ").
Definition ROW3_PLUS2 : bytes := qt (B " " ++ U "2580" ++ B "   " ++ U "2580" ++ B "   ").

Definition PATCHED_FINGERPRINT : bytes :=
  B "color:" ++ qt (B "chromeYellow") ++ B "},"
  ++ qt (U "2597" ++ U "2598" ++ B " " ++ U "2726" ++ B " " ++ U "259D" ++ U "2596").

Definition is_already_patched (block_bytes : bytes) : bool :=
  bytes_in PATCHED_FINGERPRINT block_bytes.

(** [s * n] on bytes: empty for [n <= 0]. *)
Definition bytes_mul (s : bytes) (n : Z) : bytes :=
  mjoin (replicate (Z.to_nat n) s).

(** [f'{react}.createElement({text},{{color:"{color}"}},{content})'] *)
Definition text_element (react text color content : bytes) : bytes :=
  react ++ B ".createElement(" ++ text ++ B ",{color:" ++ qt color ++ B "},"
  ++ content ++ B ")".

(** [f'{react}.createElement({text},null,{row2_left},{row2_eye},{row2_right})'] *)
Definition row2_element (react text row2_left row2_eye row2_right : bytes) : bytes :=
  react ++ B ".createElement(" ++ text ++ B ",null," ++ row2_left ++ B ","
  ++ row2_eye ++ B "," ++ row2_right ++ B ")".

(** [f'{react}.createElement({flex},{{flexDirection:"column",alignItems:"center"}},{row1},{row2},{row3})'] *)
Definition inner_element (react flex row1 row2 row3 : bytes) : bytes :=
  react ++ B ".createElement(" ++ flex ++ B "," ++ FLEX_PROPS ++ B ","
  ++ row1 ++ B "," ++ row2 ++ B "," ++ row3 ++ B ")".

(** [f"{x}"] of a [str or None]. *)
Definition fmt_opt (x : option bytes) : bytes := default (B "None") x.

(** [f"function {func_name}(){{return {inner}}}"] or [f"return {inner}"]. *)
Definition wrap_core (kind : block_kind) (func_name : option bytes) (inner : bytes)
    : bytes :=
  match kind with
  | full_function => B "function " ++ fmt_opt func_name ++ B "(){return " ++ inner ++ B "}"
  | return_block => B "return " ++ inner
  end.

(** The text [build_replacement] returns as the last component, by case. *)
Inductive build_msg :=
| TooLong (over core_len target_len : Z)
    (* Replacement is {-delta} bytes too long ({core_len} > {target_len}) *)
| ExactFit
    (* Exact fit, no padding needed *)
| CannotPad (delta remainder padding_count : Z)
    (* Cannot achieve exact padding: ... *)
| TooLongAfterAdjust (over : Z)
    (* Replacement is {-delta} bytes too long after adjustments *)
| FinalMismatch (len target_len : Z)
    (* Final size mismatch: ... *)
| Padded (padding_count : Z).
    (* Padded with {padding_count} empty strings *)

(** The two shapes of the triple [build_replacement] returns:
    [(replacement_bytes, True, message)] and [(None, False, message)]. *)
Inductive build_result :=
| BuildOk (replacement_bytes : bytes) (message : build_msg)
| BuildFail (message : build_msg).

Definition build_replacement (block_info : block_info) : build_result :=
  let react := b_react_var block_info in
  let flex := b_flex_var block_info in
  let text := b_text_var block_info in
  let kind := b_kind block_info in
  let func_name := b_func_name block_info in
  let target_len := Z.of_nat (b_length block_info) in
  let row1 := text_element react text ROW1_COLOR ROW1_STR in
  let row2_left := text_element react text ROW2_WING_COLOR ROW2_WING in
  let row2_eye := text_element react text ROW2_EYE_COLOR ROW2_EYE in
  let row2_right := text_element react text ROW2_WING_COLOR ROW2_WING in
  let row2 := row2_element react text row2_left row2_eye row2_right in
  let row3 := text_element react text ROW3_COLOR ROW3_BASE in
  let inner := inner_element react flex row1 row2 row3 in
  let core_bytes := wrap_core kind func_name inner in
  let core_len := Z.of_nat (length core_bytes) in
  let delta := (target_len - core_len)%Z in
  if (delta <? 0)%Z then BuildFail (TooLong (- delta) core_len target_len) else
  if (delta =? 0)%Z then BuildOk core_bytes ExactFit else
  let remainder := (delta mod 3)%Z in
  let padding_count := (delta / 3)%Z in
  let '(row3, delta, padding_count, remainder) :=
    if (remainder =? 1)%Z then
      let row3 := text_element react text ROW3_COLOR ROW3_PLUS1 in
      let inner := inner_element react flex row1 row2 row3 in
      let core_bytes := wrap_core kind func_name inner in
      let delta := (target_len - Z.of_nat (length core_bytes))%Z in
      (row3, delta, (delta / 3)%Z, (delta mod 3)%Z)
    else if (remainder =? 2)%Z then
      let row3 := text_element react text ROW3_COLOR ROW3_PLUS2 in
      let inner := inner_element react flex row1 row2 row3 in
      let core_bytes := wrap_core kind func_name inner in
      let delta := (target_len - Z.of_nat (length core_bytes))%Z in
      (row3, delta, (delta / 3)%Z, (delta mod 3)%Z)
    else (row3, delta, padding_count, remainder) in
  if negb (remainder =? 0)%Z then
    BuildFail (CannotPad delta remainder padding_count) else
  if (padding_count <? 0)%Z then BuildFail (TooLongAfterAdjust (- delta)) else
  let padding := bytes_mul (B "," ++ [dq; dq]) padding_count in
  let row1 := text_element react text ROW1_COLOR (ROW1_STR ++ padding) in
  let inner := inner_element react flex row1 row2 row3 in
  let replacement_bytes := wrap_core kind func_name inner in
  if negb (Z.of_nat (length replacement_bytes) =? target_len)%Z then
    BuildFail (FinalMismatch (Z.of_nat (length replacement_bytes)) target_len)
  else BuildOk replacement_bytes (Padded padding_count).

(** A stock mascot unit of [len] bytes ([len >= 150]): the anchor, one row in
    the [clawd_body] colour, and a string child that fills the rest. *)
Definition stock_shell (child : bytes) : bytes :=
  B "function f(){return c.createElement(t," ++ FLEX_PROPS
  ++ B ",c.createElement(w,{color:" ++ qt (B "clawd_body") ++ B "},"
  ++ qt (B " " ++ U "2590" ++ U "2588" ++ U "258C" ++ B " ") ++ B "),"
  ++ child ++ B ")}".

Definition stock_unit (len : nat) : bytes :=
  stock_shell (qt (replicate (len - 150) (ord "x"))).

(** A stock unit whose last child is another stock unit: two detected
    blocks, the second inside the first. *)
Definition nested_image : bytes := stock_shell (stock_unit 466).

(** ** The world of [main]: files, collaborators, diagnostics *)

(** Which helper printed a line: [header], [info], [success], [warn],
    [error], or a bare [print()]. *)
Inductive level := Header | Info | Success | Warn | Error | Plain.

#[global] Instance level_eq_dec : EqDecision level.
Proof. solve_decision. Defined.

Record diag := Diag { d_level : level; d_text : string }.

Abbreviation files := (gmap string bytes).

(** The file system (path to content) and the lines printed so far. *)
Record state := State { fs : files; out : list diag }.

(** Where the temp-file write of [main] raises [OSError], if it does:
    opening the temp file, writing it (having written a prefix),
    [shutil.copymode], or [os.rename]. *)
Inductive persist_fault :=
| FailOpen
| FailWrite (written : nat)
| FailCopymode
| FailRename.

(** The external collaborators and the outcomes the operating system
    decides, each as a function of the current files. *)
Record env := Env {
  find_claude_binary : files -> option string;
  access_r_ok : files -> string -> bool;
  binary_runs : files -> string -> bool;
  codesign_succeeds : files -> string -> bool;
  copy2_raises : files -> string -> string -> bool;
  persist_raises : files -> string -> option persist_fault;
  unlink_raises : files -> string -> bool;
}.

Record args := Args {
  dry_run : bool;
  restore : bool;
  binary : option string;
  no_color : bool;
}.

(** A computation either goes on with a value or leaves [main] through
    [return code] (or an uncaught exception, code [1]). *)
Inductive step (A : Type) :=
| Next (a : A)
| Return (code : Z).
Arguments Next {A} a.
Arguments Return {A} code.

Definition M (A : Type) : Type := state -> step A * state.

Definition ret {A} (a : A) : M A := fun st => (Next a, st).

Definition bind {A B} (m : M A) (f : A -> M B) : M B := fun st =>
  match m st with
  | (Next a, st') => f a st'
  | (Return code, st') => (Return code, st')
  end.

Declare Scope M_scope.
Notation "x ← y ; z" := (bind y (fun x => z))
  (at level 20, y at level 100, z at level 200, only parsing) : M_scope.
Notation "' x ← y ; z" := (bind y (fun x => z))
  (at level 20, x pattern, y at level 100, z at level 200, only parsing) : M_scope.
Notation "x ;; z" := (bind x (fun _ => z))
  (at level 100, z at level 200, only parsing, right associativity) : M_scope.
Local Open Scope M_scope.

Definition return_ {A} (code : Z) : M A := fun st => (Return code, st).

Definition get_files : M files := fun st => (Next (fs st), st).

Definition set_files (f : files) : M unit :=
  fun st => (Next tt, State f (out st)).

Definition say (l : level) (text : string) : M unit :=
  fun st => (Next tt, State (fs st) (out st ++ [Diag l text])).

Definition header := say Header.
Definition info := say Info.
Definition success := say Success.
Definition warn := say Warn.
Definition error := say Error.
Definition print_ : M unit := say Plain "".

(** The exit status of [sys.exit(main())]. *)
Definition run (m : M Z) (st : state) : Z * state :=
  match m st with
  | (Next code, st') => (code, st')
  | (Return code, st') => (code, st')
  end.

Definition isfile (path : string) : M bool :=
  f ← get_files; ret (bool_decide (is_Some (f !! path))).

Definition path_exists (path : string) : M bool := isfile path.

Definition access_read (e : env) (path : string) : M bool :=
  f ← get_files; ret (access_r_ok e f path).

(** [open(path, "rb").read()], outside any [try]: a missing or unreadable
    file is an uncaught exception. *)
Definition read_file (e : env) (path : string) : M bytes :=
  f ← get_files;
  match f !! path with
  | Some data => if access_r_ok e f path then ret data else return_ 1
  | None => return_ 1
  end.

(** [shutil.copy2(src, dst)] under [try ... except OSError]: [true] when it
    returned, [false] when it raised. *)
Definition copy2 (e : env) (src dst : string) : M bool :=
  f ← get_files;
  if copy2_raises e f src dst then ret false else
  match f !! src with
  | Some data => set_files (<[dst := data]> f);; ret true
  | None => ret false
  end.

Definition verify_binary_runs (e : env) (binary_path : string) : M bool :=
  f ← get_files; ret (binary_runs e f binary_path).

Definition codesign_binary (e : env) (binary_path : string) : M bool :=
  f ← get_files; ret (codesign_succeeds e f binary_path).

(** ** Backup management *)

Definition backup_path (binary_path : string) : string := binary_path +:+ ".bak".

Definition create_backup (e : env) (binary_path : string) : M (bool * string) :=
  let bak := backup_path binary_path in
  ex ← path_exists bak;
  if ex then ret (true, "Backup already exists") else
  ok ← copy2 e binary_path bak;
  if ok then ret (true, "Created backup at " +:+ bak)
  else ret (false, "Failed to create backup").

Definition restore_backup (e : env) (binary_path : string) : M (bool * string) :=
  let bak := backup_path binary_path in
  ex ← path_exists bak;
  if negb ex then ret (false, "No backup file found") else
  ok ← copy2 e bak binary_path;
  if ok then ret (true, "Restored from backup")
  else ret (false, "Failed to restore").

(** ** [main] of patch-clawd.py *)

(** A planned replacement: the tuple [(offset, length, old_bytes, new_bytes)]. *)
Record patch := Patch {
  p_offset : nat;
  p_length : nat;
  p_old : bytes;
  p_new : bytes;
}.

Definition kind_label (k : block_kind) : string :=
  match k with full_function => "function" | return_block => "return" end.

Definition show (s : bytes) : string := string_of_list_byte s.

Definition show_msg (m : build_msg) : string :=
  match m with
  | TooLong over core_len target_len =>
      "Replacement is " +:+ pretty over +:+ " bytes too long ("
      +:+ pretty core_len +:+ " > " +:+ pretty target_len +:+ ")"
  | ExactFit => "Exact fit, no padding needed"
  | CannotPad delta remainder padding_count =>
      "Cannot achieve exact padding: " +:+ pretty delta
      +:+ " remaining after core, remainder " +:+ pretty remainder
      +:+ " after " +:+ pretty padding_count +:+ " empty strings"
  | TooLongAfterAdjust over =>
      "Replacement is " +:+ pretty over +:+ " bytes too long after adjustments"
  | FinalMismatch len target_len =>
      "Final size mismatch: " +:+ pretty len +:+ " != " +:+ pretty target_len
  | Padded padding_count =>
      "Padded with " +:+ pretty padding_count +:+ " empty strings"
  end.

(** The reporting loop over [blocks], with its two counters. *)
Fixpoint report_blocks (blocks : list block_info)
    (already_patched needs_patch : nat) : M (nat * nat) :=
  match blocks with
  | [] => ret (already_patched, needs_patch)
  | b :: rest =>
      let patched := is_already_patched (b_block b) in
      let status := if patched then "already patched" else "stock/unrecognized" in
      let '(already_patched, needs_patch) :=
        if patched then (S already_patched, needs_patch)
        else (already_patched, S needs_patch) in
      info ("  [" +:+ kind_label (b_kind b) +:+ "] offset " +:+ pretty (b_offset b)
            +:+ "  " +:+ pretty (b_length b) +:+ " bytes  react="
            +:+ show (b_react_var b) +:+ "  flex=" +:+ show (b_flex_var b)
            +:+ "  text=" +:+ show (b_text_var b) +:+ "  — " +:+ status);;
      report_blocks rest already_patched needs_patch
  end.

(** Gate 4: the loop that builds [patches]. *)
Fixpoint build_patches (blocks : list block_info) (patches : list patch)
    : M (list patch) :=
  match blocks with
  | [] => ret patches
  | b :: rest =>
      if is_already_patched (b_block b) then build_patches rest patches else
      match build_replacement b with
      | BuildFail msg =>
          error ("Cannot build replacement for block at offset "
                 +:+ pretty (b_offset b) +:+ ": " +:+ show_msg msg);;
          info "Aborting — no changes made.";;
          return_ 0
      | BuildOk replacement msg =>
          info ("  [" +:+ kind_label (b_kind b) +:+ "] offset "
                +:+ pretty (b_offset b) +:+ ": " +:+ show_msg msg);;
          build_patches rest
            (patches ++ [Patch (b_offset b) (b_length b) (b_block b) replacement])
      end
  end.

(** Gate 5: every replacement has the length of what it replaces. *)
Fixpoint check_sizes (patches : list patch) : M unit :=
  match patches with
  | [] => ret tt
  | p :: rest =>
      if negb (length (p_new p) =? p_length p) then
        error ("Size mismatch at offset " +:+ pretty (p_offset p) +:+ ": original "
               +:+ pretty (p_length p) +:+ " bytes, replacement "
               +:+ pretty (length (p_new p)) +:+ " bytes");;
        info "Aborting — no changes made.";;
        return_ 0
      else check_sizes rest
  end.

(** [sorted(patches, key=lambda p: p[0])]: a stable sort by offset. *)
Fixpoint insert_by_offset (p : patch) (l : list patch) : list patch :=
  match l with
  | [] => [p]
  | q :: l' =>
      if p_offset p <=? p_offset q then p :: l else q :: insert_by_offset p l'
  end.

Definition sort_by_offset (patches : list patch) : list patch :=
  foldr insert_by_offset [] patches.

(** Gate 6: the loop over adjacent pairs of [sorted_patches]. *)
Fixpoint check_overlaps (sorted_patches : list patch) : M unit :=
  match sorted_patches with
  | p :: ((q :: _) as rest) =>
      let end_i := p_offset p + p_length p in
      let start_next := p_offset q in
      if start_next <? end_i then
        error ("Overlapping patches: offset " +:+ pretty (p_offset p)
               +:+ " (ends at " +:+ pretty end_i +:+ ") overlaps with offset "
               +:+ pretty start_next);;
        info "Aborting — no changes made.";;
        return_ 0
      else check_overlaps rest
  | _ => ret tt
  end.

Fixpoint report_planned (patches : list patch) : M unit :=
  match patches with
  | [] => ret tt
  | p :: rest =>
      info ("  offset " +:+ pretty (p_offset p) +:+ ": "
            +:+ pretty (p_length p) +:+ " bytes");;
      report_planned rest
  end.

(** [modified[offset : offset + length] = new] on a bytearray. *)
Definition splice (modified : bytes) (offset length_ : nat) (new : bytes) : bytes :=
  take offset modified ++ new ++ drop (offset + length_) modified.

(** The apply loop over [patches], on the working copy [modified]. *)
Fixpoint apply_patches (patches : list patch) (modified : bytes) : M bytes :=
  match patches with
  | [] => ret modified
  | p :: rest =>
      let actual := slice modified (p_offset p) (p_length p) in
      if negb (bool_decide (actual = p_old p)) then
        error ("Unexpected content at offset " +:+ pretty (p_offset p)
               +:+ " — binary may have changed.");;
        info "Aborting — no changes written.";;
        return_ 0
      else
        let modified := splice modified (p_offset p) (p_length p) (p_new p) in
        info ("  Patched offset " +:+ pretty (p_offset p) +:+ " ("
              +:+ pretty (p_length p) +:+ " bytes)");;
        apply_patches rest modified
  end.

Definition rename (src dst : string) (f : files) : files :=
  match f !! src with
  | Some data => <[dst := data]> (delete src f)
  | None => f
  end.

(** The [try] block that writes the temp file, copies the mode and renames
    it over the binary: [true] when it ran to the end, [false] when it
    raised [OSError] (file permissions are not part of the model). *)
Definition write_via_temp (e : env) (binary temp_path : string) (modified : bytes)
    : M bool :=
  f ← get_files;
  match persist_raises e f binary with
  | Some FailOpen => ret false
  | Some (FailWrite written) =>
      set_files (<[temp_path := take written modified]> f);; ret false
  | Some FailCopymode | Some FailRename =>
      set_files (<[temp_path := modified]> f);; ret false
  | None =>
      set_files (<[temp_path := modified]> f);;
      f ← get_files;
      set_files (rename temp_path binary f);;
      success "Binary written successfully";;
      ret true
  end.

(** [try: os.unlink(temp_path) except OSError: pass] *)
Definition unlink_quietly (e : env) (path : string) : M unit :=
  f ← get_files;
  if unlink_raises e f path then ret tt else set_files (delete path f).

(** The rollback both Gate 8 and Gate 9 run on failure. *)
Definition rollback (e : env) (binary : string) : M unit :=
  '(ok, msg) ← restore_backup e binary;
  if ok then
    success msg;;
    _ ← codesign_binary e binary;
    v ← verify_binary_runs e binary;
    if v then success "Backup restored and verified"
    else error "Backup restoration also failed — manual intervention needed"
  else error msg.

(** [main] from the [--restore] branch to its [return 0]. *)
Definition main_restore (e : env) (binary : string) : M Z :=
  header "Restoring from backup";;
  '(ok, msg) ← restore_backup e binary;
  if negb ok then error msg;; return_ 0 else
  success msg;;
  info "Re-signing binary...";;
  signed ← codesign_binary e binary;
  (if signed then success "Binary re-signed successfully"
   else warn "codesign failed — binary may not run on macOS");;
  v ← verify_binary_runs e binary;
  (if v then success "Binary runs correctly after restore"
   else warn "Binary verification failed after restore");;
  return_ 0.

(** [main] from the apply loop to the end: apply loop, size check, atomic
    write, re-sign, verification. [data] is the content read at the start
    of the run and [patches] the set that passed Gates 4-6. *)
Definition main_write (e : env) (binary : string) (data : bytes)
    (patches : list patch) : M Z :=
  header "Applying patches";;
  modified ← apply_patches patches data;
  if negb (length modified =? length data) then
    error ("Binary size changed: " +:+ pretty (length data) +:+ " -> "
           +:+ pretty (length modified));;
    info "Aborting — no changes written.";;
    return_ 0
  else
  let temp_path := binary +:+ ".tmp" in
  written ← write_via_temp e binary temp_path modified;
  if negb written then
    error "Failed to write binary";;
    unlink_quietly e temp_path;;
    info "Original binary is untouched.";;
    return_ 0
  else
  info "Re-signing binary...";;
  signed ← codesign_binary e binary;
  if negb signed then
    warn "codesign failed — attempting to restore from backup";;
    rollback e binary;;
    return_ 0
  else
  success "Binary re-signed";;
  info "Verifying binary runs after patching...";;
  v ← verify_binary_runs e binary;
  if negb v then
    error "Binary verification failed after patching!";;
    info "Restoring from backup...";;
    rollback e binary;;
    return_ 0
  else
  success "Binary runs correctly after patching";;
  header "Done!";;
  success ("Patched " +:+ pretty (length patches)
           +:+ " mascot blocks with #29 Winged Eye design");;
  info "Launch 'claude' to see the new mascot.";;
  print_;;
  ret 0%Z.

(** [main] from the backup step to the end: the best-effort backup, then
    [main_write]. *)
Definition main_apply (e : env) (binary : string) (data : bytes)
    (patches : list patch) : M Z :=
  header "Backup";;
  '(ok, msg) ← create_backup e binary;
  (if ok then info msg
   else warn ("Backup failed: " +:+ msg);; warn "Proceeding without backup");;
  main_write e binary data patches.

(** [main] from Gate 3 on, with the binary's content in [data]. *)
Definition main_patch (e : env) (a : args) (binary : string) (data : bytes) : M Z :=
  header "Detecting mascot blocks";;
  let blocks := find_mascot_blocks data in
  if bool_decide (blocks = []) then
    error "No mascot blocks detected in the binary.";;
    info "This binary may have an unexpected structure (new version?).";;
    return_ 0
  else
  '(already_patched, needs_patch) ← report_blocks blocks 0 0;
  print_;;
  info ("Found " +:+ pretty (length blocks) +:+ " blocks: "
        +:+ pretty already_patched +:+ " already patched, "
        +:+ pretty needs_patch +:+ " to patch");;
  if needs_patch =? 0 then
    success "All blocks are already patched! Nothing to do.";;
    return_ 0
  else
  header "Building replacements";;
  patches ← build_patches blocks [];
  check_sizes patches;;
  success ("All " +:+ pretty (length patches)
           +:+ " replacements verified (exact byte match)");;
  let sorted_patches := sort_by_offset patches in
  check_overlaps sorted_patches;;
  if dry_run a then
    header "Dry run complete";;
    info ("Would patch " +:+ pretty (length patches) +:+ " blocks in " +:+ binary);;
    report_planned patches;;
    print_;;
    info "Run without --dry-run to apply patches.";;
    return_ 0
  else main_apply e binary data patches.

(** [args.binary or find_claude_binary()]: an empty [--binary] is falsy. *)
Definition target_of (e : env) (a : args) (f : files) : option string :=
  match binary a with
  | Some path => if bool_decide (path = "") then find_claude_binary e f else Some path
  | None => find_claude_binary e f
  end.

Definition resolve_binary (e : env) (a : args) : M (option string) :=
  f ← get_files; ret (target_of e a f).

Definition main (e : env) (a : args) : M Z :=
  header "Clawd Mascot Patcher — #29 Winged Eye";;
  print_;;
  found ← resolve_binary e a;
  match found with
  | None =>
      error "Could not find Claude Code binary.";;
      info "Use --binary PATH to specify it manually.";;
      return_ 0
  | Some binary =>
      info ("Binary: " +:+ binary);;
      is_file ← isfile binary;
      if negb is_file then error ("Binary not found at " +:+ binary);; return_ 0 else
      readable ← access_read e binary;
      if negb readable then
        error ("Binary is not readable: " +:+ binary);; return_ 0
      else
      if restore a then main_restore e binary else
      info "Verifying binary runs...";;
      v ← verify_binary_runs e binary;
      if negb v then
        error "Binary fails to run (claude --version failed).";;
        info "The binary may already be corrupted. Try --restore if a backup exists.";;
        return_ 0
      else
      success "Binary runs OK";;
      info "Reading binary...";;
      data ← read_file e binary;
      info ("Binary size: " +:+ pretty (length data) +:+ " bytes");;
      main_patch e a binary data
  end.

(** A cooperative environment: the locator finds nothing, every access,
    copy, write, signature and health check succeeds. *)
Definition env_ok : env :=
  Env (fun _ => None) (fun _ _ => true) (fun _ _ => true) (fun _ _ => true)
      (fun _ _ _ => false) (fun _ _ => None) (fun _ _ => false).

Definition apply_args (path : string) : args := Args false false (Some path) false.

Definition one_unit_image : bytes := B "ab" ++ stock_unit 466 ++ B "cd".

Definition world0 : state := State {[ "claude" := one_unit_image ]} [].

(** ** patch-credential-cache.py *)

Module CredentialCache.

(** [[a-zA-Z_$]] *)
Definition is_alpha_ident (b : byte) : bool :=
  in_range 97 122 b || in_range 65 90 b || Byte.eqb b (ord "_")
  || Byte.eqb b (ord "$").

(** [[a-zA-Z0-9_$]] *)
Definition is_alnum_ident (b : byte) : bool :=
  in_range 97 122 b || in_range 65 90 b || in_range 48 57 b
  || Byte.eqb b (ord "_") || Byte.eqb b (ord "$").

(** The nine patterns of [search_patterns], with the slice bound each
    result list is cut to. *)
Definition patterns : list (string * regex * nat) :=
  [ ("oR_assignment", (Lit (B "oR=") · Group (Plus is_alnum_ident) · Lit (B "="))%re, 5);
    ("iB_assignment", Lit (B "iB=oR(()=>{"), 5);
    ("iB_cache_clear",
     (Lit (B "iB.cache?.") · Star is_space · Lit (B "clear?.()"))%re, 20);
    ("nLD_function", Lit (B "function nLD(){iB.cache"), 5);
    ("SRA_function", Lit (B "async function SRA("), 5);
    ("r6T_function", Lit (B "async function r6T("), 5);
    ("jv_calls",
     (Lit (B "jv(") · Plus is_alpha_ident · Lit (B ".expiresAt)"))%re, 10);
    ("El_function", Lit (B "function El(){jV="), 5);
    ("yW_read", Lit (B "yW().read()"), 10) ].

(** [results]: pattern name to the offsets of its first matches (the
    matched text kept with each offset is only printed). *)
Definition search_patterns (data : bytes) : list (string * list nat) :=
  map (fun '(name, r, cap) => (name, take cap (map m_start (finditer r data))))
      patterns.

(** [results.get(name)], [[]] standing for a missing key. *)
Definition get (results : list (string * list nat)) (name : string) : list nat :=
  match find (fun kv => String.eqb (fst kv) name) results with
  | Some kv => snd kv
  | None => []
  end.

Inductive proposal_type := ERROR | APPROACH_A | APPROACH_B | RECOMMENDATION.

#[global] Instance proposal_type_eq_dec : EqDecision proposal_type.
Proof. solve_decision. Defined.

Definition distance (a b : nat) : nat := (a - b) + (b - a).

(** [min(cft_matches, key=lambda m: abs(m.start() - ib_offset))]: the
    first match at the least distance. *)
Fixpoint nearest (ib_offset : nat) (best : nat) (rest : list nat) : nat :=
  match rest with
  | [] => best
  | x :: rest' =>
      if distance x ib_offset <? distance best ib_offset
      then nearest ib_offset x rest'
      else nearest ib_offset best rest'
  end.

(** [propose_patch], keeping the ['type'] of each proposal. *)
Definition propose_patch (data : bytes) (results : list (string * list nat))
    : list proposal_type :=
  if bool_decide (get results "iB_cache_clear" = []) then [ERROR] else
  if bool_decide (get results "iB_assignment" = []) then [ERROR] else
  let cft_matches := map m_start (finditer (Lit (B "CFT=null")) data) in
  let approach_a :=
    match cft_matches with
    | [] => []
    | c :: cs =>
        let ib_offset := hd 0 (get results "iB_assignment") in
        if distance (nearest ib_offset c cs) ib_offset <? 5000
        then [APPROACH_A] else []
    end in
  let approach_b :=
    if bool_decide (get results "oR_assignment" = []) then [] else [APPROACH_B] in
  approach_a ++ approach_b ++ [RECOMMENDATION].

Definition show_type (t : proposal_type) : string :=
  match t with
  | ERROR => "ERROR"
  | APPROACH_A => "APPROACH_A"
  | APPROACH_B => "APPROACH_B"
  | RECOMMENDATION => "RECOMMENDATION"
  end.

Fixpoint report_results (results : list (string * list nat)) : M unit :=
  match results with
  | [] => ret tt
  | (name, matches) :: rest =>
      (if bool_decide (matches = []) then say Plain ("  " +:+ name +:+ ": NO MATCHES")
       else say Plain ("  " +:+ name +:+ ": " +:+ pretty (length matches)
                       +:+ " match(es)"));;
      report_results rest
  end.

Fixpoint report_proposals (proposals : list proposal_type) (i : nat) : M unit :=
  match proposals with
  | [] => ret tt
  | t :: rest =>
      say Plain ("--- Proposal " +:+ pretty i +:+ ": " +:+ show_type t +:+ " ---");;
      report_proposals rest (S i)
  end.

(** [main]: [sys.exit(1)] and an uncaught exception are [return_ 1];
    running off the end is exit status 0. The locator of this script is
    the [find_claude_binary] field of [e]. The size in MB and the
    per-match and per-proposal detail lines are not modelled. *)
Definition main (e : env) (binary : option string) : M Z :=
  f ← get_files;
  let found :=
    match binary with
    | Some path => if bool_decide (path = "") then find_claude_binary e f
                   else Some path
    | None => find_claude_binary e f
    end in
  match found with
  | None =>
      say Plain "ERROR: Could not find Claude Code binary. Use --binary to specify path.";;
      return_ 1
  | Some "" =>
      say Plain "ERROR: Could not find Claude Code binary. Use --binary to specify path.";;
      return_ 1
  | Some binary_path =>
      say Plain "=== Claude Code Credential Cache Patch Research ===";;
      say Plain ("Binary: " +:+ binary_path);;
      is_file ← isfile binary_path;
      if negb is_file then return_ 1 else
      say Plain "Mode: DRY-RUN (analysis only)";;
      print_;;
      say Plain "Reading binary...";;
      data ← read_file e binary_path;
      say Plain ("Read " +:+ pretty (length data) +:+ " bytes");;
      print_;;
      say Plain "=== Pattern Search ===";;
      let results := search_patterns data in
      report_results results;;
      print_;;
      say Plain "=== Patch Analysis ===";;
      let proposals := propose_patch data results in
      report_proposals proposals 1;;
      print_;;
      say Plain "=== Summary ===";;
      let found := length (filter (fun kv => snd kv <> []) results) in
      say Plain ("  Patterns found: " +:+ pretty found +:+ "/"
                 +:+ pretty (length results));;
      say Plain ("  Proposals: " +:+ pretty (length proposals));;
      if bool_decide (ERROR ∈ proposals) then
        say Plain "  Status: BLOCKED — missing critical patterns";;
        return_ 1
      else
        say Plain "  Status: READY FOR MANUAL VALIDATION";;
        print_;;
        say Plain "Next steps:";;
        ret 0%Z
  end.

End CredentialCache.

(** ** Notions the properties are stated with *)

(** A block as the classifier records it: its bytes are the [b_length]
    bytes of the image at [b_offset], and there is at least one. *)
Definition block_wf (data : bytes) (b : block_info) : Prop :=
  1 <= b_length b /\ length (b_block b) = b_length b
  /\ b_block b = slice data (b_offset b) (b_length b).

(** A stock inline fragment: the same rows behind a bare [return]. *)
Definition stock_return (len : nat) : bytes :=
  B "return c.createElement(t," ++ FLEX_PROPS
  ++ B ",c.createElement(w,{color:" ++ qt (B "clawd_body") ++ B "},"
  ++ qt (B " " ++ U "2590" ++ U "2588" ++ U "258C" ++ B " ") ++ B "),"
  ++ qt (replicate (len - 136) (ord "x")) ++ B ")".

Definition two_block_image : bytes :=
  stock_unit 466 ++ B ";function g(x){var y=x;" ++ stock_return 440 ++ B "}".

(** The rendering shared by every candidate of [build_replacement]: the
    block's identifiers around a row 1 content and a row 3 literal. *)
Definition assemble (b : block_info) (row1_content row3_literal : bytes) : bytes :=
  let react := b_react_var b in
  let flex := b_flex_var b in
  let text := b_text_var b in
  let row1 := text_element react text ROW1_COLOR row1_content in
  let row2_left := text_element react text ROW2_WING_COLOR ROW2_WING in
  let row2_eye := text_element react text ROW2_EYE_COLOR ROW2_EYE in
  let row2_right := text_element react text ROW2_WING_COLOR ROW2_WING in
  let row2 := row2_element react text row2_left row2_eye row2_right in
  let row3 := text_element react text ROW3_COLOR row3_literal in
  wrap_core (b_kind b) (b_func_name b) (inner_element react flex row1 row2 row3).

(** The core candidate: no padding. *)
Definition core_candidate (b : block_info) : bytes := assemble b ROW1_STR ROW3_BASE.

(** Row 3 with [extra] more trailing spaces. *)
Definition row3_literal (extra : nat) : bytes :=
  qt (B " " ++ U "2580" ++ B "   " ++ U "2580" ++ B " " ++ replicate extra (ord " ")).

(** The candidate with [extra] single-byte fillers in row 3 and
    [padding_count] three-byte filler tokens after the row 1 literal. *)
Definition padded_candidate (b : block_info) (extra : nat) (padding_count : Z) : bytes :=
  assemble b (ROW1_STR ++ bytes_mul (B "," ++ [dq; dq]) padding_count)
             (row3_literal extra).

(** The bytes of a rendering that are not row 1 content or row 3 literal. *)
Definition frame_length (b : block_info) : nat := length (assemble b [] []).

(** The arithmetic of [build_replacement] over an arbitrary rendering
    [asm row1_content row3_literal]. *)
Definition build_with (asm : bytes -> bytes -> bytes) (target_len : Z) : build_result :=
  let core_bytes := asm ROW1_STR ROW3_BASE in
  let core_len := Z.of_nat (length core_bytes) in
  let delta := (target_len - core_len)%Z in
  if (delta <? 0)%Z then BuildFail (TooLong (- delta) core_len target_len) else
  if (delta =? 0)%Z then BuildOk core_bytes ExactFit else
  let remainder := (delta mod 3)%Z in
  let padding_count := (delta / 3)%Z in
  let '(row3, delta, padding_count, remainder) :=
    if (remainder =? 1)%Z then
      let delta := (target_len - Z.of_nat (length (asm ROW1_STR ROW3_PLUS1)))%Z in
      (ROW3_PLUS1, delta, (delta / 3)%Z, (delta mod 3)%Z)
    else if (remainder =? 2)%Z then
      let delta := (target_len - Z.of_nat (length (asm ROW1_STR ROW3_PLUS2)))%Z in
      (ROW3_PLUS2, delta, (delta / 3)%Z, (delta mod 3)%Z)
    else (ROW3_BASE, delta, padding_count, remainder) in
  if negb (remainder =? 0)%Z then
    BuildFail (CannotPad delta remainder padding_count) else
  if (padding_count <? 0)%Z then BuildFail (TooLongAfterAdjust (- delta)) else
  let padding := bytes_mul (B "," ++ [dq; dq]) padding_count in
  let replacement_bytes := asm (ROW1_STR ++ padding) row3 in
  if negb (Z.of_nat (length replacement_bytes) =? target_len)%Z then
    BuildFail (FinalMismatch (Z.of_nat (length replacement_bytes)) target_len)
  else BuildOk replacement_bytes (Padded padding_count).

(** The block the classifier records for [stock_unit len] at offset 0. *)
Definition stock_block (len : nat) : block_info :=
  {| b_kind := full_function; b_offset := 0; b_length := len;
     b_block := stock_unit len; b_func_name := Some (B "f");
     b_react_var := B "c"; b_flex_var := B "t"; b_text_var := B "w" |}.

Definition is_diagnostic (d : diag) : bool :=
  match d_level d with
  | Error | Warn => true
  | _ => false
  end.

(** Some line of the log is an error or a warning. *)
Definition has_diagnostic (log : list diag) : bool := existsb is_diagnostic log.

(** [wp m Q R st]: run from [st], [m] either yields a value and a state
    that satisfy [Q], or leaves [main] with a code and a state that
    satisfy [R]. *)
Definition wp {A} (m : M A) (Q : A -> state -> Prop) (R : Z -> state -> Prop)
    (st : state) : Prop :=
  match m st with
  | (Next a, st') => Q a st'
  | (Return code, st') => R code st'
  end.

(** [m] only prints: it leaves the files alone, a value it yields satisfies
    [ok], and when it leaves [main] it does so with code 0, after an error
    or a warning, and [bad] holds. *)
Definition logging {A} (m : M A) (ok : A -> Prop) (bad : Prop) : Prop :=
  forall st, exists log,
    (m st).2 = State (fs st) (out st ++ log)
    /\ match (m st).1 with
       | Next a => ok a
       | Return code => code = 0%Z /\ has_diagnostic log = true /\ bad
       end.

(** The patch set Gate 4 builds: [None] when some block that needs
    patching has no replacement. *)
Fixpoint plan (blocks : list block_info) : option (list patch) :=
  match blocks with
  | [] => Some []
  | b :: rest =>
      if is_already_patched (b_block b) then plan rest else
      match build_replacement b with
      | BuildFail _ => None
      | BuildOk replacement _ =>
          option_map (cons (Patch (b_offset b) (b_length b) (b_block b) replacement))
                     (plan rest)
      end
  end.

(** The working copy after the apply loop: [None] when the loop stops at a
    patch whose range does not hold the recorded bytes. *)
Fixpoint apply_pure (patches : list patch) (modified : bytes) : option bytes :=
  match patches with
  | [] => Some modified
  | p :: rest =>
      if bool_decide (slice modified (p_offset p) (p_length p) = p_old p)
      then apply_pure rest (splice modified (p_offset p) (p_length p) (p_new p))
      else None
  end.

(** No patch of the list starts before its predecessor ends. *)
Definition overlap_free (l : list patch) : Prop :=
  forall i p q, l !! i = Some p -> l !! S i = Some q ->
    p_offset p + p_length p <= p_offset q.

Definition needs_patch_count (blocks : list block_info) : nat :=
  length (filter (fun b => is_already_patched (b_block b) = false) blocks).

(** Two ranges share a byte. *)
Definition ranges_intersect (p q : patch) : Prop :=
  exists x, p_offset p <= x < p_offset p + p_length p
            /\ p_offset q <= x < p_offset q + p_length q.

Definition offsets_sorted (l : list patch) : Prop :=
  forall i p q, l !! i = Some p -> l !! S i = Some q -> p_offset p <= p_offset q.





#[global] Instance diag_eq_dec : EqDecision diag.
Proof. solve_decision. Defined.





(** ** Notions the further properties are stated with *)

(** The loop of [_extract_block], entered with depth [d] and flag
    [started], stops after [n] bytes of [chunk]: byte [n] is a closer, an
    opener has been seen by then, and the depth is back to zero. *)
Definition stops_at (o c : byte) (d : Z) (started : bool) (chunk : bytes) (n : nat)
    : Prop :=
  1 <= n /\ chunk !! (n - 1) = Some c
  /\ (started = true \/ o ∈ take n chunk)
  /\ (d + depth o c (take n chunk) = 0)%Z.

(** The first [n] bytes of the window end with a closer, hold an opener
    and have depth zero. *)
Definition closes_at (o c : byte) (chunk : bytes) (n : nat) : Prop :=
  1 <= n /\ chunk !! (n - 1) = Some c /\ o ∈ take n chunk
  /\ depth o c (take n chunk) = 0%Z.

(** One range ends where the other starts, or before. *)
Definition ranges_apart (p q : patch) : Prop :=
  p_offset p + p_length p <= p_offset q \/ p_offset q + p_length q <= p_offset p.

(** Any two patches of the list have ranges apart. *)
Inductive pairwise_apart : list patch -> Prop :=
| pairwise_apart_nil : pairwise_apart []
| pairwise_apart_cons p l :
    Forall (ranges_apart p) l -> pairwise_apart l -> pairwise_apart (p :: l).

(** [f] grows strictly along [l]. *)
Definition increasing {A} (f : A -> nat) (l : list A) : Prop :=
  forall i j x y, i < j -> l !! i = Some x -> l !! j = Some y -> f x < f y.

(** The anchor matches at the block's offset, and the block's identifiers
    are the groups it captured. *)
Definition anchored (data : bytes) (b : block_info) : Prop :=
  match b_kind b with
  | full_function =>
      exists m,
        match_here FULL_FUNC_RE (drop (b_offset b) data) (b_offset b) = Some m
        /\ b_func_name b = Some (group m 1)
        /\ b_react_var b = group m 2 /\ b_flex_var b = group m 3
  | return_block =>
      exists m,
        match_here RETURN_BLOCK_RE (drop (b_offset b) data) (b_offset b) = Some m
        /\ b_func_name b = None
        /\ b_react_var b = group m 1 /\ b_flex_var b = group m 2
  end.

(** The checks a candidate passes before the classifier records it: the
    colour marker and a mascot glyph within the context window, a balanced
    span, a text component in the span. *)
Definition validated (data : bytes) (b : block_info) : Prop :=
  let context := slice data (b_offset b) context_size in
  bytes_in (B "clawd_body") context = true
  /\ existsb (fun c => bytes_in c context) MASCOT_CHARS = true
  /\ _extract_block data (b_offset b) (kind_label (b_kind b))
     = (Some (b_block b), b_length b)
  /\ find_text_var (b_block b) = Some (b_text_var b).

(** A non-empty run of bytes of the class: what [cls+] matches. *)
Definition is_token (cls : byte -> bool) (s : bytes) : Prop :=
  s <> [] /\ Forall (fun b => cls b = true) s.

(** What [[\w$]+(?:\.[\w$]+)?] matches: an identifier, or two joined by a dot. *)
Definition is_dotted (s : bytes) : Prop :=
  is_token is_ident s
  \/ exists a b, s = a ++ B "." ++ b /\ is_token is_ident a /\ is_token is_ident b.

(** [args.binary or find_claude_binary()] of patch-credential-cache.py. *)
Definition credential_target (e : env) (binary : option string) (f : files)
    : option string :=
  match binary with
  | Some path => if bool_decide (path = "") then find_claude_binary e f else Some path
  | None => find_claude_binary e f
  end.


(** The temp file cannot be opened; everything else succeeds. *)
Definition env_no_write : env :=
  Env (fun _ => None) (fun _ _ => true) (fun _ _ => true) (fun _ _ => true)
      (fun _ _ _ => false) (fun _ _ => Some FailOpen) (fun _ _ => false).

(** No [codesign] to be had (any system but macOS); everything else
    succeeds. *)
Definition env_no_sign : env :=
  Env (fun _ => None) (fun _ _ => true) (fun _ _ => true) (fun _ _ => false)
      (fun _ _ _ => false) (fun _ _ => None) (fun _ _ => false).



(** A stock unit too short for the template. *)
Definition short_image : bytes := stock_unit 210.

(** A stock unit followed by a string that holds the colour marker, so that
    the marker stays within the context window once the unit is patched. *)
Definition marked_image : bytes := stock_unit 466 ++ B ";var k=" ++ qt (B "clawd_body").

(** The files a first run leaves for [marked_image]. *)
Definition patched_world : state :=
  State (fs (run (main env_ok (apply_args "claude"))
                 (State {[ "claude" := marked_image ]} [])).2) [].

(** * Properties *)

(** ** Byte strings *)

Lemma byte_eqb_refl (x : byte) : Byte.eqb x x = true.
Proof. by apply Byte.byte_dec_lb. Qed.

Lemma byte_eqb_true (x y : byte) : Byte.eqb x y = true <-> x = y.
Proof. split; [apply Byte.byte_dec_bl | apply Byte.byte_dec_lb]. Qed.

Lemma byte_eqb_neq (x y : byte) : Byte.eqb x y = false <-> x <> y.
Proof.
  split; [apply Byte.eqb_false|].
  intros Hne. destruct (Byte.eqb x y) eqn:E; [|done].
  by apply byte_eqb_true in E.
Qed.

Lemma starts_with_app (needle rest : bytes) : starts_with needle (needle ++ rest) = true.
Proof. induction needle as [|x n IH]; simpl; [done|]. by rewrite byte_eqb_refl. Qed.

Lemma bytes_in_cons (needle : bytes) x hay :
  bytes_in needle hay = true -> bytes_in needle (x :: hay) = true.
Proof. intros H. simpl. rewrite H. by destruct (starts_with _ _). Qed.

Lemma bytes_in_app_r (needle pre hay : bytes) :
  bytes_in needle hay = true -> bytes_in needle (pre ++ hay) = true.
Proof. induction pre; simpl app; auto using bytes_in_cons. Qed.

Lemma bytes_in_here (needle rest : bytes) : bytes_in needle (needle ++ rest) = true.
Proof.
  destruct (needle ++ rest) eqn:E; simpl; rewrite <- E, starts_with_app; done.
Qed.

Lemma bytes_in_middle (needle pre post : bytes) :
  bytes_in needle (pre ++ needle ++ post) = true.
Proof. apply bytes_in_app_r, bytes_in_here. Qed.

Lemma slice_length (data : bytes) a n : length (slice data a n) <= n.
Proof. unfold slice. rewrite length_take. lia. Qed.

(** ** The delimiter extractor *)

Section Extractor.
Variables o c : byte.
Hypothesis o_neq_c : o <> c.

Lemma delta_open : delta o c o = 1%Z.
Proof. unfold delta. by rewrite byte_eqb_refl. Qed.

Lemma delta_close : delta o c c = (-1)%Z.
Proof.
  unfold delta. rewrite byte_eqb_refl.
  by replace (Byte.eqb c o) with false by (symmetry; by apply byte_eqb_neq).
Qed.

Lemma delta_other b : b <> o -> b <> c -> delta o c b = 0%Z.
Proof.
  intros Ho Hc. unfold delta.
  apply byte_eqb_neq in Ho, Hc. by rewrite Ho, Hc.
Qed.

Lemma depth_cons b p : depth o c (b :: p) = (delta o c b + depth o c p)%Z.
Proof. done. Qed.

Lemma depth_app p q : depth o c (p ++ q) = (depth o c p + depth o c q)%Z.
Proof. induction p as [|b p IH]; simpl app; rewrite ?depth_cons; [done|lia]. Qed.

Lemma depth_no_open p : o ∉ p -> (depth o c p <= 0)%Z.
Proof.
  induction p as [|b p IH]; [done|].
  intros Hn. apply not_elem_of_cons in Hn as [Hb Hp].
  rewrite depth_cons. specialize (IH Hp).
  unfold delta. apply not_eq_sym, byte_eqb_neq in Hb. rewrite Hb.
  destruct (Byte.eqb b c); lia.
Qed.

Lemma nested_depth n w :
  nested o c n w ->
  depth o c w = 0%Z /\ forall k, (0 <= depth o c (take k w))%Z.
Proof.
  induction 1 as [|b n w Ho Hc _ [IHd IHk]|n m u v _ [IHu IHuk] _ [IHv IHvk]].
  - split; [done|]. intros k. by rewrite take_nil.
  - split.
    + rewrite depth_cons, delta_other by done. lia.
    + intros [|k]; [done|]. simpl take.
      rewrite depth_cons, delta_other by done. specialize (IHk k). lia.
  - split.
    + rewrite depth_cons, depth_app, depth_cons, delta_open, delta_close. lia.
    + intros [|k]; [done|]. simpl take.
      rewrite depth_cons, delta_open, take_app, depth_app.
      destruct (k - length u) as [|j] eqn:Ej.
      * rewrite take_0. specialize (IHuk k). simpl. lia.
      * rewrite take_ge by lia. simpl take.
        rewrite depth_cons, delta_close. specialize (IHvk j). lia.
Qed.

Lemma nested_open n w : nested o c (S n) w -> o ∈ w.
Proof.
  remember (S n) as k eqn:Ek. intros H. revert n Ek.
  induction H as [|b k w _ _ _ IH|]; intros n' Ek; [done| |].
  - apply elem_of_cons. right. by eapply IH.
  - apply elem_of_cons. by left.
Qed.

(** The loop on a window whose depth never drops below zero before it
    balances at [m]: it stops at the first [n] that brings the depth
    back to zero, after a byte at which the depth was one. *)
Lemma scan_block_nested chunk : forall i d m,
  (0 <= d)%Z -> m <= length chunk ->
  (forall k, k <= m -> (0 <= d + depth o c (take k chunk))%Z) ->
  (d + depth o c (take m chunk) = 0)%Z ->
  (d = 0%Z -> o ∈ take m chunk) ->
  exists n, 1 <= n <= m
    /\ scan_block o c chunk i d (0 <? d)%Z = i + n
    /\ (d + depth o c (take n chunk) = 0)%Z
    /\ (d + depth o c (take (n - 1) chunk) = 1)%Z
    /\ (forall k, k < n -> (d = 0%Z -> o ∈ take k chunk) ->
          (0 < d + depth o c (take k chunk))%Z).
Proof.
  induction chunk as [|b rest IH]; intros i d m Hd Hm Hnn Hz Hop.
  { rewrite take_nil in *. simpl in Hz.
    assert (d = 0%Z) as Hd0 by lia. by apply Hop, elem_of_nil in Hd0. }
  assert (exists m', m = S m') as [m' ->].
  { destruct m as [|m']; [|by eexists]. rewrite take_0 in *. simpl in Hz.
    assert (d = 0%Z) as Hd0 by lia. by apply Hop, elem_of_nil in Hd0. }
  simpl in Hm. simpl take in Hz, Hop. rewrite depth_cons in Hz.
  assert (forall k, k <= m' ->
            (0 <= d + delta o c b + depth o c (take k rest))%Z) as Hnn'.
  { intros k Hk. specialize (Hnn (S k)). simpl take in Hnn.
    rewrite depth_cons in Hnn. lia. }
  simpl scan_block.
  destruct (Byte.eqb b o) eqn:Ebo.
  - apply byte_eqb_true in Ebo as ->. rewrite delta_open in *.
    destruct (IH (S i) (d + 1)%Z m') as (n & Hn & Hs & Hdn & Hd1 & Hpos);
      [lia|lia|done|lia|lia|].
    replace (0 <? d + 1)%Z with true in Hs by (symmetry; apply Z.ltb_lt; lia).
    exists (S n). replace (S n - 1) with (S (n - 1)) by lia.
    split; [lia|]. split; [rewrite Hs; lia|].
    simpl take. rewrite !depth_cons, delta_open. split; [lia|]. split.
    + lia.
    + intros [|k] Hk Hin.
      * rewrite take_0. simpl. destruct (decide (d = 0%Z)) as [Hd0|]; [|lia].
        by apply Hin, elem_of_nil in Hd0.
      * simpl take. rewrite depth_cons, delta_open.
        specialize (Hpos k). lia.
  - apply byte_eqb_neq in Ebo.
    destruct (Byte.eqb b c) eqn:Ebc.
    + apply byte_eqb_true in Ebc as ->. rewrite delta_close in *.
      assert (1 <= d)%Z as Hd1.
      { specialize (Hnn' 0). rewrite take_0 in Hnn'. simpl in Hnn'. lia. }
      replace (0 <? d)%Z with true by (symmetry; apply Z.ltb_lt; lia).
      simpl andb.
      destruct (d - 1 =? 0)%Z eqn:Ed.
      * apply Z.eqb_eq in Ed. exists 1. split; [lia|]. split; [lia|].
        simpl take. rewrite take_0, depth_cons, delta_close. simpl.
        split; [lia|]. split; [lia|].
        intros k Hk _. replace k with 0 by lia. simpl. lia.
      * apply Z.eqb_neq in Ed.
        destruct (IH (S i) (d - 1)%Z m') as (n & Hn & Hs & Hdn & Hdp & Hpos).
        { lia. } { lia. }
        { intros k Hk. specialize (Hnn' k Hk). lia. }
        { lia. } { lia. }
        replace (0 <? d - 1)%Z with true in Hs by (symmetry; apply Z.ltb_lt; lia).
        exists (S n). replace (S n - 1) with (S (n - 1)) by lia.
    split; [lia|]. split; [rewrite Hs; lia|].
        simpl take. rewrite !depth_cons, delta_close. split; [lia|]. split.
    -- lia.
        -- intros [|k] Hk Hin.
           ++ rewrite take_0. simpl. lia.
           ++ simpl take. rewrite depth_cons, delta_close.
              specialize (Hpos k). lia.
    + apply byte_eqb_neq in Ebc. rewrite delta_other in * by done.
      destruct (IH (S i) d m') as (n & Hn & Hs & Hdn & Hdp & Hpos).
      { lia. } { lia. }
      { intros k Hk. specialize (Hnn' k Hk). lia. }
      { lia. }
      { intros Hd0. specialize (Hop Hd0).
        apply elem_of_cons in Hop as [Heq|Hin]; [by subst|done]. }
      exists (S n). replace (S n - 1) with (S (n - 1)) by lia.
    split; [lia|]. split; [rewrite Hs; lia|].
      simpl take. rewrite !depth_cons, delta_other by done. split; [lia|]. split.
    * lia.
      * intros [|k] Hk Hin.
        -- rewrite take_0. simpl. destruct (decide (d = 0%Z)) as [Hd0|]; [|lia].
           by apply Hin, elem_of_nil in Hd0.
        -- simpl take. rewrite depth_cons, delta_other by done.
           apply (Hpos k); [lia|]. intros Hd0. specialize (Hin Hd0).
           simpl take in Hin.
           apply elem_of_cons in Hin as [Heq|Hin]; [by subst|done].
Qed.

(** The loop on a window that never balances runs off its end. *)
Lemma scan_block_none chunk : forall i d started,
  (forall k, 1 <= k <= length chunk ->
     ~ ((started = true \/ o ∈ take k chunk)
        /\ (d + depth o c (take k chunk))%Z = 0%Z)) ->
  scan_block o c chunk i d started = 0.
Proof.
  induction chunk as [|b rest IH]; intros i d started Hnb; [done|].
  simpl scan_block.
  assert (forall started', (started = true -> started' = true) ->
            (started' = true -> started = true \/ b = o) ->
            scan_block o c rest (S i) (d + delta o c b)%Z started' = 0) as Hrec.
  { intros started' Hs1 Hs2. apply IH. intros k Hk [Hst Hz].
    apply (Hnb (S k)); [simpl; lia|]. simpl take. rewrite depth_cons.
    split; [|lia].
    destruct Hst as [Hst|Hin].
    - destruct (Hs2 Hst) as [?| ->]; [by left|]. right. apply elem_of_cons. by left.
    - right. apply elem_of_cons. by right. }
  destruct (Byte.eqb b o) eqn:Ebo.
  - apply byte_eqb_true in Ebo as ->. specialize (Hrec true).
    rewrite delta_open in Hrec. apply Hrec; auto.
  - apply byte_eqb_neq in Ebo.
    destruct (Byte.eqb b c) eqn:Ebc.
    + apply byte_eqb_true in Ebc as ->. specialize (Hrec started).
      rewrite delta_close in Hrec.
      destruct (started && (d - 1 =? 0)%Z) eqn:Efound.
      * apply andb_true_iff in Efound as [Hst Hz]. apply Z.eqb_eq in Hz.
        exfalso. apply (Hnb 1); [simpl; lia|]. simpl take.
        rewrite take_0, depth_cons, delta_close. simpl. split; [by left|lia].
      * replace (d - 1)%Z with (d + -1)%Z by lia. apply Hrec; auto.
    + apply byte_eqb_neq in Ebc. specialize (Hrec started).
      rewrite delta_other in Hrec by done.
      replace d with (d + 0)%Z at 1 by lia. apply Hrec; auto.
Qed.

(** Where the loop stops, if it stops. *)
Lemma scan_block_bound chunk : forall i d started,
  scan_block o c chunk i d started = 0
  \/ i < scan_block o c chunk i d started <= i + length chunk.
Proof.
  induction chunk as [|b rest IH]; intros i d started; [by left|].
  simpl scan_block. simpl length.
  destruct (Byte.eqb b o).
  - destruct (IH (S i) (d + 1)%Z true) as [->|?]; [by left|right; lia].
  - destruct (Byte.eqb b c).
    + destruct (started && _); [right; lia|].
      destruct (IH (S i) (d - 1)%Z started) as [->|?]; [by left|right; lia].
    + destruct (IH (S i) d started) as [->|?]; [by left|right; lia].
Qed.
End Extractor.

Lemma delimiters_distinct kind : (delimiters kind).1 <> (delimiters kind).2.
Proof. unfold delimiters. by destruct (String.eqb kind "function"). Qed.

(** Both branches of [_extract_block] run the same loop over its window. *)
Lemma extract_block_unfold data start_offset kind :
  _extract_block data start_offset kind =
  let chunk := slice data start_offset chunk_size in
  let end_ := scan_block (delimiters kind).1 (delimiters kind).2 chunk 0 0%Z false in
  if end_ =? 0 then (None, 0) else (Some (take end_ chunk), end_).
Proof. unfold _extract_block, delimiters. by destruct (String.eqb kind "function"). Qed.

(** What a successful extraction returns: the first [n >= 1] bytes at the
    offset, [n] within the window. *)
Lemma extract_block_some data start_offset kind span n :
  _extract_block data start_offset kind = (Some span, n) ->
  1 <= n /\ length span = n /\ span = slice data start_offset n.
Proof.
  rewrite extract_block_unfold. cbv zeta.
  set (chunk := slice data start_offset chunk_size).
  destruct (scan_block_bound (delimiters kind).1 (delimiters kind).2 chunk 0 0 false)
    as [->|Hb]; [done|].
  destruct (_ =? 0) eqn:E; [done|]. intros [= <- <-].
  pose proof (slice_length data start_offset chunk_size) as Hlen. fold chunk in Hlen.
  split; [lia|]. split.
  - rewrite length_take. lia.
  - subst chunk. unfold slice in *. rewrite take_take. f_equal. lia.
Qed.

(** C5. Balanced extraction. When the window starts with correctly nested
    pairs of the requested kind (at least one pair, other bytes allowed in
    between), [_extract_block] returns a span, with its length, whose depth
    trace is never negative, becomes positive, and returns to zero exactly
    once, at its last byte. When no prefix of the window holding an opener
    is balanced, it returns [(None, 0)]. *)
Theorem extract_block_balanced (data : bytes) (start_offset : nat) (kind : string) :
  let o := (delimiters kind).1 in
  let c := (delimiters kind).2 in
  let chunk := slice data start_offset chunk_size in
  (forall N w rest, nested o c (S N) w -> chunk = w ++ rest ->
     exists span, _extract_block data start_offset kind = (Some span, length span)
       /\ span `prefix_of` w /\ balanced_trace o c span)
  /\ (never_balances o c chunk -> _extract_block data start_offset kind = (None, 0)).
Proof.
  intros o c chunk. pose proof (delimiters_distinct kind) as Hoc. fold o c in Hoc.
  rewrite extract_block_unfold. cbv zeta. fold o c chunk. split.
  - intros N w rest Hnest Hchunk.
    destruct (nested_depth o c Hoc _ _ Hnest) as [Hzero Hnonneg].
    pose proof (nested_open o c _ _ Hnest) as Hopen.
    assert (take (length w) chunk = w) as Htw.
    { rewrite Hchunk, take_app_length. done. }
    assert (forall k, k <= length w -> take k chunk = take k w) as Htk.
    { intros k Hk. rewrite Hchunk, take_app_le by done. done. }
    destruct (scan_block_nested o c Hoc chunk 0 0%Z (length w))
      as (n & Hn & Hs & Hdn & Hd1 & Hpos).
    { done. } { rewrite Hchunk, length_app. lia. }
    { intros k Hk. rewrite Htk by done. specialize (Hnonneg k). lia. }
    { rewrite Htw. lia. } { intros _. by rewrite Htw. }
    change (0 <? 0)%Z with false in Hs. rewrite Nat.add_0_l in Hs.
    rewrite Hs. replace (n =? 0) with false by (symmetry; apply Nat.eqb_neq; lia).
    assert (length (take n chunk) = n) as Hlen.
    { rewrite length_take, Hchunk, length_app. lia. }
    exists (take n chunk). rewrite Hlen. split; [done|]. split.
    { rewrite Htk by lia. apply prefix_take. }
    assert (forall k, k <= n -> take k (take n chunk) = take k chunk) as Hkk.
    { intros k Hk. rewrite take_take. f_equal. lia. }
    unfold balanced_trace. rewrite Hlen. split; [|split].
    + intros k Hk. rewrite Hkk, Htk by lia. apply Hnonneg.
    + exists (n - 1). split; [lia|]. rewrite Hkk by lia. lia.
    + intros k Hk. rewrite !Hkk by lia. split.
      * intros [Hk0 Hk1]. destruct (decide (k = n)) as [|Hne]; [done|]. exfalso.
        assert (0 <= depth o c (take (k - 1) chunk))%Z as Hge.
        { rewrite Htk by lia. apply Hnonneg. }
        assert (o ∈ take (k - 1) chunk) as Hin.
        { destruct (decide (o ∈ take (k - 1) chunk)) as [|Hnin]; [done|].
          apply (depth_no_open o c) in Hnin. lia. }
        assert (o ∈ take k chunk) as Hin'.
        { apply elem_of_take in Hin as (j & Hj & Hlt).
          apply elem_of_take. exists j. split; [done|lia]. }
        specialize (Hpos k ltac:(lia) (fun _ => Hin')). lia.
      * intros ->. lia.
  - intros Hnever.
    rewrite (scan_block_none o c Hoc chunk); [done|].
    intros k Hk [[Hst|Hin] Hz]; [done|]. apply (Hnever k Hk). split; [done|lia].
Qed.

Lemma extract_block_balanced_witness :
  (exists span,
     _extract_block (B "f{a{}}tail") 0 "function" = (Some span, length span)
     /\ span `prefix_of` B "f{a{}}"
     /\ balanced_trace (ord "{") (ord "}") span)
  /\ _extract_block (B "(f((a)") 0 "return" = (None, 0).
Proof.
  split.
  - apply (proj1 (extract_block_balanced (B "f{a{}}tail") 0 "function")
             1 (B "f{a{}}") (B "tail")); [|reflexivity].
    apply nested_skip; [done|done|].
    apply (nested_pair _ _ 1 0 (B "a{}") []); [|apply nested_nil].
    apply nested_skip; [done|done|].
    apply (nested_pair _ _ 0 0 [] []); apply nested_nil.
  - apply (proj2 (extract_block_balanced (B "(f((a)") 0 "return")).
    intros k Hk [_ Hz]. revert Hz.
    do 7 (destruct k as [|k]; [try lia; by vm_compute|]). simpl in Hk. lia.
Defined.

(** Without the nesting premise the trace may dip below zero: a stray
    closer before the first opener is counted, and the span ends where
    the count comes back to zero. *)
Example extract_block_stray_closer :
  _extract_block (B "}{{}") 0 "function" = (Some (B "}{{}"), 4).
Proof. by vm_compute. Qed.

Example extract_block_function :
  _extract_block (B "xxfunction f(){return {a:{}}}tail") 2 "function"
  = (Some (B "function f(){return {a:{}}}"), 27).
Proof. by vm_compute. Qed.

(** ** The block classifier *)

Example stock_unit_detected :
  map (fun b => (b_kind b, b_offset b, b_length b, b_func_name b,
                 b_react_var b, b_flex_var b, b_text_var b))
      (find_mascot_blocks one_unit_image)
  = [(full_function, 2, 466, Some (B "f"), B "c", B "t", B "w")].
Proof. by vm_compute. Qed.

Lemma full_step_cases data blocks m :
  full_step data blocks m = blocks
  \/ exists b, full_step data blocks m = blocks ++ [b]
       /\ b_kind b = full_function /\ block_wf data b.
Proof.
  unfold full_step.
  repeat (match goal with |- context [if ?x then _ else _] => destruct x end;
          [by left|]).
  destruct (_extract_block _ _ _) as [[span|] n] eqn:E; [|by left].
  destruct (find_text_var span); [|by left].
  right. eexists. split; [done|]. split; [done|].
  by apply extract_block_some in E.
Qed.

Lemma return_step_cases data blocks m :
  return_step data blocks m = blocks
  \/ exists b, return_step data blocks m = blocks ++ [b]
       /\ b_kind b = return_block /\ block_wf data b
       /\ inside_full blocks (b_offset b) = false.
Proof.
  unfold return_step.
  destruct (inside_full blocks (m_start m)) eqn:Ein; [by left|].
  repeat (match goal with |- context [if ?x then _ else _] => destruct x end;
          [by left|]).
  destruct (_extract_block _ _ _) as [[span|] n] eqn:E; [|by left].
  destruct (find_text_var span); [|by left].
  right. eexists. split; [done|]. split; [done|]. split; [|done].
  by apply extract_block_some in E.
Qed.

Lemma fold_left_invariant {A C} (f : A -> C -> A) (P : A -> Prop) (l : list C) :
  forall a, P a -> (forall a x, P a -> P (f a x)) -> P (fold_left f l a).
Proof. induction l as [|x l IH]; simpl; auto. Qed.

Lemma find_full_functions_spec data :
  Forall (fun b => b_kind b = full_function /\ block_wf data b)
         (find_full_functions data).
Proof.
  unfold find_full_functions. apply fold_left_invariant; [done|].
  intros blocks m Hb.
  destruct (full_step_cases data blocks m) as [->|(b & -> & Hk & Hwf)]; [done|].
  apply Forall_app. split; [done|]. by apply Forall_singleton.
Qed.

Lemma inside_full_false blocks pos fb :
  inside_full blocks pos = false -> fb ∈ blocks ->
  ~ (b_offset fb <= pos < b_offset fb + b_length fb).
Proof.
  unfold inside_full. intros Hex Hin [H1 H2].
  assert (existsb
    (fun fb => (b_offset fb <=? pos) && (pos <? b_offset fb + b_length fb))
    blocks = true) as Ht; [|congruence].
  apply existsb_exists. exists fb. split; [by apply list_elem_of_In|].
  apply andb_true_iff. split; [by apply Nat.leb_le|by apply Nat.ltb_lt].
Qed.

(** Every detected block is well formed, a full function comes from
    Strategy 1, and a return block starts outside every full function. *)
Lemma find_mascot_blocks_spec data :
  let blocks := find_mascot_blocks data in
  Forall (block_wf data) blocks
  /\ (forall b, b ∈ blocks -> b_kind b = full_function ->
        b ∈ find_full_functions data)
  /\ (forall rb fb, rb ∈ blocks -> b_kind rb = return_block ->
        fb ∈ find_full_functions data ->
        ~ (b_offset fb <= b_offset rb < b_offset fb + b_length fb)).
Proof.
  unfold find_mascot_blocks.
  set (P := fun blocks : list block_info =>
    (forall fb, fb ∈ find_full_functions data -> fb ∈ blocks)
    /\ Forall (block_wf data) blocks
    /\ (forall b, b ∈ blocks -> b_kind b = full_function ->
          b ∈ find_full_functions data)
    /\ (forall rb fb, rb ∈ blocks -> b_kind rb = return_block ->
          fb ∈ find_full_functions data ->
          ~ (b_offset fb <= b_offset rb < b_offset fb + b_length fb))).
  cut (P (fold_left (return_step data) (finditer RETURN_BLOCK_RE data)
            (find_full_functions data))).
  { intros (_ & ? & ? & ?). done. }
  pose proof (find_full_functions_spec data) as Hfull.
  apply fold_left_invariant.
  - split; [done|]. split; [|split].
    + eapply Forall_impl; [exact Hfull|]. by intros b [_ ?].
    + done.
    + intros rb fb Hrb Hk _.
      rewrite Forall_forall in Hfull. destruct (Hfull rb Hrb) as [Hk' _]. congruence.
  - intros blocks m (Hsub & Hwf & Hfrom & Hout).
    destruct (return_step_cases data blocks m)
      as [->|(b & -> & Hk & Hb & Hin)]; [done|].
    split; [|split; [|split]].
    + intros fb Hfb. apply elem_of_app. left. auto.
    + apply Forall_app. split; [done|]. by apply Forall_singleton.
    + intros b' Hb' Hk'. apply elem_of_app in Hb' as [?|Heq]; [auto|].
      apply list_elem_of_singleton in Heq as ->. congruence.
    + intros rb fb Hrb Hkr Hfb. apply elem_of_app in Hrb as [?|Heq]; [eauto|].
      apply list_elem_of_singleton in Heq as ->.
      eapply inside_full_false; eauto.
Qed.

(** C8. Nested-match suppression. No return block in the classifier's
    output has its range inside the range of a full-function block of the
    output. *)
Theorem nested_fragment_suppressed (data : bytes) (fb rb : block_info) :
  fb ∈ find_mascot_blocks data -> rb ∈ find_mascot_blocks data ->
  b_kind fb = full_function -> b_kind rb = return_block ->
  ~ (b_offset fb <= b_offset rb
     /\ b_offset rb + b_length rb <= b_offset fb + b_length fb).
Proof.
  intros Hfb Hrb Hkf Hkr [Hlo Hhi].
  destruct (find_mascot_blocks_spec data) as (Hwf & Hfrom & Hout).
  rewrite Forall_forall in Hwf. destruct (Hwf rb Hrb) as (Hlen & _).
  apply (Hout rb fb Hrb Hkr (Hfrom fb Hfb Hkf)). lia.
Qed.

Lemma nested_fragment_suppressed_witness :
  let blocks := find_mascot_blocks two_block_image in
  exists fb rb, blocks = [fb; rb]
    /\ b_kind fb = full_function /\ b_kind rb = return_block
    /\ ~ (b_offset fb <= b_offset rb
          /\ b_offset rb + b_length rb <= b_offset fb + b_length fb).
Proof.
  intros blocks.
  assert (exists fb rb, blocks = [fb; rb]
            /\ b_kind fb = full_function /\ b_kind rb = return_block)
    as (fb & rb & Hb & Hkf & Hkr).
  { vm_compute. do 2 eexists. split; [reflexivity|]. split; reflexivity. }
  pose proof (nested_fragment_suppressed two_block_image fb rb) as H.
  change (find_mascot_blocks two_block_image) with blocks in H.
  clearbody blocks. subst blocks.
  exists fb, rb. split; [reflexivity|]. split; [exact Hkf|]. split; [exact Hkr|].
  apply H; [apply list_elem_of_here| |exact Hkf|exact Hkr].
  apply list_elem_of_further, list_elem_of_here.
Defined.

(** ** The replacement builder *)

Lemma length_bytes_mul (s : bytes) (n : Z) :
  length (bytes_mul s n) = Z.to_nat n * length s.
Proof.
  unfold bytes_mul. induction (Z.to_nat n) as [|k IH]; [done|].
  simpl. rewrite length_app, IH. lia.
Qed.

Lemma length_text_element react text color content :
  length (text_element react text color content)
  = length react + length text + length color + length content + 28.
Proof. unfold text_element, qt. rewrite ?length_app, ?length_cons, ?length_app. simpl. lia. Qed.

Lemma length_assemble b x y :
  length (assemble b x y) = frame_length b + length x + length y.
Proof.
  unfold frame_length, assemble, wrap_core, inner_element.
  destruct (b_kind b); rewrite ?length_app, ?length_text_element; simpl; lia.
Qed.

Lemma build_replacement_unfold b :
  build_replacement b = build_with (assemble b) (Z.of_nat (b_length b)).
Proof.
  unfold build_replacement, build_with, assemble. cbv zeta.
  repeat match goal with
         | |- context [if ?x then _ else _] => destruct x
         end; reflexivity.
Qed.

Lemma build_replacement_spec b :
  let core_len := Z.of_nat (length (core_candidate b)) in
  let target_len := Z.of_nat (b_length b) in
  let d := (target_len - core_len)%Z in
  build_replacement b =
    if (d <? 0)%Z then BuildFail (TooLong (- d) core_len target_len)
    else if (d =? 0)%Z then BuildOk (core_candidate b) ExactFit
    else BuildOk (padded_candidate b (Z.to_nat (d mod 3)) (d / 3)) (Padded (d / 3)).
Proof.
  intros core_len target_len d.
  rewrite build_replacement_unfold. unfold build_with. cbv zeta.
  fold (core_candidate b). fold core_len target_len d.
  assert (forall y, (target_len - Z.of_nat (length (assemble b ROW1_STR y))
                     = d - (Z.of_nat (length y) - 19))%Z) as Hadj.
  { intros y. unfold d, core_len, core_candidate.
    rewrite !length_assemble. change (length ROW3_BASE) with 19. lia. }
  assert (forall pc y, (0 <= pc)%Z ->
            (Z.of_nat (length (assemble b (ROW1_STR ++ bytes_mul (B "," ++ [dq; dq]) pc) y))
             = core_len + 3 * pc + (Z.of_nat (length y) - 19))%Z) as Hfin.
  { intros pc y Hpc. unfold core_len, core_candidate.
    rewrite !length_assemble, length_app, length_bytes_mul.
    change (length ROW3_BASE) with 19. change (length (B "," ++ [dq; dq])) with 3. lia. }
  assert (d = target_len - core_len)%Z as Hd by done.
  clearbody d. clearbody core_len target_len.
  destruct (d <? 0)%Z eqn:Eneg; [done|]. apply Z.ltb_ge in Eneg.
  destruct (d =? 0)%Z eqn:Ezero; [done|]. apply Z.eqb_neq in Ezero.
  rewrite !Hadj. change (length ROW3_PLUS1) with 20. change (length ROW3_PLUS2) with 21.
  assert (d mod 3 = 0 \/ d mod 3 = 1 \/ d mod 3 = 2)%Z as Hr by (pose proof (Z.mod_pos_bound d 3); lia).
  pose proof (Z.div_mod d 3 ltac:(lia)) as Hdm.
  destruct Hr as [Hr|[Hr|Hr]]; rewrite Hr; cbn [Z.eqb Pos.eqb negb]; cbv iota.
  - cbn [Z.eqb Pos.eqb negb]; cbv iota.
    replace (d / 3 <? 0)%Z with false by (symmetry; apply Z.ltb_ge; lia).
    rewrite Hfin by lia. change (length ROW3_BASE) with 19.
    match goal with |- context [(?x =? target_len)%Z] =>
      replace (x =? target_len)%Z with true by (symmetry; apply Z.eqb_eq; lia) end.
    done.
  - replace (d - (Z.of_nat 20 - 19))%Z with (d - 1)%Z by lia.
    assert ((d - 1) / 3 = d / 3 /\ (d - 1) mod 3 = 0)%Z as [Hq Hm].
    { rewrite (Z.div_mod d 3) at 1 3 by lia. rewrite Hr.
      replace (3 * (d / 3) + 1 - 1)%Z with ((d / 3) * 3)%Z by lia.
      rewrite Z.div_mul, Z.mod_mul by lia. done. }
    rewrite Hq, Hm. cbn [Z.eqb Pos.eqb negb]; cbv iota.
    replace (d / 3 <? 0)%Z with false by (symmetry; apply Z.ltb_ge; lia).
    rewrite Hfin by lia. change (length ROW3_PLUS1) with 20.
    match goal with |- context [(?x =? target_len)%Z] =>
      replace (x =? target_len)%Z with true by (symmetry; apply Z.eqb_eq; lia) end.
    done.
  - replace (d - (Z.of_nat 21 - 19))%Z with (d - 2)%Z by lia.
    assert ((d - 2) / 3 = d / 3 /\ (d - 2) mod 3 = 0)%Z as [Hq Hm].
    { rewrite (Z.div_mod d 3) at 1 3 by lia. rewrite Hr.
      replace (3 * (d / 3) + 2 - 2)%Z with ((d / 3) * 3)%Z by lia.
      rewrite Z.div_mul, Z.mod_mul by lia. done. }
    rewrite Hq, Hm. cbn [Z.eqb Pos.eqb negb]; cbv iota.
    replace (d / 3 <? 0)%Z with false by (symmetry; apply Z.ltb_ge; lia).
    rewrite Hfin by lia. change (length ROW3_PLUS2) with 21.
    match goal with |- context [(?x =? target_len)%Z] =>
      replace (x =? target_len)%Z with true by (symmetry; apply Z.eqb_eq; lia) end.
    done.
Qed.

Lemma length_padded_candidate b extra pc :
  (0 <= pc)%Z ->
  length (padded_candidate b extra pc)
  = length (core_candidate b) + extra + 3 * Z.to_nat pc.
Proof.
  intros Hpc. unfold padded_candidate, core_candidate, row3_literal, qt.
  rewrite !length_assemble, !length_app, length_bytes_mul. simpl length.
  rewrite !length_app, length_replicate. simpl. lia.
Qed.

Lemma padded_candidate_0 b : padded_candidate b 0 0 = core_candidate b.
Proof. reflexivity. Qed.

(** Every successful result is a padded candidate. *)
Lemma build_ok_shape b r msg :
  build_replacement b = BuildOk r msg ->
  exists extra pc, (0 <= pc)%Z /\ r = padded_candidate b extra pc
    /\ b_length b = length (core_candidate b) + extra + 3 * Z.to_nat pc.
Proof.
  rewrite build_replacement_spec. cbv zeta.
  set (d := (Z.of_nat (b_length b) - Z.of_nat (length (core_candidate b)))%Z).
  destruct (d <? 0)%Z eqn:Eneg; [done|]. apply Z.ltb_ge in Eneg.
  destruct (d =? 0)%Z eqn:Ezero.
  - apply Z.eqb_eq in Ezero. intros [= <- _]. exists 0, 0%Z.
    split; [done|]. split; [by rewrite padded_candidate_0|]. lia.
  - intros [= <- _]. exists (Z.to_nat (d mod 3)), (d / 3)%Z.
    pose proof (Z.mod_pos_bound d 3 ltac:(lia)).
    pose proof (Z.div_mod d 3 ltac:(lia)).
    split; [lia|]. split; [done|]. lia.
Qed.

Lemma fingerprint_split (t : bytes) :
  B ",{color:" ++ qt ROW1_COLOR ++ B "}," ++ ROW1_STR ++ t
  = B ",{" ++ PATCHED_FINGERPRINT ++ t.
Proof. reflexivity. Qed.

Lemma fingerprint_in_assemble b x y :
  is_already_patched (assemble b (ROW1_STR ++ x) y) = true.
Proof.
  unfold is_already_patched, assemble, wrap_core, inner_element. cbv zeta.
  destruct (b_kind b); unfold text_element at 1; rewrite <- ?app_assoc;
    repeat lazymatch goal with
           | |- bytes_in _ (B ",{color:" ++ _) = true => fail
           | |- bytes_in _ (_ ++ _) = true => apply bytes_in_app_r
           end;
    rewrite fingerprint_split; apply bytes_in_app_r, bytes_in_here.
Qed.

(** With one-byte identifiers the core candidate of a full function is
    418 bytes long. *)
Example core_candidate_length : length (core_candidate (stock_block 466)) = 418.
Proof. by vm_compute. Qed.

(** A 210-byte block with those identifiers is too short for the
    template: the builder fails with [TooLong]. *)
Example build_replacement_210 :
  build_replacement (stock_block 210) = BuildFail (TooLong 208 418 210).
Proof. by vm_compute. Qed.

(** C10. Every replacement the builder returns with success contains the
    patched fingerprint, so [is_already_patched] holds of it. *)
Theorem replacement_carries_fingerprint (b : block_info) (r : bytes) (msg : build_msg) :
  build_replacement b = BuildOk r msg -> is_already_patched r = true.
Proof.
  intros H. apply build_ok_shape in H as (extra & pc & _ & -> & _).
  apply fingerprint_in_assemble.
Qed.

Lemma replacement_carries_fingerprint_witness :
  exists r msg, build_replacement (stock_block 466) = BuildOk r msg
    /\ is_already_patched r = true.
Proof.
  destruct (build_replacement (stock_block 466)) as [r msg|msg] eqn:E.
  - exists r, msg. split; [reflexivity|].
    exact (replacement_carries_fingerprint (stock_block 466) r msg E).
  - vm_compute in E. discriminate E.
Defined.

(** C4. Padding solver. When the target length exceeds the core
    candidate's length by a deficit [d >= 0] (in particular for [d] in
    0, 1, 2, 3, 4, 5, 47), the builder succeeds with the candidate that
    carries [d mod 3] extra single-byte fillers in row 3 and [d / 3]
    three-byte filler tokens in row 1, and that candidate has exactly the
    target length. When the core candidate is longer than the target, the
    builder fails and returns no bytes. *)
Theorem padding_solver_exact (b : block_info) :
  (forall d : nat, b_length b = length (core_candidate b) + d ->
     exists msg,
       build_replacement b
       = BuildOk (padded_candidate b (d mod 3) (Z.of_nat (d / 3))) msg
       /\ length (padded_candidate b (d mod 3) (Z.of_nat (d / 3))) = b_length b)
  /\ (b_length b < length (core_candidate b) ->
      exists msg, build_replacement b = BuildFail msg).
Proof.
  split.
  - intros d Hd.
    assert (length (padded_candidate b (d mod 3) (Z.of_nat (d / 3))) = b_length b)
      as Hlen.
    { rewrite length_padded_candidate by lia. rewrite Nat2Z.id, Hd.
      pose proof (Nat.div_mod_eq d 3). lia. }
    rewrite build_replacement_spec. cbv zeta.
    replace (Z.of_nat (b_length b) - Z.of_nat (length (core_candidate b)))%Z
      with (Z.of_nat d) by lia.
    replace (Z.of_nat d <? 0)%Z with false by (symmetry; apply Z.ltb_ge; lia).
    destruct (Z.of_nat d =? 0)%Z eqn:E.
    + apply Z.eqb_eq in E. assert (d = 0) as -> by lia.
      exists ExactFit. split; [|done]. by rewrite <- padded_candidate_0.
    + exists (Padded (Z.of_nat d / 3)). split; [|done].
      change 3%Z with (Z.of_nat 3).
      rewrite <- Nat2Z.inj_mod, <- Nat2Z.inj_div, Nat2Z.id. done.
  - intros Hlt. rewrite build_replacement_spec. cbv zeta.
    replace (_ <? 0)%Z with true by (symmetry; apply Z.ltb_lt; lia).
    by eexists.
Qed.

Lemma padding_solver_exact_witness :
  (exists msg,
     build_replacement (stock_block 465)
     = BuildOk (padded_candidate (stock_block 465) (47 mod 3) (Z.of_nat (47 / 3))) msg
     /\ length (padded_candidate (stock_block 465) (47 mod 3) (Z.of_nat (47 / 3)))
        = b_length (stock_block 465))
  /\ (exists msg, build_replacement (stock_block 417) = BuildFail msg).
Proof.
  split.
  - apply (proj1 (padding_solver_exact (stock_block 465)) 47). reflexivity.
  - apply (proj2 (padding_solver_exact (stock_block 417))). vm_compute. lia.
Defined.

(** ** Reasoning about [M] computations *)

Lemma has_diagnostic_app l1 l2 :
  has_diagnostic (l1 ++ l2) = has_diagnostic l1 || has_diagnostic l2.
Proof. apply existsb_app. Qed.

Lemma wp_bind {A C} (m : M A) (f : A -> M C) Q R st :
  wp m (fun a st' => wp (f a) Q R st') R st -> wp (bind m f) Q R st.
Proof. unfold wp, bind. by destruct (m st) as [[a|code] st']. Qed.

Lemma wp_conseq {A} (m : M A) (Q Q' : A -> state -> Prop)
    (R R' : Z -> state -> Prop) st :
  wp m Q R st -> (forall a st', Q a st' -> Q' a st') ->
  (forall code st', R code st' -> R' code st') -> wp m Q' R' st.
Proof. unfold wp. destruct (m st) as [[a|code] st']; auto. Qed.

Lemma wp_ret {A} (a : A) (Q : A -> state -> Prop) R st : Q a st -> wp (ret a) Q R st.
Proof. done. Qed.

Lemma wp_return {A} code (Q : A -> state -> Prop) (R : Z -> state -> Prop) st :
  R code st -> wp (return_ code) Q R st.
Proof. done. Qed.

Lemma wp_say l text (Q : unit -> state -> Prop) R st :
  Q tt (State (fs st) (out st ++ [Diag l text])) -> wp (say l text) Q R st.
Proof. done. Qed.

Lemma wp_get_files (Q : files -> state -> Prop) R st :
  Q (fs st) st -> wp get_files Q R st.
Proof. done. Qed.

Lemma wp_set_files f (Q : unit -> state -> Prop) R st :
  Q tt (State f (out st)) -> wp (set_files f) Q R st.
Proof. done. Qed.

Lemma wp_logging {A} (m : M A) ok bad (Q : A -> state -> Prop) R st :
  logging m ok bad ->
  (forall a log, ok a -> Q a (State (fs st) (out st ++ log))) ->
  (forall log, has_diagnostic log = true -> bad ->
     R 0%Z (State (fs st) (out st ++ log))) ->
  wp m Q R st.
Proof.
  intros Hm HQ HR. unfold wp. destruct (Hm st) as (log & Hst & Hres).
  destruct (m st) as [[a|code] st']; simpl in *; subst st'; [auto|].
  destruct Hres as (-> & ? & ?). auto.
Qed.

Lemma logging_ret {A} (a : A) (ok : A -> Prop) bad : ok a -> logging (ret a) ok bad.
Proof. intros H st. exists []. simpl. by rewrite app_nil_r; destruct st. Qed.

Lemma logging_say l text (ok : unit -> Prop) bad : ok tt -> logging (say l text) ok bad.
Proof. intros H st. by exists [Diag l text]. Qed.

Lemma logging_bind {A C} (m : M A) (f : A -> M C) ok1 ok bad :
  logging m ok1 bad -> (forall a, ok1 a -> logging (f a) ok bad) ->
  logging (bind m f) ok bad.
Proof.
  intros Hm Hf st. unfold bind. destruct (Hm st) as (log1 & Hst & Hres).
  destruct (m st) as [[a|code] st1]; simpl in *; subst st1.
  - destruct (Hf a Hres (State (fs st) (out st ++ log1))) as (log2 & Hst2 & Hres2).
    exists (log1 ++ log2). simpl in *. rewrite Hst2, app_assoc. split; [done|].
    destruct (f a _).1; [done|]. destruct Hres2 as (-> & Hd & ?).
    rewrite has_diagnostic_app, Hd, orb_true_r. done.
  - by exists log1.
Qed.

Lemma logging_weaken {A} (m : M A) (ok1 ok : A -> Prop) (bad1 bad : Prop) :
  logging m ok1 bad1 -> (forall a, ok1 a -> ok a) -> (bad1 -> bad) ->
  logging m ok bad.
Proof.
  intros Hm Hok Hbad st. destruct (Hm st) as (log & Hst & Hres).
  exists log. split; [done|]. destruct (m st).1; [auto|].
  destruct Hres as (? & ? & ?). auto.
Qed.

Lemma logging_say_any l text bad : logging (say l text) (fun _ => True) bad.
Proof. by apply logging_say. Qed.

(** An error or warning line followed by [return 0]. *)
Lemma logging_abort {A} l text (rest : M A) (ok : A -> Prop) (bad : Prop) :
  is_diagnostic (Diag l text) = true -> bad ->
  (forall st, exists log, rest st = (Return 0%Z, State (fs st) (out st ++ log))) ->
  logging (say l text;; rest) ok bad.
Proof.
  intros Hd Hbad Hrest st. unfold bind, say.
  destruct (Hrest (State (fs st) (out st ++ [Diag l text]))) as (log & ->).
  exists (Diag l text :: log). simpl. rewrite <- app_assoc. split; [done|].
  split; [done|]. split; [|done]. unfold has_diagnostic. simpl. by rewrite Hd.
Qed.

Lemma info_return_0 {A} text st :
  exists log, (info text;; @return_ A 0) st = (Return 0%Z, State (fs st) (out st ++ log)).
Proof. by eexists. Qed.

(** ** The loops of [main] *)

Lemma report_blocks_logging blocks : forall a n,
  logging (report_blocks blocks a n)
          (fun r => r.2 = n + needs_patch_count blocks) False.
Proof.
  unfold needs_patch_count.
  induction blocks as [|b rest IH]; intros a n; simpl report_blocks.
  - apply logging_ret. simpl. lia.
  - rewrite filter_cons.
    destruct (is_already_patched (b_block b)) eqn:E.
    + rewrite decide_False by done.
      eapply logging_bind; [apply logging_say_any|]. intros _ _. apply IH.
    + rewrite decide_True by done.
      eapply logging_bind; [apply logging_say_any|]. intros _ _.
      eapply logging_weaken; [apply (IH a (S n))| |done].
      intros r Hr. simpl in *. lia.
Qed.

Lemma build_patches_logging blocks : forall acc,
  logging (build_patches blocks acc)
          (fun l => exists built, plan blocks = Some built /\ l = acc ++ built)
          (plan blocks = None).
Proof.
  induction blocks as [|b rest IH]; intros acc; simpl build_patches; simpl plan.
  - apply logging_ret. exists []. by rewrite app_nil_r.
  - destruct (is_already_patched (b_block b)); [apply IH|].
    destruct (build_replacement b) as [r msg|msg].
    + eapply logging_bind; [apply logging_say_any|]. intros _ _.
      eapply logging_weaken; [apply IH| |].
      * intros l (built & -> & ->). eexists. split; [done|]. by rewrite <- app_assoc.
      * by intros ->.
    + apply logging_abort; [done|done|]. apply info_return_0.
Qed.

Lemma check_sizes_logging patches :
  logging (check_sizes patches)
          (fun _ => Forall (fun p => length (p_new p) = p_length p) patches)
          (~ Forall (fun p => length (p_new p) = p_length p) patches).
Proof.
  induction patches as [|p rest IH]; simpl check_sizes.
  - by apply logging_ret.
  - destruct (length (p_new p) =? p_length p) eqn:E; simpl negb; cbv iota.
    + apply Nat.eqb_eq in E.
      eapply logging_weaken; [apply IH| |].
      * intros ? Hf. by constructor.
      * intros Hn Hf. apply Hn. by inversion Hf.
    + apply Nat.eqb_neq in E. apply logging_abort; [done| |apply info_return_0].
      intros Hf. by inversion Hf.
Qed.

Lemma check_overlaps_logging l :
  logging (check_overlaps l) (fun _ => overlap_free l) (~ overlap_free l).
Proof.
  induction l as [|p [|q rest] IH]; simpl check_overlaps.
  - apply logging_ret. by intros [|i] ???.
  - apply logging_ret. by intros [|[|i]] ???.
  - destruct (p_offset q <? p_offset p + p_length p) eqn:E.
    + apply Nat.ltb_lt in E. apply logging_abort; [done| |apply info_return_0].
      intros Hf. specialize (Hf 0 p q eq_refl eq_refl). lia.
    + apply Nat.ltb_ge in E. eapply logging_weaken; [apply IH| |].
      * intros ? Hres [|i] p' q' Hp Hq; simpl in *; [by simplify_eq|].
        by apply (Hres i).
      * intros Hn Hf. apply Hn. intros i p' q' Hp Hq. by apply (Hf (S i)).
Qed.

Lemma report_planned_logging patches :
  logging (report_planned patches) (fun _ => True) False.
Proof.
  induction patches as [|p rest IH]; simpl report_planned.
  - by apply logging_ret.
  - eapply logging_bind; [apply logging_say_any|]. intros _ _. apply IH.
Qed.

Lemma apply_patches_logging patches : forall modified,
  logging (apply_patches patches modified)
          (fun m => apply_pure patches modified = Some m)
          (apply_pure patches modified = None).
Proof.
  induction patches as [|p rest IH]; intros modified;
    simpl apply_patches; simpl apply_pure.
  - by apply logging_ret.
  - destruct (bool_decide _); simpl negb; cbv iota.
    + eapply logging_bind; [apply logging_say_any|]. intros _ _. apply IH.
    + apply logging_abort; [done|done|apply info_return_0].
Qed.

(** ** Length invariance *)

Lemma build_ok_length b r msg :
  build_replacement b = BuildOk r msg -> length r = b_length b.
Proof.
  intros H. apply build_ok_shape in H as (extra & pc & Hpc & -> & Hlen).
  rewrite length_padded_candidate by done. lia.
Qed.

Lemma plan_spec data blocks patches :
  Forall (block_wf data) blocks -> plan blocks = Some patches ->
  Forall (fun p => length (p_new p) = length (p_old p)
                   /\ length (p_old p) = p_length p
                   /\ p_old p = slice data (p_offset p) (p_length p)) patches.
Proof.
  intros Hwf. revert patches.
  induction Hwf as [|b rest (Hlen & Hblk & Hsl) _ IH]; intros patches; simpl plan.
  - by intros [= <-].
  - destruct (is_already_patched (b_block b)); [apply IH|].
    destruct (build_replacement b) as [r msg|msg] eqn:E; [|done].
    destruct (plan rest) as [l|]; [|done]. intros [= <-].
    constructor; [|by apply IH]. simpl.
    apply build_ok_length in E. rewrite E, Hblk. done.
Qed.

Lemma length_splice_same (m : bytes) (o l : nat) (old new : bytes) :
  slice m o l = old -> length new = length old ->
  length (splice m o l new) = length m.
Proof.
  unfold slice, splice. intros <- Hnew.
  rewrite !length_app, Hnew, !length_take, !length_drop. lia.
Qed.

Lemma apply_pure_length patches : forall m m',
  Forall (fun p => length (p_new p) = length (p_old p)) patches ->
  apply_pure patches m = Some m' -> length m' = length m.
Proof.
  induction patches as [|p rest IH]; intros m m' Hf; simpl apply_pure.
  - by intros [= <-].
  - inversion Hf as [|? ? Hp Hrest]; subst.
    destruct (bool_decide _) eqn:E; [|done]. apply bool_decide_eq_true in E.
    intros H. apply IH in H; [|done]. rewrite H.
    by apply (length_splice_same _ _ _ (p_old p)).
Qed.

(** What [logging] says about one run. *)
Lemma logging_next {A} (m : M A) ok bad st a st' :
  logging m ok bad -> m st = (Next a, st') -> ok a /\ fs st' = fs st.
Proof.
  intros Hm Hrun. destruct (Hm st) as (log & Hst & Hres).
  rewrite Hrun in Hst, Hres. simpl in *. by subst st'.
Qed.

(** C1. Length invariance. A replacement the builder returns with success
    has the block's length; every patch Gate 4 accepts for the detected
    blocks has new bytes as long as its original bytes, which are as long
    as the recorded length; and the working copy after the apply loop is
    as long as the image it started from. *)
Theorem length_invariance (data : bytes) (st : state) :
  (forall b r msg, build_replacement b = BuildOk r msg -> length r = b_length b)
  /\ (forall patches st1,
        build_patches (find_mascot_blocks data) [] st = (Next patches, st1) ->
        Forall (fun p => length (p_new p) = length (p_old p)
                         /\ length (p_old p) = p_length p) patches
        /\ forall st2 modified st3,
             apply_patches patches data st2 = (Next modified, st3) ->
             length modified = length data).
Proof.
  split; [apply build_ok_length|].
  intros patches st1 Hbuild.
  destruct (logging_next _ _ _ _ _ _ (build_patches_logging _ []) Hbuild)
    as ((built & Hplan & ->) & _).
  simpl app.
  destruct (find_mascot_blocks_spec data) as (Hwf & _).
  pose proof (plan_spec data _ _ Hwf Hplan) as Hp.
  split.
  - eapply Forall_impl; [exact Hp|]. by intros p (? & ? & _).
  - intros st2 modified st3 Happly.
    destruct (logging_next _ _ _ _ _ _ (apply_patches_logging built data) Happly)
      as (Hpure & _).
    apply apply_pure_length in Hpure; [done|].
    eapply Forall_impl; [exact Hp|]. by intros p (? & _).
Qed.

Lemma length_invariance_witness :
  exists patches st1 modified st3,
    build_patches (find_mascot_blocks one_unit_image) [] world0 = (Next patches, st1)
    /\ apply_patches patches one_unit_image st1 = (Next modified, st3)
    /\ length patches = 1
    /\ Forall (fun p => length (p_new p) = length (p_old p)
                        /\ length (p_old p) = p_length p) patches
    /\ length modified = length one_unit_image.
Proof.
  destruct (build_patches (find_mascot_blocks one_unit_image) [] world0)
    as [[patches|code] st1] eqn:Hb; [|by vm_compute in Hb].
  destruct (apply_patches patches one_unit_image st1)
    as [[modified|code] st3] eqn:Ha.
  - exists patches, st1, modified, st3.
    destruct (proj2 (length_invariance one_unit_image world0) patches st1 Hb)
      as [Hf Hlen].
    split; [reflexivity|]. split; [exact Ha|]. split.
    + vm_compute in Hb. injection Hb as <- _. reflexivity.
    + split; [exact Hf|]. exact (Hlen st1 modified st3 Ha).
  - vm_compute in Hb. injection Hb as <- <-. vm_compute in Ha. discriminate Ha.
Defined.

(** ** Symbolic execution of [main] *)

Ltac wp_step :=
  lazymatch goal with
  | |- wp (bind _ _) _ _ _ => apply wp_bind
  | |- wp (ret _) _ _ _ => apply wp_ret
  | |- wp (return_ _) _ _ _ => apply wp_return
  | |- wp (say _ _) _ _ _ => apply wp_say
  | |- wp get_files _ _ _ => apply wp_get_files
  | |- wp (set_files _) _ _ _ => apply wp_set_files
  end.

Ltac wp_steps :=
  repeat (unfold header, info, success, warn, error, print_;
          wp_step; cbv beta iota; cbn [fs out]).

Lemma has_diagnostic_snoc_true log d :
  is_diagnostic d = true -> has_diagnostic (log ++ [d]) = true.
Proof.
  intros H. rewrite has_diagnostic_app. unfold has_diagnostic at 2. simpl.
  rewrite H. by rewrite orb_true_r.
Qed.


Lemma has_diagnostic_grow_r log more :
  has_diagnostic more = true -> has_diagnostic (log ++ more) = true.
Proof. intros H. rewrite has_diagnostic_app, H. apply orb_true_r. Qed.

Lemma has_diagnostic_cons d l :
  has_diagnostic (d :: l) = is_diagnostic d || has_diagnostic l.
Proof. done. Qed.

(** Closes [code = 0 /\ ... /\ has_diagnostic log = true] goals once the
    log visibly holds an error or a warning. *)
Ltac diag_solve :=
  cbn [fs out]; repeat split; try reflexivity; try assumption;
  repeat (rewrite has_diagnostic_app || rewrite has_diagnostic_cons);
  repeat match goal with H : has_diagnostic _ = true |- _ => rewrite H end;
  cbn [is_diagnostic d_level has_diagnostic existsb orb];
  repeat (rewrite orb_true_r || rewrite orb_true_l);
  try reflexivity.

(** ** Overlap rejection *)

Lemma insert_by_offset_sorted p l :
  offsets_sorted l -> offsets_sorted (insert_by_offset p l).
Proof.
  induction l as [|q l IH]; intros Hs; simpl.
  - by intros [|[|i]] ???.
  - destruct (p_offset p <=? p_offset q) eqn:E.
    + apply Nat.leb_le in E. intros [|i] p' q' Hp Hq; simpl in *.
      * by simplify_eq.
      * by apply (Hs i).
    + apply Nat.leb_gt in E.
      assert (offsets_sorted l) as Hl.
      { intros i p' q' Hp Hq. by apply (Hs (S i)). }
      specialize (IH Hl).
      intros [|i] p' q' Hp Hq; simpl in *.
      * simplify_eq. destruct l as [|r l]; simpl in Hq.
        -- simplify_eq. lia.
        -- destruct (p_offset p <=? p_offset r); simpl in Hq; simplify_eq; [lia|].
           by apply (Hs 0).
      * by apply (IH i).
Qed.

Lemma sort_by_offset_sorted patches : offsets_sorted (sort_by_offset patches).
Proof.
  induction patches as [|p l IH]; simpl.
  - by intros [|i] ???.
  - by apply insert_by_offset_sorted.
Qed.

Lemma needs_patch_count_0 blocks :
  needs_patch_count blocks = 0 -> plan blocks = Some [].
Proof.
  unfold needs_patch_count. induction blocks as [|b rest IH]; [done|].
  rewrite filter_cons. simpl plan.
  destruct (is_already_patched (b_block b)).
  - rewrite decide_False by done. apply IH.
  - rewrite decide_True by done. done.
Qed.

(** C6. Overlap rejection. When two adjacent patches of the offset-sorted
    patch set built for the image have intersecting ranges, [main] stops
    at Gate 6: it returns 0 after an error, and no file has changed. *)
Theorem overlap_rejected (e : env) (a : args) (binary : string) (data : bytes)
    (f : files) (patches : list patch) (st1 : state) :
  build_patches (find_mascot_blocks data) [] (State f []) = (Next patches, st1) ->
  (exists i p q, sort_by_offset patches !! i = Some p
                 /\ sort_by_offset patches !! S i = Some q
                 /\ ranges_intersect p q) ->
  exists st', main_patch e a binary data (State f []) = (Return 0%Z, st')
    /\ fs st' = f /\ has_diagnostic (out st') = true.
Proof.
  intros Hbuild (i & p & q & Hp & Hq & x & Hxp & Hxq).
  destruct (logging_next _ _ _ _ _ _ (build_patches_logging _ []) Hbuild)
    as ((built & Hplan & ->) & _). simpl app in *.
  assert (~ overlap_free (sort_by_offset built)) as Hover.
  { intros Hfree. specialize (Hfree i p q Hp Hq).
    pose proof (sort_by_offset_sorted built i p q Hp Hq). lia. }
  cut (wp (main_patch e a binary data) (fun _ _ => False)
          (fun code st' => code = 0%Z /\ fs st' = f /\ has_diagnostic (out st') = true)
          (State f [])).
  { unfold wp. destruct (main_patch e a binary data (State f [])) as [[c|c] st'];
      [done|]. intros (-> & ? & ?). by exists st'. }
  unfold main_patch. wp_steps.
  destruct (bool_decide _) eqn:Eempty.
  { wp_steps. diag_solve. }
  wp_steps. eapply wp_logging; [apply report_blocks_logging| |by intros ? ? []].
  intros [ap np] log Hnp. simpl in Hnp. wp_steps.
  destruct (np =? 0) eqn:Enp.
  { apply Nat.eqb_eq in Enp. exfalso. rewrite needs_patch_count_0 in Hplan by lia.
    simplify_eq. }
  wp_steps. eapply wp_logging; [apply build_patches_logging| |].
  2:{ intros log' Hd Hnone. congruence. }
  intros patches log' (built' & Hplan' & ->). simpl app. wp_steps.
  assert (built' = built) as -> by congruence.
  eapply wp_logging; [apply check_sizes_logging| |].
  2:{ intros log2 Hd _. diag_solve. }
  intros [] log2 _. wp_steps.
  eapply wp_logging; [apply check_overlaps_logging| |].
  2:{ intros log3 Hd _. diag_solve. }
  intros [] log3 Hfree. done.
Qed.

Lemma overlap_rejected_witness :
  exists patches st1 st',
    build_patches (find_mascot_blocks nested_image) [] (State ∅ [])
    = (Next patches, st1)
    /\ length patches = 2
    /\ main_patch env_ok (apply_args "claude") "claude" nested_image (State ∅ [])
       = (Return 0%Z, st')
    /\ fs st' = ∅ /\ has_diagnostic (out st') = true.
Proof.
  destruct (build_patches (find_mascot_blocks nested_image) [] (State ∅ []))
    as [[patches|code] st1] eqn:Hb; [|by vm_compute in Hb].
  pose proof (overlap_rejected env_ok (apply_args "claude") "claude" nested_image
                ∅ patches st1 Hb) as H.
  assert (length patches = 2
          /\ exists i p q, sort_by_offset patches !! i = Some p
               /\ sort_by_offset patches !! S i = Some q
               /\ ranges_intersect p q) as [Hlen Hex].
  { clear H. vm_compute in Hb. injection Hb as <- _. split; [reflexivity|].
    exists 0. do 2 eexists. split; [reflexivity|]. split; [reflexivity|].
    exists 200. vm_compute. lia. }
  destruct (H Hex) as (st' & Hrun & Hfs & Hd).
  exists patches, st1, st'.
  exact (conj eq_refl (conj Hlen (conj Hrun (conj Hfs Hd)))).
Defined.

(** ** File operations *)

Lemma append_empty_r (s : string) : s +:+ "" = s.
Proof.
  induction s as [|c s IH]; [done|].
  change (String c (s +:+ "") = String c s). by rewrite IH.
Qed.

Lemma backup_path_neq binary : backup_path binary <> binary.
Proof.
  unfold backup_path. intros H.
  assert (binary +:+ ".bak" = binary +:+ "") as H' by (by rewrite append_empty_r).
  by apply String.app_inj in H'.
Qed.

Lemma temp_path_neq binary : binary +:+ ".tmp" <> binary.
Proof.
  intros H.
  assert (binary +:+ ".tmp" = binary +:+ "") as H' by (by rewrite append_empty_r).
  by apply String.app_inj in H'.
Qed.

Lemma temp_path_neq_backup binary : binary +:+ ".tmp" <> backup_path binary.
Proof. unfold backup_path. intros H. by apply String.app_inj in H. Qed.

Lemma wp_oracle {A} (g : files -> A) (Q : A -> state -> Prop) R st :
  (forall a, Q a st) -> wp (f ← get_files; ret (g f)) Q R st.
Proof. intros H. apply H. Qed.

Lemma wp_resolve_binary e a (Q : option string -> state -> Prop) R st :
  Q (target_of e a (fs st)) st -> wp (resolve_binary e a) Q R st.
Proof. done. Qed.

(** [read_file] after the [isfile] and [os.access] checks have passed. *)
Lemma wp_read_file e path (Q : bytes -> state -> Prop) R st :
  bool_decide (is_Some (fs st !! path)) = true ->
  access_r_ok e (fs st) path = true ->
  (forall data, fs st !! path = Some data -> Q data st) ->
  wp (read_file e path) Q R st.
Proof.
  intros Hfile Hacc HQ. apply bool_decide_eq_true in Hfile as [data Hdata].
  unfold wp, read_file, bind, get_files. rewrite Hdata, Hacc. by apply HQ.
Qed.

Lemma wp_verify_binary_runs e binary_path (Q : bool -> state -> Prop) R st :
  (forall v, Q v st) -> wp (verify_binary_runs e binary_path) Q R st.
Proof. intros H. apply H. Qed.

Lemma wp_codesign_binary e binary_path (Q : bool -> state -> Prop) R st :
  (forall v, Q v st) -> wp (codesign_binary e binary_path) Q R st.
Proof. intros H. apply H. Qed.

(** [create_backup]: the backup was there and nothing changes; or it was
    not and is now a copy of the binary; or it was not and the copy
    failed. *)
Lemma wp_create_backup e binary (Q : bool * string -> state -> Prop) R st :
  (forall msg, is_Some (fs st !! backup_path binary) -> Q (true, msg) st) ->
  (forall msg data, fs st !! backup_path binary = None ->
     fs st !! binary = Some data ->
     Q (true, msg) (State (<[backup_path binary := data]> (fs st)) (out st))) ->
  (forall msg, fs st !! backup_path binary = None -> Q (false, msg) st) ->
  wp (create_backup e binary) Q R st.
Proof.
  intros Hthere Hcopied Hfailed.
  unfold wp, create_backup, path_exists, isfile, copy2, bind, get_files, set_files, ret.
  destruct (bool_decide _) eqn:Ex.
  - apply bool_decide_eq_true in Ex. auto.
  - apply bool_decide_eq_false in Ex.
    assert (fs st !! backup_path binary = None) as Hnone.
    { by apply eq_None_not_Some. }
    destruct (copy2_raises e (fs st) binary (backup_path binary)); [auto|].
    destruct (fs st !! binary) eqn:Eb; auto.
Qed.

(** [restore_backup]: it failed and nothing changes, or the binary now
    holds the backup's content. *)
Lemma wp_restore_backup e binary (Q : bool * string -> state -> Prop) R st :
  (forall msg, Q (false, msg) st) ->
  (forall msg data, fs st !! backup_path binary = Some data ->
     Q (true, msg) (State (<[binary := data]> (fs st)) (out st))) ->
  wp (restore_backup e binary) Q R st.
Proof.
  intros Hfailed Hcopied.
  unfold wp, restore_backup, path_exists, isfile, copy2, bind, get_files, set_files, ret.
  destruct (bool_decide _) eqn:Ex; cbn [negb]; [|by apply Hfailed].
  destruct (copy2_raises e (fs st) (backup_path binary) binary);
    [by apply Hfailed|].
  destruct (fs st !! backup_path binary) eqn:Eb; [|by apply Hfailed].
  by apply Hcopied.
Qed.


Lemma wp_unlink_quietly e path (Q : unit -> state -> Prop) R st :
  Q tt st -> Q tt (State (delete path (fs st)) (out st)) ->
  wp (unlink_quietly e path) Q R st.
Proof.
  intros Hkeep Hdel. unfold wp, unlink_quietly, bind, get_files, set_files, ret.
  by destruct (unlink_raises e (fs st) path).
Qed.

(** [rollback]: the restore failed, an error is printed and nothing
    changes; or the binary holds the backup's content again. *)
Lemma wp_rollback e binary (Q : unit -> state -> Prop) R st :
  (forall log, has_diagnostic log = true -> Q tt (State (fs st) (out st ++ log))) ->
  (forall data log, fs st !! backup_path binary = Some data ->
     Q tt (State (<[binary := data]> (fs st)) (out st ++ log))) ->
  wp (rollback e binary) Q R st.
Proof.
  intros Hfailed Hrestored. unfold rollback. apply wp_bind, wp_restore_backup.
  - intros msg. wp_steps. apply (Hfailed [Diag Error msg]). done.
  - intros msg data Hbak. wp_steps. apply wp_codesign_binary. intros _.
    wp_steps. apply wp_verify_binary_runs. intros [|]; wp_steps.
    + rewrite <- app_assoc. by apply Hrestored.
    + rewrite <- app_assoc. by apply Hrestored.
Qed.

(** ** The race guard *)





(** ** The backup step *)


Ltac paths binary :=
  pose proof (backup_path_neq binary);
  pose proof (temp_path_neq binary);
  pose proof (temp_path_neq_backup binary);
  pose proof (not_eq_sym (backup_path_neq binary));
  pose proof (not_eq_sym (temp_path_neq binary));
  pose proof (not_eq_sym (temp_path_neq_backup binary)).








(** ** Exit status and diagnostics *)











(** ** Idempotence *)

(** C2 fails on the code. A first run patches [one_unit_image]; the
    patched unit carries the fingerprint, but no longer the [clawd_body]
    marker the classifier requires near an anchor, so on the patched image
    [find_mascot_blocks] finds nothing and the second run stops with
    the no-blocks error instead of reporting the block as already patched.
    The second run changes no file. *)
Theorem second_run_misses_patched_block :
  let first := run (main env_ok (apply_args "claude")) world0 in
  let second := run (main env_ok (apply_args "claude")) (State (fs first.2) []) in
  first.1 = 0%Z
  /\ (exists patched, fs first.2 !! "claude" = Some patched
        /\ is_already_patched patched = true
        /\ find_mascot_blocks patched = [])
  /\ second.1 = 0%Z
  /\ Diag Error "No mascot blocks detected in the binary." ∈ out second.2
  /\ fs second.2 = fs first.2.
Proof.
  cbv zeta. split; [by vm_compute|]. split.
  - destruct (fs (run (main env_ok (apply_args "claude")) world0).2 !! "claude")
      as [patched|] eqn:E; [|by vm_compute in E].
    exists patched. split; [done|]. vm_compute in E. injection E as <-.
    split; by vm_compute.
  - split; [by vm_compute|]. split.
    + apply (bool_decide_unpack _). by vm_compute.
    + apply (bool_decide_unpack _). by vm_compute.
Qed.

(** With the marker still within the context window after the patched
    unit, the second run does report the block as already patched. *)
Example second_run_with_marker_nearby :
  let image := stock_unit 466 ++ B ";var k=" ++ qt (B "clawd_body") in
  let first := run (main env_ok (apply_args "claude"))
                   (State {[ "claude" := image ]} []) in
  let second := run (main env_ok (apply_args "claude")) (State (fs first.2) []) in
  Diag Success "All blocks are already patched! Nothing to do." ∈ out second.2
  /\ fs second.2 = fs first.2.
Proof.
  cbv zeta. split; apply (bool_decide_unpack _); by vm_compute.
Qed.


(** * Further properties of the code *)

(** ** Substring tests *)

(** [starts_with] is the prefix test. *)
Lemma starts_with_prefix (needle hay : bytes) :
  starts_with needle hay = true <-> exists post, hay = needle ++ post.
Proof.
  revert hay. induction needle as [|x needle IH]; intros hay; simpl.
  - split; [intros _; by exists hay|done].
  - destruct hay as [|y hay]; [split; [done|by intros [? ?]]|].
    rewrite andb_true_iff, byte_eqb_true, IH. split.
    + intros [-> [post ->]]. by exists post.
    + intros [post [= -> ->]]. split; [done|by exists post].
Qed.

(** [bytes_in] is the substring test of [needle in hay]. *)
Lemma bytes_in_spec (needle hay : bytes) :
  bytes_in needle hay = true <-> exists pre post, hay = pre ++ needle ++ post.
Proof.
  induction hay as [|y hay IH].
  - simpl. rewrite orb_false_r, starts_with_prefix. split.
    + intros [post ->]. by exists [], post.
    + intros (pre & post & H). symmetry in H.
      apply app_eq_nil in H as [-> H]. apply app_eq_nil in H as [-> ->]. by exists [].
  - simpl bytes_in. rewrite orb_true_iff, starts_with_prefix, IH. split.
    + intros [[post ->]|(pre & post & ->)]; [by exists [], post|by exists (y :: pre), post].
    + intros ([|z pre] & post & H).
      * left. by exists post.
      * right. injection H as -> ->. by exists pre, post.
Qed.

(** X1. is_already_patched holds of a block exactly when the block's bytes
    contain the fingerprint byte string as a contiguous run: some bytes, the
    fingerprint, some bytes. *)
Theorem is_already_patched_iff (block_bytes : bytes) :
  is_already_patched block_bytes = true
  <-> exists pre post, block_bytes = pre ++ PATCHED_FINGERPRINT ++ post.
Proof. apply bytes_in_spec. Qed.

(** ** The extractor on any input *)

Section Shortest.
Variables o c : byte.
Hypothesis o_neq_c : o <> c.

(** Stopping after the head byte shifts the test to the tail, with the depth
    and the flag the loop carries there. *)
Lemma stops_at_cons d started b rest n :
  stops_at o c d started (b :: rest) (S (S n))
  <-> stops_at o c (d + delta o c b) (started || Byte.eqb b o) rest (S n).
Proof.
  unfold stops_at. simpl take. rewrite !depth_cons. simpl lookup.
  rewrite Nat.sub_0_r.
  replace (rest !! (S n - 1)) with (rest !! n) by (f_equal; lia).
  rewrite orb_true_iff, byte_eqb_true, elem_of_cons.
  split; intros (H1 & H2 & H3 & H4); (split; [lia|]); (split; [done|]);
    (split; [|lia]).
  - destruct H3 as [->|[->|?]]; [left; by left|left; by right|by right].
  - destruct H3 as [[->| ->]|?]; [by left|right; by left|right; by right].
Qed.

(** The loop of [_extract_block], from any depth and flag: it runs off the
    window when the window has no stopping point, and otherwise returns the
    first one. *)
Lemma scan_block_least chunk : forall i d started,
  (scan_block o c chunk i d started = 0 /\ forall n, ~ stops_at o c d started chunk n)
  \/ (exists n, scan_block o c chunk i d started = i + n
        /\ stops_at o c d started chunk n
        /\ forall k, k < n -> ~ stops_at o c d started chunk k).
Proof.
  induction chunk as [|b rest IH]; intros i d started.
  { left. split; [done|]. intros n (H1 & H2 & _). apply lookup_lt_Some in H2. simpl in H2. lia. }
  assert (forall d' started',
    d' = (d + delta o c b)%Z -> started' = started || Byte.eqb b o ->
    ~ stops_at o c d started (b :: rest) 1 ->
    (scan_block o c rest (S i) d' started' = 0
       /\ forall n, ~ stops_at o c d started (b :: rest) n)
    \/ (exists n, scan_block o c rest (S i) d' started' = i + n
          /\ stops_at o c d started (b :: rest) n
          /\ forall k, k < n -> ~ stops_at o c d started (b :: rest) k)) as Hrec.
  { intros d' started' -> -> Hn1.
    destruct (IH (S i) (d + delta o c b)%Z (started || Byte.eqb b o))
      as [[Hz Hno]|(n & Hs & Hst & Hmin)].
    - left. split; [done|]. intros [|[|n]]; [intros [? _]; lia|done|].
      rewrite stops_at_cons. apply Hno.
    - right. destruct n as [|n]; [destruct Hst as [? _]; lia|].
      exists (S (S n)). split; [rewrite Hs; lia|]. split; [by apply stops_at_cons|].
      intros [|[|k]] Hk; [intros [? _]; lia|done|].
      rewrite stops_at_cons. apply Hmin. lia. }
  simpl scan_block. destruct (Byte.eqb b o) eqn:Ebo.
  - apply byte_eqb_true in Ebo as ->.
    apply Hrec; [by rewrite delta_open|by rewrite orb_true_r|].
    intros (_ & H2 & _). simpl in H2. congruence.
  - apply byte_eqb_neq in Ebo. destruct (Byte.eqb b c) eqn:Ebc.
    + apply byte_eqb_true in Ebc as ->.
      assert (stops_at o c d started (c :: rest) 1
              <-> started && (d - 1 =? 0)%Z = true) as H1.
      { unfold stops_at. simpl take. rewrite take_0, depth_cons, delta_close by done.
        simpl. rewrite andb_true_iff, Z.eqb_eq, elem_of_cons.
        split.
        - intros (_ & _ & [?|[?|?]] & ?); [split; [done|lia]|congruence|set_solver].
        - intros [? ?]. split; [lia|]. split; [done|]. split; [by left|lia]. }
      destruct (started && (d - 1 =? 0)%Z) eqn:Efound.
      * right. exists 1. split; [lia|]. split; [by apply H1|].
        intros k Hk. replace k with 0 by lia. intros [? _]. lia.
      * apply Hrec; [rewrite delta_close by done; lia|by rewrite orb_false_r|].
        rewrite H1. done.
    + apply byte_eqb_neq in Ebc.
      apply Hrec; [rewrite delta_other by done; lia|by rewrite orb_false_r|].
      intros (_ & H2 & _). simpl in H2. congruence.
Qed.
End Shortest.

(** What [_extract_block] returns, by case; the classifier's proofs use it
    too. *)
Lemma extract_block_cases (data : bytes) (start_offset : nat) (kind : string) :
  let o := (delimiters kind).1 in
  let c := (delimiters kind).2 in
  let chunk := slice data start_offset chunk_size in
  match _extract_block data start_offset kind with
  | (Some span, n) =>
      span = slice data start_offset n /\ length span = n
      /\ n <= chunk_size /\ start_offset + n <= length data
      /\ closes_at o c chunk n
      /\ forall k, k < n -> ~ closes_at o c chunk k
  | (None, n) => n = 0 /\ forall k, ~ closes_at o c chunk k
  end.
Proof.
  intros o c chunk. pose proof (delimiters_distinct kind) as Hoc. fold o c in Hoc.
  assert (forall n, stops_at o c 0 false chunk n <-> closes_at o c chunk n) as Heq.
  { intros n. unfold stops_at, closes_at. rewrite Z.add_0_l.
    split; intros (? & ? & H & ?); repeat split; try done; [by destruct H|by right]. }
  rewrite extract_block_unfold. cbv zeta. fold o c chunk.
  destruct (scan_block_least o c Hoc chunk 0 0%Z false)
    as [[-> Hno]|(n & -> & Hst & Hmin)]; simpl.
  - split; [done|]. intros k. rewrite <- Heq. apply Hno.
  - assert (1 <= n) as Hn by (by destruct Hst).
    destruct (n =? 0) eqn:E; [apply Nat.eqb_eq in E; lia|].
    destruct Hst as (_ & Hlast & Hrest).
    assert (n - 1 < length chunk) as Hlt by (by apply lookup_lt_Some in Hlast).
    assert (length chunk <= chunk_size) as Hc by apply slice_length.
    assert (length chunk <= length data - start_offset) as Hd.
    { unfold chunk, slice. rewrite length_take, length_drop. lia. }
    split.
    { unfold chunk, slice. rewrite take_take. f_equal. lia. }
    split; [rewrite length_take; lia|]. split; [lia|]. split; [lia|].
    split; [apply Heq; split; [lia|]; split; [done|]; exact Hrest|].
    intros k Hk. rewrite <- Heq. by apply Hmin.
Qed.

(** X2. _extract_block on any input: it returns the shortest prefix of the
    2000-byte window at the offset that ends with a closing delimiter, holds
    an opening delimiter and has as many openers as closers, with its length
    (at least 1, at most 2000, within the data); it returns (None, 0) when
    the window has no such prefix. Nothing is assumed about nesting. *)
Theorem extract_block_shortest (data : bytes) (start_offset : nat) (kind : string) :
  let o := (delimiters kind).1 in
  let c := (delimiters kind).2 in
  let chunk := slice data start_offset chunk_size in
  match _extract_block data start_offset kind with
  | (Some span, n) =>
      span = slice data start_offset n /\ length span = n
      /\ n <= chunk_size /\ start_offset + n <= length data
      /\ closes_at o c chunk n
      /\ forall k, k < n -> ~ closes_at o c chunk k
  | (None, n) => n = 0 /\ forall k, ~ closes_at o c chunk k
  end.
Proof. apply extract_block_cases. Qed.

(** ** The builder on any block *)

(** X3. The core candidate of build_replacement (the rendering without
    padding) is 403 bytes plus the function name for a full function, 390
    bytes for a return block, plus 7 times the React identifier, 6 times the
    text-component identifier and once the flex-component identifier. *)
Theorem core_candidate_length_formula (b : block_info) :
  length (core_candidate b)
  = match b_kind b with
    | full_function => 403 + length (fmt_opt (b_func_name b))
    | return_block => 390
    end
    + 7 * length (b_react_var b) + 6 * length (b_text_var b) + length (b_flex_var b).
Proof.
  unfold core_candidate, assemble, wrap_core, inner_element, row2_element. cbv zeta.
  destruct (b_kind b); rewrite ?length_app, ?length_text_element; simpl; lia.
Qed.

(** X4. build_replacement succeeds exactly when the block is at least as
    long as the core candidate; it then returns bytes of the block's length,
    with the exact-fit message exactly when the two lengths are equal. Its
    only failure is the too-long message, carrying the excess, the core
    length and the target length: the cannot-pad, too-long-after-adjustments
    and final-size-mismatch failures are never returned. *)
Theorem build_replacement_total (b : block_info) :
  let core_len := length (core_candidate b) in
  match build_replacement b with
  | BuildOk r msg =>
      core_len <= b_length b /\ length r = b_length b
      /\ (msg = ExactFit <-> b_length b = core_len)
  | BuildFail msg =>
      b_length b < core_len
      /\ msg = TooLong (Z.of_nat (core_len - b_length b)) (Z.of_nat core_len)
                       (Z.of_nat (b_length b))
  end.
Proof.
  intros core_len.
  destruct (build_replacement b) as [r msg|msg] eqn:E.
  - pose proof (build_ok_length _ _ _ E) as Hlen.
    pose proof E as E'. apply build_ok_shape in E' as (extra & pc & Hpc & Hr & Hl).
    split; [unfold core_len; lia|]. split; [done|].
    rewrite build_replacement_spec in E. cbv zeta in E. fold core_len in E.
    destruct (_ <? 0)%Z; [done|].
    destruct (_ =? 0)%Z eqn:Ez.
    + apply Z.eqb_eq in Ez. injection E as _ <-. split; [lia|done].
    + apply Z.eqb_neq in Ez. injection E as _ <-. split; [done|lia].
  - rewrite build_replacement_spec in E. cbv zeta in E. fold core_len in E.
    destruct (_ <? 0)%Z eqn:En.
    + apply Z.ltb_lt in En. injection E as <-. split; [lia|]. f_equal. lia.
    + by destruct (_ =? 0)%Z.
Qed.

(** ** Ranges that lie apart *)

Lemma ranges_apart_sym p q : ranges_apart p q -> ranges_apart q p.
Proof. unfold ranges_apart. lia. Qed.

Lemma ranges_apart_not_intersect p q : ranges_apart p q -> ~ ranges_intersect p q.
Proof. unfold ranges_apart. intros H (x & ? & ?). lia. Qed.

(** Lying apart is symmetric, so the order of the list does not matter. *)
Lemma pairwise_apart_perm l l' :
  l ≡ₚ l' -> pairwise_apart l -> pairwise_apart l'.
Proof.
  induction 1 as [|x l l' Hp IH|x y l|l l' l'' _ IH1 _ IH2]; intros H.
  - done.
  - inversion H as [|? ? Hx Hl]; subst. constructor; [by rewrite <- Hp|auto].
  - inversion H as [|? ? Hy Hl]; subst. inversion Hl as [|? ? Hx Hl']; subst.
    inversion Hy as [|? ? Hyx Hyl]; subst.
    constructor; [constructor; [by apply ranges_apart_sym|done]|].
    by constructor.
  - auto.
Qed.

(** Two patches at different positions lie apart. *)
Lemma pairwise_apart_lookup l : forall i j p q,
  pairwise_apart l -> i <> j -> l !! i = Some p -> l !! j = Some q ->
  ranges_apart p q.
Proof.
  induction l as [|x l IH]; intros i j p q H Hij Hp Hq; [done|].
  inversion H as [|? ? Hx Hl]; subst. rewrite Forall_forall in Hx.
  destruct i as [|i], j as [|j]; simpl in *; simplify_eq.
  - apply Hx. by eapply list_elem_of_lookup_2.
  - apply ranges_apart_sym, Hx. by eapply list_elem_of_lookup_2.
  - apply (IH i j); auto.
Qed.

(** [sorted] keeps the patches: it only reorders them. *)
Lemma insert_by_offset_perm p l : insert_by_offset p l ≡ₚ p :: l.
Proof.
  induction l as [|q l IH]; simpl; [done|].
  destruct (p_offset p <=? p_offset q); [done|].
  rewrite IH. apply Permutation_swap.
Qed.

Lemma sort_by_offset_perm patches : sort_by_offset patches ≡ₚ patches.
Proof.
  induction patches as [|p l IH]; simpl; [done|].
  by rewrite insert_by_offset_perm, IH.
Qed.

Lemma offsets_sorted_tail p l : offsets_sorted (p :: l) -> offsets_sorted l.
Proof. intros H i x y Hx Hy. by apply (H (S i)). Qed.

Lemma overlap_free_tail p l : overlap_free (p :: l) -> overlap_free l.
Proof. intros H i x y Hx Hy. by apply (H (S i)). Qed.

Lemma offsets_sorted_head p l :
  offsets_sorted (p :: l) -> Forall (fun q => p_offset p <= p_offset q) l.
Proof.
  revert p. induction l as [|q l IH]; intros p H; [done|].
  pose proof (H 0 p q eq_refl eq_refl) as Hpq.
  constructor; [done|].
  eapply Forall_impl; [apply IH; by eapply offsets_sorted_tail|].
  simpl. intros. lia.
Qed.

(** In an offset-sorted list, adjacent patches that do not overlap keep
    every pair apart. *)
Lemma sorted_overlap_free_apart l :
  offsets_sorted l -> overlap_free l -> pairwise_apart l.
Proof.
  induction l as [|p l IH]; intros Hs Hf; constructor.
  - destruct l as [|q l]; [done|].
    pose proof (Hf 0 p q eq_refl eq_refl) as Hpq.
    pose proof (offsets_sorted_head q l (offsets_sorted_tail _ _ Hs)) as Hq.
    constructor; [by left|].
    eapply Forall_impl; [exact Hq|]. intros r Hr. left. simpl in *. lia.
  - apply IH; [by eapply offsets_sorted_tail|by eapply overlap_free_tail].
Qed.

(** X5. When Gate 6 passes (its check of adjacent pairs of the offset-sorted
    patches finds no overlap), any two patches of the set, adjacent or not
    and in whatever order they were planned, have ranges that lie apart: no
    byte belongs to two patches. *)
Theorem gate6_pairwise_disjoint (patches : list patch) (st st' : state) :
  check_overlaps (sort_by_offset patches) st = (Next tt, st') ->
  forall i j p q, i <> j -> patches !! i = Some p -> patches !! j = Some q ->
    ranges_apart p q /\ ~ ranges_intersect p q.
Proof.
  intros Hrun i j p q Hij Hp Hq.
  destruct (logging_next _ _ _ _ _ _ (check_overlaps_logging _) Hrun) as [Hfree _].
  assert (pairwise_apart patches) as Hall.
  { eapply pairwise_apart_perm; [apply sort_by_offset_perm|].
    apply sorted_overlap_free_apart; [apply sort_by_offset_sorted|done]. }
  pose proof (pairwise_apart_lookup _ _ _ _ _ Hall Hij Hp Hq) as H.
  split; [done|by apply ranges_apart_not_intersect].
Qed.

Lemma gate6_pairwise_disjoint_witness :
  exists p q st',
    plan (find_mascot_blocks two_block_image) = Some [p; q]
    /\ check_overlaps (sort_by_offset [p; q]) world0 = (Next tt, st')
    /\ ranges_apart p q /\ ~ ranges_intersect p q.
Proof.
  destruct (plan (find_mascot_blocks two_block_image)) as [[|p [|q [|]]]|] eqn:Hplan;
    try (by vm_compute in Hplan).
  destruct (check_overlaps (sort_by_offset [p; q]) world0) as [[[]|code] st'] eqn:Hrun.
  - exists p, q, st'. split; [reflexivity|]. split; [exact Hrun|].
    exact (gate6_pairwise_disjoint [p; q] world0 st' Hrun 0 1 p q
             (Nat.neq_0_succ 0) eq_refl eq_refl).
  - vm_compute in Hplan. injection Hplan as <- <-. vm_compute in Hrun. discriminate Hrun.
Defined.

(** ** Slices and splices *)

(** Byte [i] of [data[a : a + n]]. *)
Lemma lookup_slice (m : bytes) a n i :
  slice m a n !! i = if decide (i < n) then m !! (a + i) else None.
Proof.
  unfold slice, bytes in *. destruct (decide (i < n)).
  - rewrite lookup_take_lt by done. by rewrite lookup_drop.
  - apply lookup_take_ge. lia.
Qed.

(** A slice depends on the bytes of its range only. *)
Lemma slice_ext (m m' : bytes) a n :
  (forall i, a <= i < a + n -> m !! i = m' !! i) -> slice m a n = slice m' a n.
Proof.
  intros H. apply list_eq. intros i. rewrite !lookup_slice.
  destruct (decide (i < n)); [|done]. apply H. lia.
Qed.

(** Assigning as many bytes as a slice holds leaves the bytes outside it
    alone. *)
Lemma lookup_splice_outside (m : bytes) o l new i :
  length new = length (slice m o l) -> i < o \/ o + l <= i ->
  splice m o l new !! i = m !! i.
Proof.
  intros Hnew Hi.
  assert (length (splice m o l new) = length m) as Hlen.
  { by apply (length_splice_same _ _ _ (slice m o l)). }
  destruct (decide (i < length m)) as [Hlt|Hge].
  2:{ rewrite (lookup_ge_None_2 m) by lia. apply lookup_ge_None_2. lia. }
  unfold splice. unfold slice in Hnew. rewrite length_take, length_drop in Hnew.
  unfold bytes in *.
  destruct Hi as [Hi|Hi].
  - rewrite lookup_app_l by (rewrite length_take; lia). by rewrite lookup_take_lt by lia.
  - rewrite lookup_app_r by (rewrite length_take; lia).
    rewrite lookup_app_r by (rewrite length_take; lia).
    rewrite lookup_drop, length_take. f_equal. lia.
Qed.

(** After [modified[o : o + l] = new], the slice holds [new]. *)
Lemma slice_splice_same (m : bytes) o l new :
  length new = length (slice m o l) -> length new = l ->
  slice (splice m o l new) o l = new.
Proof.
  intros Hnew Hl. unfold slice in Hnew. rewrite length_take, length_drop in Hnew.
  destruct (decide (l = 0)) as [->|Hne].
  { destruct new; [|done]. by unfold slice. }
  unfold slice, splice.
  rewrite drop_app_length' by (rewrite length_take; lia).
  rewrite take_app_length' by lia. done.
Qed.

(** ** The apply loop on ranges that lie apart *)

(** The apply loop over patches that lie apart, each replacing as many bytes
    as it writes: the result has the length of the input, holds every
    patch's new bytes at its range, and equals the input elsewhere. *)
Lemma apply_pure_apart patches : forall m m',
  pairwise_apart patches ->
  Forall (fun p => length (p_new p) = p_length p
                   /\ length (p_old p) = p_length p) patches ->
  apply_pure patches m = Some m' ->
  length m' = length m
  /\ (forall p, p ∈ patches -> slice m' (p_offset p) (p_length p) = p_new p)
  /\ (forall i, (forall p, p ∈ patches ->
                   ~ (p_offset p <= i < p_offset p + p_length p)) ->
        m' !! i = m !! i).
Proof.
  induction patches as [|p rest IH]; intros m m' Hap Hlen; simpl apply_pure.
  { intros [= <-]. split; [done|]. split; [|done]. intros p Hp. by apply elem_of_nil in Hp. }
  inversion Hap as [|? ? Hp Hrest]; subst.
  inversion Hlen as [|? ? [Hnew Hold] Hlen']; subst.
  destruct (bool_decide _) eqn:E; [|done]. apply bool_decide_eq_true in E.
  assert (length (p_new p) = length (slice m (p_offset p) (p_length p))) as Hsame.
  { rewrite E. lia. }
  intros Hrun. destruct (IH _ _ Hrest Hlen' Hrun) as (Hl & Hin & Hout).
  rewrite Forall_forall in Hp.
  split; [|split].
  - rewrite Hl. by apply (length_splice_same _ _ _ (p_old p)); [|lia].
  - intros q Hq. apply elem_of_cons in Hq as [->|Hq]; [|by apply Hin].
    rewrite <- (slice_splice_same m (p_offset p) (p_length p) (p_new p)) by done.
    set (m1 := splice m (p_offset p) (p_length p) (p_new p)) in *.
    apply slice_ext. intros i Hi. apply Hout. intros q Hq.
    specialize (Hp q Hq). unfold ranges_apart in Hp. lia.
  - intros i Hi. rewrite Hout.
    + apply lookup_splice_outside; [done|].
      specialize (Hi p ltac:(apply list_elem_of_here)). lia.
    + intros q Hq. apply Hi. by apply list_elem_of_further.
Qed.

(** The race guard cannot fire for patches that lie apart and were recorded
    from the image the working copy started as. *)
Lemma apply_pure_succeeds patches : forall (data m : bytes),
  pairwise_apart patches ->
  Forall (fun p => length (p_new p) = length (p_old p)
                   /\ length (p_old p) = p_length p
                   /\ p_old p = slice data (p_offset p) (p_length p)) patches ->
  (forall p, p ∈ patches ->
     slice m (p_offset p) (p_length p) = slice data (p_offset p) (p_length p)) ->
  is_Some (apply_pure patches m).
Proof.
  induction patches as [|p rest IH]; intros data m Hap Hf Hm; simpl apply_pure.
  { by eexists. }
  inversion Hap as [|? ? Hp Hrest]; subst.
  inversion Hf as [|? ? (Hnew & Hlen & Hold) Hf']; subst.
  rewrite Forall_forall in Hp.
  pose proof (Hm p ltac:(apply list_elem_of_here)) as Hmp.
  rewrite bool_decide_eq_true_2 by congruence.
  apply (IH data); [done|done|].
  intros q Hq. rewrite <- (Hm q) by (by apply list_elem_of_further).
  apply slice_ext. intros i Hi. apply lookup_splice_outside.
  - by rewrite Hmp, <- Hold.
  - specialize (Hp q Hq). unfold ranges_apart in Hp. lia.
Qed.

(** ** What Gate 4 plans *)

(** The plan follows the blocks that do not carry the fingerprint. *)
Lemma plan_filter blocks patches :
  plan blocks = Some patches ->
  map p_offset patches
  = map b_offset (filter (fun b => is_already_patched (b_block b) = false) blocks)
  /\ Forall (fun p => is_already_patched (p_old p) = false
                      /\ is_already_patched (p_new p) = true) patches.
Proof.
  revert patches. induction blocks as [|b rest IH]; intros patches; simpl plan.
  - by intros [= <-].
  - rewrite filter_cons. destruct (is_already_patched (b_block b)) eqn:Ep.
    + rewrite decide_False by done. apply IH.
    + rewrite decide_True by done.
      destruct (build_replacement b) as [r msg|msg] eqn:E; [|done].
      destruct (plan rest) as [l|]; [|done]. intros [= <-].
      destruct (IH l eq_refl) as [Hoff Hf]. simpl. split; [by rewrite Hoff|].
      constructor; [|done]. simpl. split; [done|].
      apply build_ok_shape in E as (extra & pc & _ & -> & _).
      apply fingerprint_in_assemble.
Qed.

(** X6. Gate 4 plans one patch for each detected block that does not carry
    the fingerprint, in the blocks' order and at their offsets, and none for
    a block that carries it; every planned patch replaces bytes without the
    fingerprint by bytes with it. *)
Theorem planned_patches_flip_fingerprint (blocks : list block_info)
    (patches : list patch) (st st' : state) :
  build_patches blocks [] st = (Next patches, st') ->
  length patches = needs_patch_count blocks
  /\ map p_offset patches
     = map b_offset (filter (fun b => is_already_patched (b_block b) = false) blocks)
  /\ Forall (fun p => is_already_patched (p_old p) = false
                      /\ is_already_patched (p_new p) = true) patches.
Proof.
  intros Hrun.
  destruct (logging_next _ _ _ _ _ _ (build_patches_logging _ []) Hrun)
    as ((built & Hplan & ->) & _). simpl app.
  destruct (plan_filter _ _ Hplan) as [Hoff Hf].
  split; [|done]. unfold needs_patch_count.
  by rewrite <- (length_map p_offset), Hoff, length_map.
Qed.

Lemma planned_patches_flip_fingerprint_witness :
  exists patches st',
    build_patches (find_mascot_blocks one_unit_image) [] world0 = (Next patches, st')
    /\ length patches = needs_patch_count (find_mascot_blocks one_unit_image)
    /\ map p_offset patches
       = map b_offset (filter (fun b => is_already_patched (b_block b) = false)
                              (find_mascot_blocks one_unit_image))
    /\ Forall (fun p => is_already_patched (p_old p) = false
                        /\ is_already_patched (p_new p) = true) patches.
Proof.
  destruct (build_patches (find_mascot_blocks one_unit_image) [] world0)
    as [[patches|code] st'] eqn:Hb; [|by vm_compute in Hb].
  exists patches, st'. split; [reflexivity|].
  exact (planned_patches_flip_fingerprint _ _ _ _ Hb).
Defined.

(** ** The apply stage after Gate 6 *)

(** A patch set that passed Gate 6 lies pairwise apart. *)
Lemma planned_patches_apart patches st st' :
  check_overlaps (sort_by_offset patches) st = (Next tt, st') ->
  pairwise_apart patches.
Proof.
  intros Hrun.
  destruct (logging_next _ _ _ _ _ _ (check_overlaps_logging _) Hrun) as [Hfree _].
  eapply pairwise_apart_perm; [apply sort_by_offset_perm|].
  apply sorted_overlap_free_apart; [apply sort_by_offset_sorted|done].
Qed.

(** What Gate 4 records for the detected blocks of an image. *)
Lemma planned_patches_spec data patches st st' :
  build_patches (find_mascot_blocks data) [] st = (Next patches, st') ->
  Forall (fun p => length (p_new p) = length (p_old p)
                   /\ length (p_old p) = p_length p
                   /\ p_old p = slice data (p_offset p) (p_length p)) patches.
Proof.
  intros Hrun.
  destruct (logging_next _ _ _ _ _ _ (build_patches_logging _ []) Hrun)
    as ((built & Hplan & ->) & _). simpl app.
  destruct (find_mascot_blocks_spec data) as (Hwf & _).
  by apply (plan_spec data _ _ Hwf).
Qed.

(** The apply loop, when the guard never fires, ends with the patched copy
    and prints no warning and no error. *)
Lemma apply_patches_run patches : forall m m' st,
  apply_pure patches m = Some m' ->
  exists log, apply_patches patches m st = (Next m', State (fs st) (out st ++ log))
    /\ has_diagnostic log = false.
Proof.
  induction patches as [|p rest IH]; intros m m' st; simpl apply_pure;
    simpl apply_patches.
  - intros [= <-]. exists []. rewrite app_nil_r. by destruct st.
  - destruct (bool_decide _); [|done]. cbn [negb]. intros Hrun.
    unfold bind at 1, info, say. cbn [fs out].
    destruct (IH _ _ (State (fs st) (out st ++ [Diag Info
       ("  Patched offset " +:+ pretty (p_offset p) +:+ " ("
        +:+ pretty (p_length p) +:+ " bytes)")])) Hrun) as (log & -> & Hd).
    cbn [fs out]. rewrite <- app_assoc. eexists. split; [done|].
    simpl app. by rewrite has_diagnostic_cons, Hd.
Qed.

(** X7. For the patches Gate 4 built from the blocks detected in the image,
    once Gate 6 has passed, the apply loop over that image cannot stop
    early: the race guard never fires, the loop prints no error or warning
    and leaves the files alone, and the working copy it yields is as long as
    the image, so the size check after it passes too. *)
Theorem apply_stage_cannot_abort (data : bytes) (patches : list patch)
    (st st1 st2 st3 st4 : state) :
  build_patches (find_mascot_blocks data) [] st = (Next patches, st1) ->
  check_overlaps (sort_by_offset patches) st2 = (Next tt, st3) ->
  exists modified log,
    apply_patches patches data st4
    = (Next modified, State (fs st4) (out st4 ++ log))
    /\ has_diagnostic log = false
    /\ length modified = length data.
Proof.
  intros Hbuild Hgate.
  pose proof (planned_patches_spec _ _ _ _ Hbuild) as Hspec.
  pose proof (planned_patches_apart _ _ _ Hgate) as Hapart.
  destruct (apply_pure_succeeds patches data data Hapart Hspec) as [m Hm]; [done|].
  destruct (apply_patches_run _ _ _ st4 Hm) as (log & Hrun & Hd).
  exists m, log. split; [done|]. split; [done|].
  eapply apply_pure_length; [|exact Hm].
  eapply Forall_impl; [exact Hspec|]. by intros p (? & _).
Qed.

Lemma apply_stage_cannot_abort_witness :
  exists patches st1 st3 modified log,
    build_patches (find_mascot_blocks one_unit_image) [] world0 = (Next patches, st1)
    /\ check_overlaps (sort_by_offset patches) st1 = (Next tt, st3)
    /\ apply_patches patches one_unit_image st3
       = (Next modified, State (fs st3) (out st3 ++ log))
    /\ has_diagnostic log = false
    /\ length modified = length one_unit_image.
Proof.
  destruct (build_patches (find_mascot_blocks one_unit_image) [] world0)
    as [[patches|code] st1] eqn:Hb; [|by vm_compute in Hb].
  destruct (check_overlaps (sort_by_offset patches) st1) as [[[]|code] st3] eqn:Hc.
  - destruct (apply_stage_cannot_abort one_unit_image patches world0 st1 st1 st3 st3
                Hb Hc) as (modified & log & H).
    exists patches, st1, st3, modified, log.
    split; [reflexivity|]. split; [exact Hc|]. exact H.
  - vm_compute in Hb. injection Hb as <- <-. vm_compute in Hc. discriminate Hc.
Defined.

(** X8. After the apply loop over the patches built from the image and
    passed by Gate 6, the working copy holds each patch's new bytes at the
    patch's range, and every byte outside all patch ranges is the image's
    byte. *)
Theorem applied_image_exact (data : bytes) (patches : list patch)
    (st st1 st2 st3 st4 st5 : state) (modified : bytes) :
  build_patches (find_mascot_blocks data) [] st = (Next patches, st1) ->
  check_overlaps (sort_by_offset patches) st2 = (Next tt, st3) ->
  apply_patches patches data st4 = (Next modified, st5) ->
  (forall p, p ∈ patches ->
     slice modified (p_offset p) (p_length p) = p_new p)
  /\ (forall i, (forall p, p ∈ patches ->
                   ~ (p_offset p <= i < p_offset p + p_length p)) ->
        modified !! i = data !! i).
Proof.
  intros Hbuild Hgate Hrun.
  pose proof (planned_patches_spec _ _ _ _ Hbuild) as Hspec.
  pose proof (planned_patches_apart _ _ _ Hgate) as Hapart.
  destruct (logging_next _ _ _ _ _ _ (apply_patches_logging _ _) Hrun) as [Hpure _].
  destruct (apply_pure_apart patches data modified Hapart) as (_ & Hin & Hout);
    [|done|done].
  eapply Forall_impl; [exact Hspec|]. intros p (? & ? & _). split; lia.
Qed.

Lemma applied_image_exact_witness :
  exists patches st1 st3 modified st5,
    build_patches (find_mascot_blocks one_unit_image) [] world0 = (Next patches, st1)
    /\ check_overlaps (sort_by_offset patches) st1 = (Next tt, st3)
    /\ apply_patches patches one_unit_image st3 = (Next modified, st5)
    /\ (forall p, p ∈ patches ->
          slice modified (p_offset p) (p_length p) = p_new p)
    /\ (forall i, (forall p, p ∈ patches ->
                     ~ (p_offset p <= i < p_offset p + p_length p)) ->
          modified !! i = one_unit_image !! i).
Proof.
  destruct (build_patches (find_mascot_blocks one_unit_image) [] world0)
    as [[patches|code] st1] eqn:Hb; [|by vm_compute in Hb].
  destruct (check_overlaps (sort_by_offset patches) st1) as [[[]|code] st3] eqn:Hc.
  - destruct (apply_patches patches one_unit_image st3) as [[modified|code] st5] eqn:Ha.
    + exists patches, st1, st3, modified, st5.
      split; [reflexivity|]. split; [exact Hc|]. split; [exact Ha|].
      exact (applied_image_exact one_unit_image patches world0 st1 st1 st3 st3 st5
               modified Hb Hc Ha).
    + vm_compute in Hb. injection Hb as <- <-. vm_compute in Ha. discriminate Ha.
  - vm_compute in Hb. injection Hb as <- <-. vm_compute in Hc. discriminate Hc.
Defined.

(** ** Matches of [finditer] *)

Lemma match_star_result {R} cls s (k : bytes -> option R) x :
  match_star cls s k = Some x -> exists t, k t = Some x.
Proof.
  induction s as [|b s IH]; simpl; [by exists []|].
  destruct (cls b); [|by exists (b :: s)].
  destruct (match_star cls s k) eqn:E; [|by exists (b :: s)].
  intros [= ->]. by apply IH.
Qed.

(** A match is a result of the continuation. *)
Lemma rmatch_result {R} r : forall s caps (k : bytes -> list bytes -> option R) x,
  rmatch r s caps k = Some x -> exists t caps', k t caps' = Some x.
Proof.
  induction r as [l|cls|cls|r IH|r1 IH1 r2 IH2|r IH]; intros s caps k x; simpl.
  - destruct (starts_with l s); [|done]. by eexists _, _.
  - destruct s as [|b s]; [done|]. destruct (cls b); [|done].
    intros H. apply match_star_result in H as [t H]. by exists t, caps.
  - intros H. apply match_star_result in H as [t H]. by exists t, caps.
  - destruct (rmatch r s caps k) eqn:E.
    + intros [= ->]. by apply IH in E.
    + by eexists _, _.
  - intros H. apply IH1 in H as (t & caps' & H). by apply IH2 in H.
  - intros H. apply IH in H as (t & caps' & H). by eexists _, _.
Qed.

(** A match at [pos] starts at [pos] and ends within the subject. *)
Lemma match_here_start r s pos m :
  match_here r s pos = Some m ->
  m_start m = pos /\ pos <= m_end m <= pos + length s.
Proof.
  unfold match_here. intros H. apply rmatch_result in H as (t & caps & [= <-]).
  simpl. lia.
Qed.

(** A pattern that starts with a literal matches only where the literal
    stands. *)
Lemma match_here_keyword l r s pos m :
  match_here (Lit l · r) s pos = Some m -> exists post, s = l ++ post.
Proof.
  unfold match_here. simpl. destruct (starts_with l s) eqn:E; [|done].
  intros _. by apply starts_with_prefix.
Qed.

Lemma increasing_cons {A} (f : A -> nat) x l :
  (forall y, y ∈ l -> f x < f y) -> increasing f l -> increasing f (x :: l).
Proof.
  intros Hx Hl [|i] [|j] a b Hij Ha Hb; simpl in *; try lia.
  - simplify_eq. apply Hx. by eapply list_elem_of_lookup_2.
  - apply (Hl i j); [lia|done|done].
Qed.

Lemma increasing_snoc {A} (f : A -> nat) l x :
  increasing f l -> (forall y, y ∈ l -> f y < f x) -> increasing f (l ++ [x]).
Proof.
  intros Hl Hx i j a b Hij Ha Hb.
  apply lookup_snoc_Some in Ha as [[Hi Ha]|[-> <-]];
    apply lookup_snoc_Some in Hb as [[Hj Hb]|[-> <-]]; try lia.
  - by apply (Hl i j).
  - apply Hx. by eapply list_elem_of_lookup_2.
Qed.

Lemma increasing_before {A} (f : A -> nat) pre x post y :
  increasing f (pre ++ x :: post) -> y ∈ pre -> f y < f x.
Proof.
  intros H Hy. apply list_elem_of_lookup in Hy as [i Hi].
  apply (H i (length pre)).
  - by apply lookup_lt_Some in Hi.
  - by apply lookup_app_l_Some.
  - by rewrite list_lookup_middle.
Qed.

Lemma increasing_NoDup {A} (f : A -> nat) l : increasing f l -> NoDup (map f l).
Proof.
  intros H. apply NoDup_alt. intros i j x Hi Hj.
  apply list_lookup_fmap_Some in Hi as (a & -> & Ha).
  apply list_lookup_fmap_Some in Hj as (b & Hab & Hb).
  destruct (Nat.lt_trichotomy i j) as [Hlt|[->|Hlt]]; [|done|].
  - pose proof (H i j a b Hlt Ha Hb). lia.
  - pose proof (H j i b a Hlt Hb Ha). lia.
Qed.

(** Every match [finditer] yields is a match of the pattern at its start
    offset, and the start offsets grow strictly. *)
Lemma finditer_from_spec r s : forall pos skip,
  Forall (fun m => exists k, m_start m = pos + k /\ skip <= k < length s
            /\ match_here r (drop k s) (pos + k) = Some m)
         (finditer_from r s pos skip)
  /\ increasing m_start (finditer_from r s pos skip).
Proof.
  induction s as [|b s IH]; intros pos skip; simpl finditer_from.
  { split; [done|]. by intros i j x y _ Hx. }
  assert (forall skip',
    Forall (fun m => exists k, m_start m = pos + k /\ skip' + 1 <= k < length (b :: s)
              /\ match_here r (drop k (b :: s)) (pos + k) = Some m)
           (finditer_from r s (S pos) skip')) as Htail.
  { intros skip'. destruct (IH (S pos) skip') as [Hf _].
    eapply Forall_impl; [exact Hf|]. intros m (k & Hk & Hlt & Hm).
    exists (S k). simpl. split; [lia|]. split; [lia|].
    by replace (pos + S k) with (S pos + k) by lia. }
  destruct skip as [|skip'].
  - destruct (match_here r (b :: s) pos) as [m|] eqn:E.
    + pose proof (match_here_start _ _ _ _ E) as [Hs He]. split.
      * constructor.
        -- exists 0. rewrite Nat.add_0_r. simpl. split; [done|]. split; [lia|done].
        -- eapply Forall_impl; [apply Htail|]. intros m' (k & ? & ? & ?).
           exists k. split; [done|]. split; [lia|done].
      * apply increasing_cons; [|apply IH].
        intros y Hy. pose proof (Htail (m_end m - pos - 1)) as Hf.
        rewrite Forall_forall in Hf. destruct (Hf y Hy) as (k & ? & ? & _). lia.
    + split; [|apply IH].
      eapply Forall_impl; [apply Htail|]. intros m' (k & ? & ? & ?).
      exists k. split; [done|]. split; [lia|done].
  - split; [|apply IH].
    eapply Forall_impl; [apply Htail|]. intros m' (k & ? & ? & ?).
    exists k. split; [done|]. split; [lia|done].
Qed.

Lemma finditer_spec r data :
  Forall (fun m => m_start m < length data
            /\ match_here r (drop (m_start m) data) (m_start m) = Some m)
         (finditer r data)
  /\ increasing m_start (finditer r data).
Proof.
  unfold finditer. destruct (finditer_from_spec r data 0 0) as [Hf Hi].
  split; [|done]. eapply Forall_impl; [exact Hf|].
  intros m (k & Hk & Hlt & Hm). simpl in *. rewrite Hk. split; [lia|done].
Qed.

(** ** What the classifier records *)

(** Induction over a loop that knows the elements it has been through. *)
Lemma fold_left_ind {A C} (f : A -> C -> A) (P : list C -> A -> Prop) (l : list C) a :
  P [] a ->
  (forall pre x post a', l = pre ++ x :: post -> P pre a' -> P (pre ++ [x]) (f a' x)) ->
  P l (fold_left f l a).
Proof.
  induction l as [|x l IH] using rev_ind; intros H0 Hstep; [done|].
  rewrite fold_left_app. simpl. apply (Hstep l x []); [done|].
  apply IH; [done|]. intros pre y post a' -> Hpre.
  apply (Hstep pre y (post ++ [x])); [|done]. by rewrite <- app_assoc.
Qed.

(** A span extracted at an offset where a keyword without opener stands
    starts with the keyword and lies within the data. *)
Lemma extracted_keeps_keyword data off kind kw span n :
  (exists post, drop off data = kw ++ post) ->
  (delimiters kind).1 ∉ kw ->
  _extract_block data off kind = (Some span, n) ->
  starts_with kw span = true /\ off + n <= length data.
Proof.
  intros [post Hpost] Hkw E.
  pose proof (extract_block_cases data off kind) as H. cbv zeta in H.
  rewrite E in H. destruct H as (Hspan & _ & _ & Hle & (_ & _ & Hin & _) & _).
  split; [|done]. unfold slice in *. rewrite take_take, Hpost in Hin.
  rewrite Hspan, Hpost.
  destruct (decide (n <= length kw)) as [Hn|Hn].
  - exfalso. apply Hkw. rewrite take_app_le in Hin by lia.
    apply elem_of_take in Hin as (i & Hi & _). by eapply list_elem_of_lookup_2.
  - replace n with (length kw + (n - length kw)) by lia.
    rewrite take_app_add. apply starts_with_app.
Qed.

(** One turn of the Strategy 1 loop at an anchor match: nothing, or one more
    full function that passed every check. *)
Lemma full_step_recorded data blocks m :
  match_here FULL_FUNC_RE (drop (m_start m) data) (m_start m) = Some m ->
  full_step data blocks m = blocks
  \/ exists b, full_step data blocks m = blocks ++ [b]
       /\ b_kind b = full_function /\ b_offset b = m_start m
       /\ anchored data b /\ validated data b
       /\ starts_with (B (kind_label (b_kind b))) (b_block b) = true
       /\ b_offset b + b_length b <= length data.
Proof.
  intros Hm. unfold full_step.
  destruct (bytes_in (B "clawd_body") _) eqn:Ec; [|by left]. cbn [negb].
  destruct (existsb _ MASCOT_CHARS) eqn:Eg; [|by left]. cbn [negb].
  destruct (_extract_block _ _ _) as [[span|] n] eqn:E; [|by left].
  destruct (find_text_var span) as [text|] eqn:Et; [|by left].
  right. eexists. split; [done|].
  cbn [b_kind b_offset b_length b_block b_func_name b_react_var b_flex_var
       b_text_var kind_label]. split; [done|]. split; [done|].
  split; [unfold anchored; cbn [b_kind b_offset b_func_name b_react_var b_flex_var]; by exists m|].
  split; [unfold validated; cbn [b_kind b_offset b_length b_block b_text_var kind_label]; done|].
  apply (extracted_keeps_keyword data (m_start m) "function" (B "function"));
    [by eapply match_here_keyword| |exact E].
  apply (bool_decide_unpack _). by vm_compute.
Qed.

(** One turn of the Strategy 2 loop at an anchor match: nothing, or one more
    return block that starts outside every block recorded so far and passed
    every check. *)
Lemma return_step_recorded data blocks m :
  match_here RETURN_BLOCK_RE (drop (m_start m) data) (m_start m) = Some m ->
  return_step data blocks m = blocks
  \/ exists b, return_step data blocks m = blocks ++ [b]
       /\ b_kind b = return_block /\ b_offset b = m_start m
       /\ inside_full blocks (b_offset b) = false
       /\ anchored data b /\ validated data b
       /\ starts_with (B (kind_label (b_kind b))) (b_block b) = true
       /\ b_offset b + b_length b <= length data.
Proof.
  intros Hm. unfold return_step.
  destruct (inside_full blocks (m_start m)) eqn:Ein; [by left|].
  destruct (bytes_in (B "clawd_body") _) eqn:Ec; [|by left]. cbn [negb].
  destruct (existsb _ MASCOT_CHARS) eqn:Eg; [|by left]. cbn [negb].
  destruct (_extract_block _ _ _) as [[span|] n] eqn:E; [|by left].
  destruct (find_text_var span) as [text|] eqn:Et; [|by left].
  right. eexists. split; [done|].
  cbn [b_kind b_offset b_length b_block b_func_name b_react_var b_flex_var
       b_text_var kind_label]. split; [done|]. split; [done|].
  split; [done|].
  split; [unfold anchored; cbn [b_kind b_offset b_func_name b_react_var b_flex_var]; by exists m|].
  split; [unfold validated; cbn [b_kind b_offset b_length b_block b_text_var kind_label]; done|].
  apply (extracted_keeps_keyword data (m_start m) "return" (B "return"));
    [by eapply match_here_keyword| |exact E].
  apply (bool_decide_unpack _). by vm_compute.
Qed.

(** Strategy 1 records checked full functions by strictly increasing offset. *)
Lemma find_full_functions_layout data :
  Forall (fun b => b_kind b = full_function
            /\ anchored data b /\ validated data b
            /\ starts_with (B (kind_label (b_kind b))) (b_block b) = true
            /\ b_offset b + b_length b <= length data)
         (find_full_functions data)
  /\ increasing b_offset (find_full_functions data).
Proof.
  unfold find_full_functions.
  destruct (finditer_spec FULL_FUNC_RE data) as [Hms Hinc].
  set (ms := finditer FULL_FUNC_RE data) in *.
  set (P := fun (pre : list rematch) (blocks : list block_info) =>
    Forall (fun b => b_kind b = full_function
              /\ anchored data b /\ validated data b
              /\ starts_with (B (kind_label (b_kind b))) (b_block b) = true
              /\ b_offset b + b_length b <= length data) blocks
    /\ increasing b_offset blocks
    /\ forall b, b ∈ blocks -> exists m, m ∈ pre /\ b_offset b = m_start m).
  cut (P ms (fold_left (full_step data) ms [])).
  { by intros (? & ? & _). }
  apply fold_left_ind.
  { split; [done|]. split; [by intros i j x y _ Hx|]. intros b Hb.
    by apply elem_of_nil in Hb. }
  intros pre m post blocks Hl (Hrec & Hord & Hfrom).
  assert (forall b, b ∈ blocks -> exists m', m' ∈ pre ++ [m] /\ b_offset b = m_start m')
    as Hfrom'.
  { intros b Hb. destruct (Hfrom b Hb) as (m' & ? & ?). exists m'.
    split; [|done]. apply elem_of_app. by left. }
  rewrite Forall_forall in Hms.
  destruct (Hms m) as [_ Hm]; [rewrite Hl; apply elem_of_app; right; apply list_elem_of_here|].
  destruct (full_step_recorded data blocks m Hm)
    as [->|(b & -> & Hk & Hoff & Hrest)]; [done|].
  split; [|split].
  - apply Forall_app. split; [done|]. by apply Forall_singleton.
  - apply increasing_snoc; [done|]. intros y Hy.
    destruct (Hfrom y Hy) as (m' & Hm' & ->). rewrite Hoff.
    rewrite Hl in Hinc. by apply (increasing_before m_start pre m post).
  - intros b' Hb'. apply elem_of_app in Hb' as [?|Hb']; [auto|].
    apply list_elem_of_singleton in Hb' as ->. exists m. split; [|done].
    apply elem_of_app. right. apply list_elem_of_here.
Qed.

(** Strategy 2 appends checked return blocks by strictly increasing offset,
    each starting at or after the end of those before it and outside every
    full function. *)
Lemma find_mascot_blocks_layout data :
  exists rets,
    find_mascot_blocks data = find_full_functions data ++ rets
    /\ Forall (fun b => b_kind b = return_block
                 /\ anchored data b /\ validated data b
                 /\ starts_with (B (kind_label (b_kind b))) (b_block b) = true
                 /\ b_offset b + b_length b <= length data) rets
    /\ increasing b_offset rets
    /\ (forall i j x y, i < j -> rets !! i = Some x -> rets !! j = Some y ->
          b_offset x + b_length x <= b_offset y)
    /\ (forall fb rb, fb ∈ find_full_functions data -> rb ∈ rets ->
          ~ (b_offset fb <= b_offset rb < b_offset fb + b_length fb)).
Proof.
  unfold find_mascot_blocks.
  destruct (finditer_spec RETURN_BLOCK_RE data) as [Hms Hinc].
  set (ms := finditer RETURN_BLOCK_RE data) in *.
  set (fulls := find_full_functions data).
  set (P := fun (pre : list rematch) (blocks : list block_info) =>
    exists rets, blocks = fulls ++ rets
    /\ Forall (fun b => b_kind b = return_block
                 /\ anchored data b /\ validated data b
                 /\ starts_with (B (kind_label (b_kind b))) (b_block b) = true
                 /\ b_offset b + b_length b <= length data) rets
    /\ increasing b_offset rets
    /\ (forall i j x y, i < j -> rets !! i = Some x -> rets !! j = Some y ->
          b_offset x + b_length x <= b_offset y)
    /\ (forall fb rb, fb ∈ fulls -> rb ∈ rets ->
          ~ (b_offset fb <= b_offset rb < b_offset fb + b_length fb))
    /\ forall b, b ∈ rets -> exists m, m ∈ pre /\ b_offset b = m_start m).
  cut (P ms (fold_left (return_step data) ms fulls)).
  { intros (rets & ? & ? & ? & ? & ? & _). by exists rets. }
  apply fold_left_ind.
  { exists []. rewrite app_nil_r. split; [done|]. split; [done|].
    split; [by intros i j x y _ Hx|]. split; [by intros i j x y _ Hx|].
    split; [intros fb rb _ Hb|intros b Hb]; by apply elem_of_nil in Hb. }
  intros pre m post blocks Hl (rets & -> & Hrec & Hord & Hchain & Hout & Hfrom).
  rewrite Forall_forall in Hms.
  destruct (Hms m) as [_ Hm]; [rewrite Hl; apply elem_of_app; right; apply list_elem_of_here|].
  destruct (return_step_recorded data (fulls ++ rets) m Hm)
    as [->|(b & -> & Hk & Hoff & Hin & Hrest)].
  { exists rets. repeat (split; [done|]). intros b Hb.
    destruct (Hfrom b Hb) as (m' & ? & ?). exists m'. split; [|done].
    apply elem_of_app. by left. }
  assert (forall y, y ∈ rets -> b_offset y < b_offset b) as Hbefore.
  { intros y Hy. destruct (Hfrom y Hy) as (m' & Hm' & ->). rewrite Hoff.
    rewrite Hl in Hinc. by apply (increasing_before m_start pre m post). }
  exists (rets ++ [b]). rewrite <- app_assoc. split; [done|]. split; [|split; [|split; [|split]]].
  - apply Forall_app. split; [done|]. by apply Forall_singleton.
  - by apply increasing_snoc.
  - intros i j x y Hij Hx Hy.
    apply lookup_snoc_Some in Hx as [[Hi Hx]|[-> <-]];
      apply lookup_snoc_Some in Hy as [[Hj Hy]|[-> <-]]; try lia.
    + by apply (Hchain i j).
    + assert (x ∈ rets) as Hxin by (by eapply list_elem_of_lookup_2).
      pose proof (Hbefore x Hxin).
      pose proof (inside_full_false (fulls ++ rets) (b_offset b) x Hin) as Hns.
      destruct (decide (b_offset x + b_length x <= b_offset b)) as [|Hgt]; [done|].
      exfalso. apply Hns; [apply elem_of_app; by right|lia].
  - intros fb rb Hfb Hrb. apply elem_of_app in Hrb as [?|Hrb]; [by apply Hout|].
    apply list_elem_of_singleton in Hrb as ->.
    apply (inside_full_false (fulls ++ rets)); [done|]. apply elem_of_app. by left.
  - intros b' Hb'. apply elem_of_app in Hb' as [Hb'|Hb'].
    + destruct (Hfrom b' Hb') as (m' & ? & ?). exists m'. split; [|done].
      apply elem_of_app. by left.
    + apply list_elem_of_singleton in Hb' as ->. exists m. split; [|done].
      apply elem_of_app. right. apply list_elem_of_here.
Qed.

(** X9. Every block find_mascot_blocks returns has passed every check: the
    anchor pattern of its kind matches at its offset and its identifiers are
    the groups captured there (a function name for a full function, none for
    a return block); the colour marker and a mascot glyph occur within 600
    bytes of the offset; its bytes and length are what _extract_block
    returns there; its text identifier is what the text-component search
    finds in its bytes; its bytes start with the keyword function or return;
    and its range lies within the data. *)
Theorem detected_blocks_recorded (data : bytes) :
  Forall (fun b => anchored data b /\ validated data b
            /\ starts_with (B (kind_label (b_kind b))) (b_block b) = true
            /\ b_offset b + b_length b <= length data)
         (find_mascot_blocks data).
Proof.
  destruct (find_mascot_blocks_layout data) as (rets & -> & Hrets & _).
  destruct (find_full_functions_layout data) as [Hfulls _].
  apply Forall_app. split.
  - eapply Forall_impl; [exact Hfulls|]. by intros b (_ & ?).
  - eapply Forall_impl; [exact Hrets|]. by intros b (_ & ?).
Qed.

(** X10. find_mascot_blocks lists the full functions first, by strictly
    increasing offset, then the return blocks; each return block starts at
    or after the end of every return block listed before it, so return
    blocks never overlap; and no two blocks of the list have the same
    offset. *)
Theorem detected_blocks_ordered (data : bytes) :
  exists rets,
    find_mascot_blocks data = find_full_functions data ++ rets
    /\ Forall (fun b => b_kind b = full_function) (find_full_functions data)
    /\ Forall (fun b => b_kind b = return_block) rets
    /\ increasing b_offset (find_full_functions data)
    /\ (forall i j x y, i < j -> rets !! i = Some x -> rets !! j = Some y ->
          b_offset x + b_length x <= b_offset y)
    /\ NoDup (map b_offset (find_mascot_blocks data)).
Proof.
  destruct (find_mascot_blocks_layout data) as (rets & Heq & Hrets & Hinc & Hchain & Hout).
  destruct (find_full_functions_layout data) as [Hfulls Hfinc].
  exists rets. split; [done|]. split.
  { eapply Forall_impl; [exact Hfulls|]. by intros b (? & _). }
  split.
  { eapply Forall_impl; [exact Hrets|]. by intros b (? & _). }
  split; [done|]. split; [done|].
  rewrite Heq, map_app. apply NoDup_app. split; [by apply increasing_NoDup|].
  split; [|by apply increasing_NoDup].
  intros o Hf Hr.
  apply list_elem_of_fmap in Hf as (fb & -> & Hfb).
  apply list_elem_of_fmap in Hr as (rb & Ho & Hrb).
  apply (Hout fb rb Hfb Hrb).
  rewrite Forall_forall in Hfulls.
  destruct (Hfulls fb Hfb) as (_ & _ & (_ & _ & E & _) & _).
  apply extract_block_some in E. lia.
Qed.

(** ** patch-credential-cache.py *)

(** [min(..., key=...)] returns an element of least distance. *)
Lemma nearest_least ib rest : forall best,
  CredentialCache.nearest ib best rest ∈ best :: rest
  /\ forall x, x ∈ best :: rest ->
       CredentialCache.distance (CredentialCache.nearest ib best rest) ib
       <= CredentialCache.distance x ib.
Proof.
  induction rest as [|y rest IH]; intros best; simpl.
  - split; [apply list_elem_of_here|]. intros x Hx.
    apply list_elem_of_singleton in Hx as ->. done.
  - destruct (_ <? _) eqn:E.
    + apply Nat.ltb_lt in E. destruct (IH y) as [Hin Hmin]. split.
      * by apply list_elem_of_further.
      * intros x Hx. apply elem_of_cons in Hx as [->|Hx]; [|by apply Hmin].
        specialize (Hmin y ltac:(apply list_elem_of_here)). lia.
    + apply Nat.ltb_ge in E. destruct (IH best) as [Hin Hmin]. split.
      * apply elem_of_cons in Hin as [->|Hin]; [apply list_elem_of_here|].
        by do 2 apply list_elem_of_further.
      * intros x Hx. apply elem_of_cons in Hx as [->|Hx];
          [apply Hmin, list_elem_of_here|].
        apply elem_of_cons in Hx as [->|Hx].
        -- specialize (Hmin best ltac:(apply list_elem_of_here)). lia.
        -- apply Hmin. by apply list_elem_of_further.
Qed.

(** The proposals by case; [main]'s proof uses it too. *)
Lemma propose_patch_cases (data : bytes) (results : list (string * list nat)) :
  let proposals := CredentialCache.propose_patch data results in
  let blocked := CredentialCache.get results "iB_cache_clear" = []
                 \/ CredentialCache.get results "iB_assignment" = [] in
  let ib_offset := hd 0 (CredentialCache.get results "iB_assignment") in
  (blocked -> proposals = [CredentialCache.ERROR])
  /\ (~ blocked ->
        (CredentialCache.ERROR ∉ proposals)
        /\ last proposals = Some CredentialCache.RECOMMENDATION
        /\ (CredentialCache.APPROACH_A ∈ proposals
            <-> exists c, c ∈ map m_start (finditer (Lit (B "CFT=null")) data)
                  /\ CredentialCache.distance c ib_offset < 5000)
        /\ (CredentialCache.APPROACH_B ∈ proposals
            <-> CredentialCache.get results "oR_assignment" <> [])).
Proof.
  intros proposals blocked ib_offset. unfold proposals, CredentialCache.propose_patch.
  fold ib_offset. split.
  - intros [H|H].
    + by rewrite bool_decide_eq_true_2.
    + destruct (bool_decide _); [done|]. by rewrite bool_decide_eq_true_2.
  - intros Hnb.
    rewrite bool_decide_eq_false_2 by (intros H; apply Hnb; by left).
    rewrite bool_decide_eq_false_2 by (intros H; apply Hnb; by right).
    set (cft := map m_start (finditer (Lit (B "CFT=null")) data)).
    set (approach_a := match cft with [] => [] | c :: cs => _ end).
    set (approach_b := if bool_decide _ then [] else _).
    assert (approach_a = [] \/ approach_a = [CredentialCache.APPROACH_A]) as Ha.
    { unfold approach_a. destruct cft; [by left|]. destruct (_ <? _); auto. }
    assert (approach_b = [] \/ approach_b = [CredentialCache.APPROACH_B]) as Hb.
    { unfold approach_b. destruct (bool_decide _); auto. }
    assert (approach_a = [CredentialCache.APPROACH_A]
            <-> exists c, c ∈ cft /\ CredentialCache.distance c ib_offset < 5000) as Ha'.
    { unfold approach_a. destruct cft as [|c cs].
      - split; [done|]. intros (c & Hc & _). by apply elem_of_nil in Hc.
      - destruct (nearest_least ib_offset cs c) as [Hin Hmin].
        destruct (_ <? _) eqn:E.
        + apply Nat.ltb_lt in E. split; [|done]. intros _. eauto.
        + apply Nat.ltb_ge in E. split; [done|]. intros (x & Hx & Hlt).
          specialize (Hmin x Hx). lia. }
    assert (approach_b = [CredentialCache.APPROACH_B]
            <-> CredentialCache.get results "oR_assignment" <> []) as Hb'.
    { unfold approach_b. destruct (bool_decide _) eqn:E.
      - apply bool_decide_eq_true in E. split; [done|]. intros H. by destruct H.
      - apply bool_decide_eq_false in E. done. }
    rewrite <- Ha', <- Hb'. clearbody approach_a approach_b.
    destruct Ha as [-> | ->], Hb as [-> | ->];
      apply (bool_decide_unpack _); by vm_compute.
Qed.

(** X11. propose_patch returns the single proposal ERROR when no iB.cache
    clear call or no iB assignment was found; otherwise it returns no ERROR,
    ends with RECOMMENDATION, proposes APPROACH_A exactly when some CFT=null
    match lies less than 5000 bytes from the first iB assignment, and
    APPROACH_B exactly when an oR assignment was found. *)
Theorem propose_patch_shape (data : bytes) (results : list (string * list nat)) :
  let proposals := CredentialCache.propose_patch data results in
  let blocked := CredentialCache.get results "iB_cache_clear" = []
                 \/ CredentialCache.get results "iB_assignment" = [] in
  let ib_offset := hd 0 (CredentialCache.get results "iB_assignment") in
  (blocked -> proposals = [CredentialCache.ERROR])
  /\ (~ blocked ->
        (CredentialCache.ERROR ∉ proposals)
        /\ last proposals = Some CredentialCache.RECOMMENDATION
        /\ (CredentialCache.APPROACH_A ∈ proposals
            <-> exists c, c ∈ map m_start (finditer (Lit (B "CFT=null")) data)
                  /\ CredentialCache.distance c ib_offset < 5000)
        /\ (CredentialCache.APPROACH_B ∈ proposals
            <-> CredentialCache.get results "oR_assignment" <> [])).
Proof. apply propose_patch_cases. Qed.

Lemma increasing_fmap {A} (f : A -> nat) (l : list A) :
  increasing f l -> increasing id (map f l).
Proof.
  intros H i j x y Hij Hx Hy.
  apply list_lookup_fmap_Some in Hx as (a & -> & Ha).
  apply list_lookup_fmap_Some in Hy as (b & -> & Hb).
  by apply (H i j).
Qed.

Lemma increasing_take {A} (f : A -> nat) (l : list A) n :
  increasing f l -> increasing f (take n l).
Proof.
  intros H i j x y Hij Hx Hy.
  apply lookup_take_Some in Hx as [Hx _]. apply lookup_take_Some in Hy as [Hy _].
  by apply (H i j).
Qed.

(** [results.get(name)] is empty or one of the recorded lists. *)
Lemma get_cases (results : list (string * list nat)) name :
  CredentialCache.get results name = []
  \/ exists kv, kv ∈ results /\ kv.2 = CredentialCache.get results name.
Proof.
  unfold CredentialCache.get.
  destruct (find _ results) as [kv|] eqn:E; [|by left].
  right. exists kv. split; [|done].
  apply find_some in E as [Hin _]. by apply list_elem_of_In.
Qed.

(** X12. For every pattern name, the match offsets search_patterns records
    are at most 20, strictly increasing, and inside the data. *)
Theorem search_patterns_offsets (data : bytes) (name : string) :
  let offsets := CredentialCache.get (CredentialCache.search_patterns data) name in
  length offsets <= 20
  /\ increasing id offsets
  /\ Forall (fun o => o < length data) offsets.
Proof.
  intros offsets.
  destruct (get_cases (CredentialCache.search_patterns data) name)
    as [H|(kv & Hin & H)]; unfold offsets; clear offsets.
  { rewrite H. split; [simpl; lia|]. split; [by intros i j x y _ Hx|done]. }
  rewrite <- H. clear H. unfold CredentialCache.search_patterns in Hin.
  apply list_elem_of_fmap in Hin as ([[n r] cap] & -> & Hp). simpl.
  destruct (finditer_spec r data) as [Hms Hinc].
  split; [|split].
  - rewrite length_take.
    assert (cap <= 20); [|lia].
    revert Hp. generalize cap.
    assert (Forall (fun p : string * regex * nat => p.2 <= 20) CredentialCache.patterns)
      as Hcaps by (repeat constructor; simpl; lia).
    rewrite Forall_forall in Hcaps. intros cap' Hp. by apply (Hcaps _ Hp).
  - by apply increasing_take, increasing_fmap.
  - apply Forall_take, Forall_fmap. eapply Forall_impl; [exact Hms|].
    by intros m [? _].
Qed.

Lemma report_results_logging results :
  logging (CredentialCache.report_results results) (fun _ => True) False.
Proof.
  induction results as [|[name matches] rest IH]; simpl.
  - by apply logging_ret.
  - eapply logging_bind; [|intros _ _; apply IH].
    destruct (bool_decide _); apply logging_say_any.
Qed.

Lemma report_proposals_logging proposals : forall i,
  logging (CredentialCache.report_proposals proposals i) (fun _ => True) False.
Proof.
  induction proposals as [|t rest IH]; intros i; simpl.
  - by apply logging_ret.
  - eapply logging_bind; [apply logging_say_any|]. intros _ _. apply IH.
Qed.

(** [read_file]: the content of a readable file, or the uncaught exception. *)
Lemma wp_read_file_cases e path (Q : bytes -> state -> Prop) R st :
  (forall data, fs st !! path = Some data -> access_r_ok e (fs st) path = true ->
     Q data st) ->
  (fs st !! path = None \/ access_r_ok e (fs st) path = false -> R 1%Z st) ->
  wp (read_file e path) Q R st.
Proof.
  intros HQ HR. unfold wp, read_file, bind, get_files.
  destruct (fs st !! path) as [data|] eqn:Hdata; [|apply HR; by left].
  destruct (access_r_ok e (fs st) path) eqn:Hacc; [by apply HQ|apply HR; by right].
Qed.

(** X13. main of patch-credential-cache.py never changes a file. It ends
    with status 0 exactly when a non-empty binary path was given or found,
    that file exists and is readable, and both critical patterns (the
    iB.cache clear call and the iB assignment) occur in it; otherwise it
    ends with status 1. *)
Theorem credential_cache_read_only (e : env) (binary : option string) (st : state) :
  let result := run (CredentialCache.main e binary) st in
  let ready := exists path data,
      credential_target e binary (fs st) = Some path /\ path <> ""
      /\ fs st !! path = Some data /\ access_r_ok e (fs st) path = true
      /\ CredentialCache.get (CredentialCache.search_patterns data) "iB_cache_clear" <> []
      /\ CredentialCache.get (CredentialCache.search_patterns data) "iB_assignment" <> [] in
  fs result.2 = fs st
  /\ (result.1 = 0%Z <-> ready)
  /\ (result.1 = 1%Z <-> ~ ready).
Proof.
  intros result ready.
  cut (wp (CredentialCache.main e binary)
          (fun code st' => fs st' = fs st /\ code = 0%Z /\ ready)
          (fun code st' => fs st' = fs st /\ code = 1%Z /\ ~ ready) st).
  { unfold result, wp, run.
    destruct (CredentialCache.main e binary st) as [[c|c] st']; simpl;
      intros (? & -> & ?); (split; [done|]); split; split; try done; lia. }
  unfold CredentialCache.main. wp_steps.
  fold (credential_target e binary (fs st)).
  destruct (credential_target e binary (fs st)) as [path|] eqn:Efound.
  2:{ wp_steps. split; [done|]. split; [done|]. intros (p & d & ? & _). done. }
  assert (forall q d, Some path = Some q -> q <> "" -> fs st !! q = Some d ->
            access_r_ok e (fs st) q = true ->
            (CredentialCache.get (CredentialCache.search_patterns d) "iB_cache_clear" <> []
             /\ CredentialCache.get (CredentialCache.search_patterns d) "iB_assignment" <> [])
            <-> ready) as Hready.
  { intros q d [= <-] Hne Hd Hacc. unfold ready. split.
    - intros [? ?]. by exists path, d.
    - intros (p & d' & [= <-] & _ & Hd' & _ & ? & ?). by simplify_eq. }
  destruct path as [|a s].
  { wp_steps. split; [done|]. split; [done|]. intros (p & d & [= <-] & ? & _). done. }
  set (path := String a s) in *.
  wp_steps. unfold isfile. wp_steps.
  destruct (bool_decide (is_Some (fs st !! path))) eqn:Hfile; cbn [negb]; wp_steps.
  2:{ split; [done|]. split; [done|].
      intros (p & d & [= <-] & _ & Hd & _).
      apply bool_decide_eq_false in Hfile. apply Hfile. by eexists. }
  apply wp_read_file_cases; cbn [fs out].
  2:{ intros Hbad. split; [done|]. split; [done|].
      intros (p & d & [= <-] & _ & Hd & Hacc & _).
      destruct Hbad; congruence. }
  intros data Hdata Hacc. wp_steps.
  eapply wp_logging; [apply report_results_logging| |by intros ? ? []]; cbn [fs out].
  intros [] log _. wp_steps.
  eapply wp_logging; [apply report_proposals_logging| |by intros ? ? []]; cbn [fs out].
  intros [] log' _. wp_steps.
  assert (path <> "") as Hne by done.
  specialize (Hready path data eq_refl Hne Hdata Hacc).
  destruct (propose_patch_cases data (CredentialCache.search_patterns data))
    as [Hblocked Hfree].
  destruct (bool_decide (CredentialCache.ERROR ∈ _)) eqn:Eerr; wp_steps.
  - apply bool_decide_eq_true in Eerr. split; [done|]. split; [done|].
    rewrite <- Hready. intros [H1 H2]. apply Hfree in Eerr; [done|].
    intros [?|?]; done.
  - apply bool_decide_eq_false in Eerr. split; [done|]. split; [done|].
    apply Hready.
    split; intros H; apply Eerr; rewrite Hblocked; auto using list_elem_of_here.
Qed.

(** ** The files [main] touches *)











(** ** Runs that change nothing *)

(** [main] from Gate 3 on with [--dry-run]: no file changes. *)
Lemma main_patch_dry_run e a binary data st :
  dry_run a = true ->
  wp (main_patch e a binary data)
     (fun _ st' => fs st' = fs st) (fun _ st' => fs st' = fs st) st.
Proof.
  intros Hdry. unfold main_patch. rewrite Hdry. wp_steps.
  destruct (bool_decide _); wp_steps; [done|].
  eapply wp_logging; [apply report_blocks_logging| |by intros ? ? []].
  intros [ap np] log _. wp_steps.
  destruct (np =? 0); wp_steps; [done|].
  eapply wp_logging; [apply build_patches_logging| |]; cbn [fs out]; [|done].
  intros patches log' _. wp_steps.
  eapply wp_logging; [apply check_sizes_logging| |]; cbn [fs out]; [|done].
  intros [] log2 _. wp_steps.
  eapply wp_logging; [apply check_overlaps_logging| |]; cbn [fs out]; [|done].
  intros [] log3 _. wp_steps.
  eapply wp_logging; [apply report_planned_logging| |by intros ? ? []]; cbn [fs out].
  intros [] log4 _. by wp_steps.
Qed.

(** X15. With --dry-run and without --restore, main changes no file,
    whatever the environment answers. *)
Theorem dry_run_changes_nothing (e : env) (a : args) (f : files) :
  dry_run a = true -> restore a = false ->
  fs (run (main e a) (State f [])).2 = f.
Proof.
  intros Hdry Hres.
  cut (wp (main e a) (fun _ st' => fs st' = f) (fun _ st' => fs st' = f) (State f [])).
  { unfold wp, run. by destruct (main e a (State f [])) as [[c|c] st']. }
  unfold main. rewrite Hres. wp_steps. apply wp_resolve_binary; cbn [fs out].
  destruct (target_of e a f) as [binary|]; wp_steps; [|done].
  unfold isfile. wp_steps.
  destruct (bool_decide (is_Some (f !! binary))) eqn:Hfile; cbn [negb]; wp_steps;
    [|done].
  unfold access_read. wp_steps.
  destruct (access_r_ok e f binary) eqn:Hacc; cbn [negb]; wp_steps; [|done].
  apply wp_verify_binary_runs. intros [|]; cbn [negb]; wp_steps; [|done].
  apply wp_read_file; cbn [fs out]; [done|done|]. intros data _. wp_steps.
  by apply (main_patch_dry_run e a binary data (State f _)).
Qed.

Lemma dry_run_changes_nothing_witness :
  fs (run (main env_ok (Args true false (Some "claude") false)) world0).2 = fs world0.
Proof. apply (dry_run_changes_nothing env_ok (Args true false (Some "claude") false)); reflexivity. Defined.

(** Gate 4 has no plan exactly when the builder fails for a block that needs
    patching. *)
Lemma plan_none blocks :
  plan blocks = None
  <-> exists b msg, b ∈ blocks /\ is_already_patched (b_block b) = false
        /\ build_replacement b = BuildFail msg.
Proof.
  induction blocks as [|b rest IH]; simpl plan.
  - split; [done|]. intros (b & msg & Hb & _). by apply elem_of_nil in Hb.
  - destruct (is_already_patched (b_block b)) eqn:Ep.
    + rewrite IH. split; intros (b' & msg & Hb & Hp & Hf).
      * exists b', msg. split; [by apply list_elem_of_further|done].
      * apply elem_of_cons in Hb as [->|Hb]; [congruence|]. by exists b', msg.
    + destruct (build_replacement b) as [r msg|msg] eqn:E.
      * destruct (plan rest) as [l|] eqn:El; simpl.
        -- split; [done|]. intros (b' & msg' & Hb & Hp & Hf).
           apply elem_of_cons in Hb as [->|Hb]; [congruence|].
           assert (Some l = None) as H; [|done].
           apply IH. by exists b', msg'.
        -- split; [|done]. intros _.
           destruct (proj1 IH eq_refl) as (b' & msg' & Hb & Hp & Hf).
           exists b', msg'. split; [by apply list_elem_of_further|done].
      * split; [|done]. intros _. exists b, msg.
        split; [apply list_elem_of_here|done].
Qed.

Lemma needs_patch_count_pos blocks b :
  b ∈ blocks -> is_already_patched (b_block b) = false ->
  needs_patch_count blocks <> 0.
Proof.
  intros Hb Hp. unfold needs_patch_count.
  assert (b ∈ filter (fun b => is_already_patched (b_block b) = false) blocks) as Hin.
  { by apply list_elem_of_filter. }
  destruct (filter _ blocks); [by apply elem_of_nil in Hin|done].
Qed.

(** X16. All or nothing: when build_replacement fails for one detected block
    that needs patching, main stops at Gate 4 with status 0 after an error
    and changes no file, even when other blocks could have been patched. *)
Theorem unbuildable_block_aborts_all (e : env) (a : args) (binary : string)
    (data : bytes) (f : files) (b : block_info) (msg : build_msg) :
  b ∈ find_mascot_blocks data -> is_already_patched (b_block b) = false ->
  build_replacement b = BuildFail msg ->
  exists st', main_patch e a binary data (State f []) = (Return 0%Z, st')
    /\ fs st' = f /\ has_diagnostic (out st') = true.
Proof.
  intros Hb Hp Hfail.
  assert (plan (find_mascot_blocks data) = None) as Hplan.
  { apply plan_none. by exists b, msg. }
  pose proof (needs_patch_count_pos _ _ Hb Hp) as Hcount.
  cut (wp (main_patch e a binary data) (fun _ _ => False)
          (fun code st' => code = 0%Z /\ fs st' = f /\ has_diagnostic (out st') = true)
          (State f [])).
  { unfold wp. destruct (main_patch e a binary data (State f [])) as [[c|c] st'];
      [done|]. intros (-> & ? & ?). by exists st'. }
  unfold main_patch. wp_steps.
  destruct (bool_decide _) eqn:Eempty.
  { wp_steps. diag_solve. }
  wp_steps. eapply wp_logging; [apply report_blocks_logging| |by intros ? ? []].
  intros [ap np] log Hnp. simpl in Hnp. wp_steps.
  destruct (np =? 0) eqn:Enp; [apply Nat.eqb_eq in Enp; lia|].
  wp_steps. eapply wp_logging; [apply build_patches_logging| |]; cbn [fs out].
  - intros patches log' (built & Hplan' & _). congruence.
  - intros log' Hd _. diag_solve.
Qed.

Lemma unbuildable_block_aborts_all_witness :
  exists b msg st',
    find_mascot_blocks short_image = [b]
    /\ build_replacement b = BuildFail msg
    /\ main_patch env_ok (apply_args "claude") "claude" short_image (State ∅ [])
       = (Return 0%Z, st')
    /\ fs st' = ∅ /\ has_diagnostic (out st') = true.
Proof.
  destruct (find_mascot_blocks short_image) as [|b [|]] eqn:Hf;
    try (by vm_compute in Hf).
  destruct (build_replacement b) as [r msg|msg] eqn:Hfail.
  { vm_compute in Hf. injection Hf as <-. vm_compute in Hfail. discriminate Hfail. }
  assert (is_already_patched (b_block b) = false) as Hp.
  { vm_compute in Hf. injection Hf as <-. vm_compute. reflexivity. }
  assert (b ∈ find_mascot_blocks short_image) as Hb.
  { rewrite Hf. apply list_elem_of_here. }
  destruct (unbuildable_block_aborts_all env_ok (apply_args "claude") "claude"
              short_image ∅ b msg Hb Hp Hfail) as (st' & H).
  exists b, msg, st'. split; [reflexivity|]. split; [exact Hfail|]. exact H.
Defined.

(** ** Restore mode *)

(** [restore_backup], by case. *)
Lemma wp_restore_backup_cases e binary (Q : bool * string -> state -> Prop) R st :
  match fs st !! backup_path binary with
  | None => Q (false, "No backup file found") st
  | Some c =>
      if copy2_raises e (fs st) (backup_path binary) binary
      then Q (false, "Failed to restore") st
      else Q (true, "Restored from backup")
             (State (<[binary := c]> (fs st)) (out st))
  end ->
  wp (restore_backup e binary) Q R st.
Proof.
  intros H.
  unfold wp, restore_backup, path_exists, isfile, copy2, bind, get_files, set_files, ret.
  destruct (bool_decide _) eqn:Ex; cbn [negb].
  - apply bool_decide_eq_true in Ex as [c Hc]. rewrite Hc in *.
    by destruct (copy2_raises e (fs st) (backup_path binary) binary).
  - apply bool_decide_eq_false in Ex.
    destruct (fs st !! backup_path binary) eqn:Eb; [|done].
    exfalso. apply Ex. by eexists.
Qed.






(** ** The write and what follows it *)

(** The temp-file write, by the fault the environment injects. *)
Lemma wp_write_via_temp_cases e binary modified (Q : bool -> state -> Prop) R st :
  match persist_raises e (fs st) binary with
  | Some FailOpen => Q false st
  | Some (FailWrite written) =>
      Q false (State (<[binary +:+ ".tmp" := take written modified]> (fs st)) (out st))
  | Some _ =>
      Q false (State (<[binary +:+ ".tmp" := modified]> (fs st)) (out st))
  | None =>
      Q true (State (<[binary := modified]> (delete (binary +:+ ".tmp") (fs st)))
                    (out st ++ [Diag Success "Binary written successfully"]))
  end ->
  wp (write_via_temp e binary (binary +:+ ".tmp") modified) Q R st.
Proof.
  unfold wp, write_via_temp, bind, get_files, set_files, ret, success, say.
  destruct (persist_raises e (fs st) binary) as [[| | |]|]; cbn [fs out]; auto.
  unfold rename. by rewrite lookup_insert_eq, delete_insert_eq.
Qed.

(** The target and every file but the backup and the temp file are as in [f]. *)
Lemma failed_write_step binary (f g g' : files) :
  (forall path, path <> backup_path binary -> path <> binary +:+ ".tmp" ->
     g !! path = f !! path) ->
  (forall path, path <> backup_path binary -> path <> binary +:+ ".tmp" ->
     g' !! path = g !! path) ->
  forall path, path <> backup_path binary -> path <> binary +:+ ".tmp" ->
    g' !! path = f !! path.
Proof. intros H1 H2 path ? ?. rewrite H2 by done. auto. Qed.

Ltac untouched_solve H :=
  cbn [fs out]; eapply failed_write_step; [exact H|];
  intros path ? ?;
  repeat first [rewrite lookup_insert_ne by done | rewrite lookup_delete_ne by done];
  reflexivity.

(** [main] from the apply loop on, when the write raises: it never reaches
    the end, and every file but the backup and the temp file is as before. *)
Lemma main_write_failed_write e binary data patches (f g : files) o :
  (forall g', persist_raises e g' binary <> None) ->
  (forall path, path <> backup_path binary -> path <> binary +:+ ".tmp" ->
     g !! path = f !! path) ->
  wp (main_write e binary data patches)
     (fun _ _ => False)
     (fun _ st' => forall path, path <> backup_path binary ->
                     path <> binary +:+ ".tmp" -> fs st' !! path = f !! path)
     (State g o).
Proof.
  intros Hfail Hb. unfold main_write. wp_steps.
  eapply wp_logging; [apply apply_patches_logging| |]; cbn [fs out].
  2:{ intros log _ _. untouched_solve Hb. }
  intros modified log _.
  destruct (negb _); wp_steps; [untouched_solve Hb|].
  apply wp_write_via_temp_cases; cbn [fs out].
  specialize (Hfail g).
  destruct (persist_raises e g binary) as [[| | |]|]; [| | | |done];
    cbn [negb]; wp_steps; apply wp_unlink_quietly; wp_steps; untouched_solve Hb.
Qed.

(** X19. When the temp-file write raises (at open, write, copymode or
    rename), a run without --restore leaves the target's content untouched;
    at most the backup and the temp file differ from before. *)
Theorem failed_write_leaves_target (e : env) (a : args) (f : files) (binary : string) :
  target_of e a f = Some binary -> restore a = false ->
  (forall g, persist_raises e g binary <> None) ->
  let st' := (run (main e a) (State f [])).2 in
  fs st' !! binary = f !! binary
  /\ forall path, path <> backup_path binary -> path <> binary +:+ ".tmp" ->
       fs st' !! path = f !! path.
Proof.
  intros Htarget Hres Hfail st'.
  cut (forall path, path <> backup_path binary -> path <> binary +:+ ".tmp" ->
         fs st' !! path = f !! path).
  { intros H. split; [|done]. apply H.
    - apply not_eq_sym, backup_path_neq.
    - apply not_eq_sym, temp_path_neq. }
  cut (wp (main e a)
          (fun _ st' => forall path, path <> backup_path binary ->
                          path <> binary +:+ ".tmp" -> fs st' !! path = f !! path)
          (fun _ st' => forall path, path <> backup_path binary ->
                          path <> binary +:+ ".tmp" -> fs st' !! path = f !! path)
          (State f [])).
  { unfold st', wp, run. by destruct (main e a (State f [])) as [[c|c] st1]. }
  assert (forall path, path <> backup_path binary -> path <> binary +:+ ".tmp" ->
            f !! path = f !! path) as Hb by done.
  unfold main. rewrite Hres. wp_steps. apply wp_resolve_binary; cbn [fs out].
  rewrite Htarget. wp_steps. unfold isfile. wp_steps.
  destruct (bool_decide (is_Some (f !! binary))) eqn:Hfile; cbn [negb]; wp_steps;
    [|done].
  unfold access_read. wp_steps.
  destruct (access_r_ok e f binary) eqn:Hacc; cbn [negb]; wp_steps; [|done].
  apply wp_verify_binary_runs. intros [|]; cbn [negb]; wp_steps; [|done].
  apply wp_read_file; cbn [fs out]; [done|done|]. intros data _. wp_steps.
  unfold main_patch. wp_steps.
  destruct (bool_decide (find_mascot_blocks data = [])); wp_steps; [done|].
  eapply wp_logging; [apply report_blocks_logging| |by intros ? ? []].
  intros [ap np] log _. wp_steps.
  destruct (np =? 0); wp_steps; [done|].
  eapply wp_logging; [apply build_patches_logging| |]; cbn [fs out]; [|done].
  intros patches log' _. wp_steps.
  eapply wp_logging; [apply check_sizes_logging| |]; cbn [fs out]; [|done].
  intros [] log2 _. wp_steps.
  eapply wp_logging; [apply check_overlaps_logging| |]; cbn [fs out]; [|done].
  intros [] log3 _.
  destruct (dry_run a).
  { wp_steps.
    eapply wp_logging; [apply report_planned_logging| |by intros ? ? []]; cbn [fs out].
    intros [] log4 _. by wp_steps. }
  unfold main_apply. wp_steps. apply wp_create_backup; cbn [fs out].
  - intros msg _. wp_steps.
    eapply wp_conseq; [by apply (main_write_failed_write e binary data patches f)|done|done].
  - intros msg d _ _. wp_steps.
    eapply wp_conseq; [apply (main_write_failed_write e binary data patches f); [done|]|done|done].
    intros path ? ?. by rewrite lookup_insert_ne.
  - intros msg _. wp_steps.
    eapply wp_conseq; [by apply (main_write_failed_write e binary data patches f)|done|done].
Qed.

Lemma failed_write_leaves_target_witness :
  let st' := (run (main env_no_write (apply_args "claude")) world0).2 in
  fs st' !! "claude" = fs world0 !! "claude"
  /\ Diag Error "Failed to write binary" ∈ out st'.
Proof.
  intros st'. split.
  - apply (proj1 (failed_write_leaves_target env_no_write (apply_args "claude")
                    (fs world0) "claude" eq_refl eq_refl
                    (fun g H => match H in _ = y return
                                  match y with Some _ => True | None => False end
                                with eq_refl => I end))).
  - apply (bool_decide_unpack _). vm_compute. reflexivity.
Defined.

(** The rollback when the backup is there and the copy succeeds: the target
    holds the backup's content. *)
Lemma wp_rollback_restores e binary c (Q : unit -> state -> Prop) R st :
  fs st !! backup_path binary = Some c ->
  copy2_raises e (fs st) (backup_path binary) binary = false ->
  (forall log, Q tt (State (<[binary := c]> (fs st)) (out st ++ log))) ->
  wp (rollback e binary) Q R st.
Proof.
  intros Hbak Hcopy HQ. unfold rollback. apply wp_bind, wp_restore_backup_cases.
  rewrite Hbak, Hcopy. wp_steps. apply wp_codesign_binary. intros _.
  wp_steps. apply wp_verify_binary_runs.
  intros [|]; wp_steps; rewrite <- app_assoc; apply HQ.
Qed.

(** [main] from the apply loop on, when [codesign] never succeeds: the
    target ends as it was or as the backup is. *)
Lemma main_write_unsigned e binary data patches (g : files) o (original c : bytes) :
  (forall g', codesign_succeeds e g' binary = false) ->
  (forall g', copy2_raises e g' (backup_path binary) binary = false) ->
  g !! binary = Some original -> g !! backup_path binary = Some c ->
  wp (main_write e binary data patches)
     (fun _ _ => False)
     (fun _ st' => fs st' !! binary = Some original \/ fs st' !! binary = Some c)
     (State g o).
Proof.
  intros Hsign Hcopy Hbin Hbak. paths binary.
  unfold main_write. wp_steps.
  eapply wp_logging; [apply apply_patches_logging| |]; cbn [fs out]; [|by left].
  intros modified log _.
  destruct (negb _); wp_steps; [by left|].
  apply wp_write_via_temp_cases; cbn [fs out].
  destruct (persist_raises e g binary) as [[| | |]|]; cbn [negb]; wp_steps.
  1-4: apply wp_unlink_quietly; wp_steps; left;
    repeat first [rewrite lookup_insert_ne by done | rewrite lookup_delete_ne by done];
    done.
  unfold codesign_binary. wp_steps. rewrite Hsign. cbn [negb]. wp_steps.
  apply (wp_rollback_restores e binary c); cbn [fs out].
  - rewrite lookup_insert_ne, lookup_delete_ne by done. done.
  - apply Hcopy.
  - intros log'. wp_steps. right. by rewrite lookup_insert_eq.
Qed.

(** X20. Where codesign never succeeds and copies do, a run without
    --restore never leaves a patched target: with no backup before the run
    the target ends with its original content; with an older backup present
    it ends with the original content or with that older backup's content
    (the rollback restores whatever the backup holds). *)
Theorem unsigned_patch_is_rolled_back (e : env) (a : args) (f : files)
    (binary : string) (original : bytes) :
  target_of e a f = Some binary -> restore a = false ->
  f !! binary = Some original ->
  (forall g, codesign_succeeds e g binary = false) ->
  (forall g src dst, copy2_raises e g src dst = false) ->
  let st' := (run (main e a) (State f [])).2 in
  match f !! backup_path binary with
  | None => fs st' !! binary = Some original
  | Some c => fs st' !! binary = Some original \/ fs st' !! binary = Some c
  end.
Proof.
  intros Htarget Hres Horig Hsign Hcopy st'.
  set (post := fun st' : state =>
    match f !! backup_path binary with
    | None => fs st' !! binary = Some original
    | Some c => fs st' !! binary = Some original \/ fs st' !! binary = Some c
    end).
  assert (forall o, post (State f o)) as Hsame.
  { intros o. unfold post. cbn [fs]. destruct (f !! backup_path binary); auto. }
  cut (wp (main e a) (fun _ => post) (fun _ => post) (State f [])).
  { unfold st', wp, run. by destruct (main e a (State f [])) as [[c|c] st1]. }
  pose proof (backup_path_neq binary) as Hne.
  unfold main. rewrite Hres. wp_steps. apply wp_resolve_binary; cbn [fs out].
  rewrite Htarget. wp_steps. unfold isfile. wp_steps.
  destruct (bool_decide (is_Some (f !! binary))) eqn:Hfile; cbn [negb]; wp_steps;
    [|done].
  unfold access_read. wp_steps.
  destruct (access_r_ok e f binary) eqn:Hacc; cbn [negb]; wp_steps; [|done].
  apply wp_verify_binary_runs. intros [|]; cbn [negb]; wp_steps; [|done].
  apply wp_read_file; cbn [fs out]; [done|done|]. intros data _. wp_steps.
  unfold main_patch. wp_steps.
  destruct (bool_decide (find_mascot_blocks data = [])); wp_steps; [done|].
  eapply wp_logging; [apply report_blocks_logging| |by intros ? ? []].
  intros [ap np] log _. wp_steps.
  destruct (np =? 0); wp_steps; [done|].
  eapply wp_logging; [apply build_patches_logging| |]; cbn [fs out]; [|done].
  intros patches log' _. wp_steps.
  eapply wp_logging; [apply check_sizes_logging| |]; cbn [fs out]; [|done].
  intros [] log2 _. wp_steps.
  eapply wp_logging; [apply check_overlaps_logging| |]; cbn [fs out]; [|done].
  intros [] log3 _.
  destruct (dry_run a).
  { wp_steps.
    eapply wp_logging; [apply report_planned_logging| |by intros ? ? []]; cbn [fs out].
    intros [] log4 _. by wp_steps. }
  unfold main_apply. wp_steps.
  unfold create_backup, path_exists, isfile. wp_steps.
  destruct (f !! backup_path binary) as [c|] eqn:Hbak.
  - rewrite bool_decide_eq_true_2 by done. wp_steps.
    eapply wp_conseq;
      [by apply (main_write_unsigned e binary data patches f _ original c)|done|].
    intros ? st1 H. exact H.
  - rewrite bool_decide_eq_false_2 by (by intros [? ?]).
    unfold copy2. wp_steps. rewrite Hcopy, Horig. wp_steps.
    eapply wp_conseq;
      [apply (main_write_unsigned e binary data patches _ _ original original);
       [done|done| |]|done|].
    + by rewrite lookup_insert_ne.
    + by rewrite lookup_insert_eq.
    + intros ? st1 H. unfold post. by destruct H.
Qed.

Lemma unsigned_patch_is_rolled_back_witness :
  let st' := (run (main env_no_sign (apply_args "claude")) world0).2 in
  fs st' !! "claude" = Some one_unit_image
  /\ Diag Warn "codesign failed — attempting to restore from backup" ∈ out st'.
Proof.
  intros st'. split.
  - assert (fs world0 !! "claude" = Some one_unit_image) as Horig.
    { vm_compute. reflexivity. }
    assert (fs world0 !! backup_path "claude" = None) as Hnone.
    { vm_compute. reflexivity. }
    pose proof (unsigned_patch_is_rolled_back env_no_sign (apply_args "claude")
                  (fs world0) "claude" one_unit_image eq_refl eq_refl Horig
                  (fun _ => eq_refl) (fun _ _ _ => eq_refl)) as H.
    cbv zeta in H. rewrite Hnone in H. exact H.
  - apply (bool_decide_unpack _). vm_compute. reflexivity.
Defined.

(** ** A run that reaches the end *)





(** ** Counters, pre-flight checks and the temp file *)

Lemma needs_patch_count_le blocks : needs_patch_count blocks <= length blocks.
Proof. unfold needs_patch_count. apply length_filter. Qed.

(** X23. The reporting loop never stops early, prints one line per block and
    no error or warning, leaves the files alone, and its counters add up:
    needs_patch grows by the number of blocks without the fingerprint,
    already_patched by the number of the others. *)
Theorem report_blocks_counts (blocks : list block_info) (already needs : nat)
    (st : state) :
  exists log,
    report_blocks blocks already needs st
    = (Next (already + (length blocks - needs_patch_count blocks),
             needs + needs_patch_count blocks),
       State (fs st) (out st ++ log))
    /\ length log = length blocks
    /\ has_diagnostic log = false.
Proof.
  revert already needs st. unfold needs_patch_count.
  induction blocks as [|b rest IH]; intros already needs st; simpl report_blocks.
  { exists []. rewrite app_nil_r. simpl. rewrite !Nat.add_0_r. by destruct st. }
  pose proof (needs_patch_count_le rest) as Hle. unfold needs_patch_count in Hle.
  rewrite filter_cons.
  destruct (is_already_patched (b_block b)) eqn:E.
  - rewrite decide_False by done. unfold bind at 1, info, say.
    match goal with |- context [report_blocks rest _ _ ?s] =>
      destruct (IH (S already) needs s) as (log & -> & Hlen & Hd) end.
    cbn [fs out]. rewrite <- app_assoc. eexists. split; [|split].
    + f_equal. f_equal. simpl length. f_equal. lia.
    + simpl. by rewrite Hlen.
    + simpl app. by rewrite has_diagnostic_cons, Hd.
  - rewrite decide_True by done. unfold bind at 1, info, say.
    match goal with |- context [report_blocks rest _ _ ?s] =>
      destruct (IH already (S needs) s) as (log & -> & Hlen & Hd) end.
    cbn [fs out]. rewrite <- app_assoc. eexists. split; [|split].
    + f_equal. f_equal. simpl length. f_equal; lia.
    + simpl. by rewrite Hlen.
    + simpl app. by rewrite has_diagnostic_cons, Hd.
Qed.

(** X24. When the target is not a file, is not readable, or (without
    --restore) does not run, main ends with status 0 after an error and
    changes no file. *)
Theorem preflight_failure_changes_nothing (e : env) (a : args) (f : files)
    (binary : string) :
  target_of e a f = Some binary ->
  f !! binary = None \/ access_r_ok e f binary = false
  \/ (restore a = false /\ binary_runs e f binary = false) ->
  let result := run (main e a) (State f []) in
  result.1 = 0%Z /\ fs result.2 = f /\ has_diagnostic (out result.2) = true.
Proof.
  intros Htarget Hpre result.
  cut (wp (main e a) (fun _ _ => False)
          (fun code st' => code = 0%Z /\ fs st' = f /\ has_diagnostic (out st') = true)
          (State f [])).
  { unfold result, wp, run. by destruct (main e a (State f [])) as [[c|c] st']. }
  unfold main. wp_steps. apply wp_resolve_binary; cbn [fs out].
  rewrite Htarget. wp_steps. unfold isfile. wp_steps.
  destruct (bool_decide (is_Some (f !! binary))) eqn:Hfile; cbn [negb]; wp_steps.
  2:{ diag_solve. }
  apply bool_decide_eq_true in Hfile as [data Hdata].
  unfold access_read. wp_steps.
  destruct (access_r_ok e f binary) eqn:Hacc; cbn [negb]; wp_steps.
  2:{ diag_solve. }
  destruct Hpre as [?|[?|[Hres Hruns]]]; [congruence|congruence|].
  rewrite Hres. wp_steps. unfold verify_binary_runs. wp_steps. rewrite Hruns.
  cbn [negb]. wp_steps. diag_solve.
Qed.

Lemma preflight_failure_changes_nothing_witness :
  let result := run (main env_ok (apply_args "claude")) (State ∅ []) in
  result.1 = 0%Z /\ fs result.2 = ∅ /\ has_diagnostic (out result.2) = true.
Proof.
  exact (preflight_failure_changes_nothing env_ok (apply_args "claude") ∅ "claude"
           eq_refl (or_introl eq_refl)).
Defined.

(** X25. When no detected block of the target needs patching (every detected
    block carries the fingerprint, or none was detected), a run without
    --restore changes no file. *)
Theorem nothing_to_patch_changes_nothing (e : env) (a : args) (f : files)
    (binary : string) (data : bytes) :
  target_of e a f = Some binary -> restore a = false -> f !! binary = Some data ->
  needs_patch_count (find_mascot_blocks data) = 0 ->
  fs (run (main e a) (State f [])).2 = f.
Proof.
  intros Htarget Hres Hdata Hcount.
  cut (wp (main e a) (fun _ st' => fs st' = f) (fun _ st' => fs st' = f) (State f [])).
  { unfold wp, run. by destruct (main e a (State f [])) as [[c|c] st']. }
  unfold main. rewrite Hres. wp_steps. apply wp_resolve_binary; cbn [fs out].
  rewrite Htarget. wp_steps. unfold isfile. wp_steps.
  destruct (bool_decide (is_Some (f !! binary))) eqn:Hfile; cbn [negb]; wp_steps;
    [|done].
  unfold access_read. wp_steps.
  destruct (access_r_ok e f binary) eqn:Hacc; cbn [negb]; wp_steps; [|done].
  apply wp_verify_binary_runs. intros [|]; cbn [negb]; wp_steps; [|done].
  apply wp_read_file; cbn [fs out]; [done|done|].
  intros data' Hdata'. assert (data' = data) as -> by congruence. wp_steps.
  unfold main_patch. wp_steps.
  destruct (bool_decide (find_mascot_blocks data = [])); wp_steps; [done|].
  eapply wp_logging; [apply report_blocks_logging| |by intros ? ? []].
  intros [ap np] log Hnp. simpl in Hnp. wp_steps.
  destruct (np =? 0) eqn:Enp; [by wp_steps|].
  apply Nat.eqb_neq in Enp. lia.
Qed.

Lemma nothing_to_patch_changes_nothing_witness :
  exists data,
    fs patched_world !! "claude" = Some data
    /\ length (find_mascot_blocks data) = 1
    /\ fs (run (main env_ok (apply_args "claude")) patched_world).2 = fs patched_world.
Proof.
  destruct (fs patched_world !! "claude") as [data|] eqn:Hdata;
    [|by vm_compute in Hdata].
  assert (length (find_mascot_blocks data) = 1
          /\ needs_patch_count (find_mascot_blocks data) = 0) as [Hlen Hcount].
  { vm_compute in Hdata. injection Hdata as <-. split; vm_compute; reflexivity. }
  exists data. split; [reflexivity|]. split; [exact Hlen|].
  exact (nothing_to_patch_changes_nothing env_ok (apply_args "claude")
           (fs patched_world) "claude" data eq_refl eq_refl Hdata Hcount).
Defined.

(** [os.unlink] under [except OSError: pass], by case. *)
Lemma wp_unlink_quietly_cases e path (Q : unit -> state -> Prop) R st :
  (if unlink_raises e (fs st) path then Q tt st
   else Q tt (State (delete path (fs st)) (out st))) ->
  wp (unlink_quietly e path) Q R st.
Proof.
  unfold wp, unlink_quietly, bind, get_files, set_files, ret.
  by destruct (unlink_raises e (fs st) path).
Qed.

(** X26. When unlinking the temp file does not raise and no temp file
    existed before, no temp file exists after a run of main, whichever way
    the run ends. *)
Theorem no_temp_file_left_behind (e : env) (a : args) (f : files) (binary : string) :
  target_of e a f = Some binary ->
  (forall g, unlink_raises e g (binary +:+ ".tmp") = false) ->
  f !! (binary +:+ ".tmp") = None ->
  fs (run (main e a) (State f [])).2 !! (binary +:+ ".tmp") = None.
Proof.
  intros Htarget Hunlink Hnone. paths binary.
  set (post := fun st' : state => fs st' !! (binary +:+ ".tmp") = None).
  cut (wp (main e a) (fun _ => post) (fun _ => post) (State f [])).
  { unfold wp, run. by destruct (main e a (State f [])) as [[c|c] st']. }
  unfold main. wp_steps. apply wp_resolve_binary; cbn [fs out].
  rewrite Htarget. wp_steps. unfold isfile. wp_steps.
  destruct (bool_decide (is_Some (f !! binary))) eqn:Hfile; cbn [negb]; wp_steps;
    [|done].
  unfold access_read. wp_steps.
  destruct (access_r_ok e f binary) eqn:Hacc; cbn [negb]; wp_steps; [|done].
  destruct (restore a).
  { unfold main_restore. wp_steps. apply wp_restore_backup; cbn [fs out negb].
    - intros msg. by wp_steps.
    - intros msg d _. wp_steps. apply wp_codesign_binary.
      intros [|]; wp_steps; apply wp_verify_binary_runs; intros [|]; wp_steps;
        unfold post; cbn [fs]; by rewrite lookup_insert_ne. }
  wp_steps. apply wp_verify_binary_runs. intros [|]; cbn [negb]; wp_steps; [|done].
  apply wp_read_file; cbn [fs out]; [done|done|]. intros data _. wp_steps.
  unfold main_patch. wp_steps.
  destruct (bool_decide (find_mascot_blocks data = [])); wp_steps; [done|].
  eapply wp_logging; [apply report_blocks_logging| |by intros ? ? []].
  intros [ap np] log _. wp_steps.
  destruct (np =? 0); wp_steps; [done|].
  eapply wp_logging; [apply build_patches_logging| |]; cbn [fs out]; [|done].
  intros patches log' _. wp_steps.
  eapply wp_logging; [apply check_sizes_logging| |]; cbn [fs out]; [|done].
  intros [] log2 _. wp_steps.
  eapply wp_logging; [apply check_overlaps_logging| |]; cbn [fs out]; [|done].
  intros [] log3 _.
  destruct (dry_run a).
  { wp_steps.
    eapply wp_logging; [apply report_planned_logging| |by intros ? ? []]; cbn [fs out].
    intros [] log4 _. by wp_steps. }
  assert (forall g o, g !! (binary +:+ ".tmp") = None ->
    wp (main_write e binary data patches) (fun _ => post) (fun _ => post)
       (State g o)) as Hmw.
  { intros g o Hg. unfold main_write. wp_steps.
    eapply wp_logging; [apply apply_patches_logging| |]; cbn [fs out]; [|done].
    intros modified log4 _.
    destruct (negb _); wp_steps; [done|].
    apply wp_write_via_temp_cases; cbn [fs out].
    destruct (persist_raises e g binary) as [[| | |]|]; cbn [negb]; wp_steps.
    1-4: apply wp_unlink_quietly_cases; cbn [fs out]; rewrite Hunlink; wp_steps;
      unfold post; cbn [fs]; by rewrite lookup_delete_eq.
    assert (forall c log,
      post (State (<[binary := c]> (<[binary := modified]>
                     (delete (binary +:+ ".tmp") g))) log)) as Hback.
    { intros c log5. unfold post. cbn [fs].
      by rewrite !lookup_insert_ne, lookup_delete_eq. }
    assert (forall log,
      post (State (<[binary := modified]> (delete (binary +:+ ".tmp") g)) log))
      as Hkeep.
    { intros log5. unfold post. cbn [fs].
      by rewrite lookup_insert_ne, lookup_delete_eq. }
    apply wp_codesign_binary. intros [|]; cbn [negb]; wp_steps.
    + apply wp_verify_binary_runs. intros [|]; cbn [negb]; wp_steps; [apply Hkeep|].
      apply wp_rollback; cbn [fs out]; intros; wp_steps; auto.
    + apply wp_rollback; cbn [fs out]; intros; wp_steps; auto. }
  unfold main_apply. wp_steps. apply wp_create_backup; cbn [fs out].
  - intros msg _. wp_steps. by apply Hmw.
  - intros msg d _ _. wp_steps. apply Hmw. by rewrite lookup_insert_ne.
  - intros msg _. wp_steps. by apply Hmw.
Qed.

Lemma no_temp_file_left_behind_witness :
  fs (run (main env_no_write (apply_args "claude")) world0).2 !! ("claude" +:+ ".tmp")
  = None.
Proof.
  assert (fs world0 !! ("claude" +:+ ".tmp") = None) as Hnone.
  { vm_compute. reflexivity. }
  exact (no_temp_file_left_behind env_no_write (apply_args "claude") (fs world0)
           "claude" eq_refl (fun _ => eq_refl) Hnone).
Defined.

(** ** Gate 5 *)

(** Gate 5 on replacements of the recorded lengths: it passes and prints
    nothing. *)
Lemma check_sizes_run patches : forall st,
  Forall (fun p => length (p_new p) = p_length p) patches ->
  check_sizes patches st = (Next tt, st).
Proof.
  induction patches as [|p rest IH]; intros st Hf; simpl check_sizes; [done|].
  inversion Hf as [|? ? Hp Hrest]; subst.
  rewrite Hp, Nat.eqb_refl. cbn [negb]. by apply IH.
Qed.

Lemma plan_lengths blocks patches :
  plan blocks = Some patches ->
  Forall (fun p => length (p_new p) = p_length p) patches.
Proof.
  revert patches. induction blocks as [|b rest IH]; intros patches; simpl plan.
  - by intros [= <-].
  - destruct (is_already_patched (b_block b)); [apply IH|].
    destruct (build_replacement b) as [r msg|msg] eqn:E; [|done].
    destruct (plan rest) as [l|]; [|done]. intros [= <-].
    constructor; [|by apply IH]. simpl. by apply build_ok_length in E.
Qed.

(** X27. Gate 5 cannot fail: every patch Gate 4 builds, for whatever blocks,
    has new bytes of the recorded length, so the size-mismatch check passes,
    prints nothing and changes nothing. *)
Theorem gate5_cannot_fail (blocks : list block_info) (patches : list patch)
    (st st1 st2 : state) :
  build_patches blocks [] st = (Next patches, st1) ->
  check_sizes patches st2 = (Next tt, st2).
Proof.
  intros Hrun.
  destruct (logging_next _ _ _ _ _ _ (build_patches_logging _ []) Hrun)
    as ((built & Hplan & ->) & _). simpl app.
  apply check_sizes_run. by eapply plan_lengths.
Qed.

Lemma gate5_cannot_fail_witness :
  exists patches st1,
    build_patches (find_mascot_blocks two_block_image) [] world0 = (Next patches, st1)
    /\ length patches = 2
    /\ check_sizes patches st1 = (Next tt, st1).
Proof.
  destruct (build_patches (find_mascot_blocks two_block_image) [] world0)
    as [[patches|code] st1] eqn:Hb; [|by vm_compute in Hb].
  exists patches, st1. split; [reflexivity|]. split.
  - vm_compute in Hb. injection Hb as <- _. reflexivity.
  - exact (gate5_cannot_fail _ patches world0 st1 st1 Hb).
Defined.

(** ** The identifiers of a detected block *)

Lemma rmatch_group {R} r s caps (k : bytes -> list bytes -> option R) :
  rmatch (Group r) s caps k
  = rmatch r s caps (fun t caps' => k t (caps' ++ [take (length s - length t) s])).
Proof. done. Qed.

Lemma rmatch_seq {R} r1 r2 s caps (k : bytes -> list bytes -> option R) :
  rmatch (r1 · r2) s caps k
  = rmatch r1 s caps (fun t caps' => rmatch r2 t caps' k).
Proof. done. Qed.

Lemma rmatch_opt {R} r s caps (k : bytes -> list bytes -> option R) :
  rmatch (Opt r) s caps k
  = match rmatch r s caps k with Some x => Some x | None => k s caps end.
Proof. done. Qed.

(** A greedy repetition consumes a run of bytes of its class. *)
Lemma match_star_split {R} cls s (k : bytes -> option R) x :
  match_star cls s k = Some x ->
  exists pre t, s = pre ++ t /\ Forall (fun b => cls b = true) pre /\ k t = Some x.
Proof.
  induction s as [|b s IH]; simpl.
  { intros H. by exists [], []. }
  destruct (cls b) eqn:Eb; [|intros H; by exists [], (b :: s)].
  destruct (match_star cls s k) eqn:E.
  - intros [= ->]. destruct (IH eq_refl) as (pre & t & -> & Hpre & Hk).
    exists (b :: pre), t. split; [done|]. split; [by constructor|done].
  - intros H. by exists [], (b :: s).
Qed.

Lemma rmatch_lit {R} l s caps (k : bytes -> list bytes -> option R) x :
  rmatch (Lit l) s caps k = Some x -> exists t, s = l ++ t /\ k t caps = Some x.
Proof.
  simpl. destruct (starts_with l s) eqn:E; [|done].
  apply starts_with_prefix in E as [t ->]. rewrite drop_app_length. by exists t.
Qed.

Lemma rmatch_plus {R} cls s caps (k : bytes -> list bytes -> option R) x :
  rmatch (Plus cls) s caps k = Some x ->
  exists pre t, s = pre ++ t /\ is_token cls pre /\ k t caps = Some x.
Proof.
  simpl. destruct s as [|b s]; [done|]. destruct (cls b) eqn:Eb; [|done].
  intros H. apply match_star_split in H as (pre & t & -> & Hpre & Hk).
  exists (b :: pre), t. split; [done|]. split; [|done]. split; [done|by constructor].
Qed.

Lemma take_consumed (pre t : bytes) :
  take (length (pre ++ t) - length t) (pre ++ t) = pre.
Proof.
  rewrite length_app. replace (length pre + length t - length t) with (length pre) by lia.
  apply take_app_length.
Qed.

(** A group [(cls+)] captures a token of the class. *)
Lemma rmatch_group_plus {R} cls s caps (k : bytes -> list bytes -> option R) x :
  rmatch (Group (Plus cls)) s caps k = Some x ->
  exists pre t, s = pre ++ t /\ is_token cls pre /\ k t (caps ++ [pre]) = Some x.
Proof.
  rewrite rmatch_group. intros H. apply rmatch_plus in H as (pre & t & -> & Hpre & Hk).
  exists pre, t. split; [done|]. split; [done|]. by rewrite take_consumed in Hk.
Qed.

(** The React group captures an identifier, or two joined by a dot. *)
Lemma rmatch_group_dotted {R} s caps (k : bytes -> list bytes -> option R) x :
  rmatch (Group DOTTED_ID) s caps k = Some x ->
  exists pre t, s = pre ++ t /\ is_dotted pre /\ k t (caps ++ [pre]) = Some x.
Proof.
  unfold DOTTED_ID. rewrite rmatch_group, rmatch_seq. intros H.
  apply rmatch_plus in H as (a & t1 & -> & Ha & H). rewrite rmatch_opt in H.
  destruct (rmatch (Lit (B ".") · Plus is_ident) t1 caps _) as [y|] eqn:Edot.
  - injection H as ->. rewrite rmatch_seq in Edot.
    apply rmatch_lit in Edot as (t2 & -> & Hp).
    apply rmatch_plus in Hp as (b & t & -> & Hb & Hk).
    exists (a ++ B "." ++ b), t. split; [by rewrite <- !app_assoc|].
    split; [right; by exists a, b|].
    replace (a ++ B "." ++ b ++ t) with ((a ++ B "." ++ b) ++ t) in Hk
      by (by rewrite <- !app_assoc).
    by rewrite take_consumed in Hk.
  - exists a, t1. split; [done|]. split; [by left|]. by rewrite take_consumed in H.
Qed.

(** The three groups of the full-function anchor. *)
Lemma full_anchor_groups s pos m :
  match_here FULL_FUNC_RE s pos = Some m ->
  exists name react flex,
    m_groups m = [name; react; flex]
    /\ is_token is_ident name /\ is_dotted react /\ is_token is_ident flex.
Proof.
  unfold match_here, FULL_FUNC_RE. intros H.
  rewrite rmatch_seq in H. apply rmatch_lit in H as (t & -> & H).
  rewrite rmatch_seq in H. apply rmatch_plus in H as (sp & t1 & -> & _ & H).
  rewrite rmatch_seq in H. apply rmatch_group_plus in H as (name & t2 & -> & Hname & H).
  rewrite rmatch_seq in H. apply rmatch_lit in H as (t3 & -> & H).
  rewrite rmatch_seq in H. apply rmatch_plus in H as (sp2 & t4 & -> & _ & H).
  rewrite rmatch_seq in H. apply rmatch_group_dotted in H as (react & t5 & -> & Hreact & H).
  rewrite rmatch_seq in H. apply rmatch_lit in H as (t6 & -> & H).
  rewrite rmatch_seq in H. apply rmatch_group_plus in H as (flex & t7 & -> & Hflex & H).
  apply rmatch_lit in H as (t8 & -> & H). injection H as <-.
  by exists name, react, flex.
Qed.

(** The two groups of the return-block anchor. *)
Lemma return_anchor_groups s pos m :
  match_here RETURN_BLOCK_RE s pos = Some m ->
  exists react flex,
    m_groups m = [react; flex] /\ is_dotted react /\ is_token is_ident flex.
Proof.
  unfold match_here, RETURN_BLOCK_RE. intros H.
  rewrite rmatch_seq in H. apply rmatch_lit in H as (t & -> & H).
  rewrite rmatch_seq in H. apply rmatch_plus in H as (sp2 & t4 & -> & _ & H).
  rewrite rmatch_seq in H. apply rmatch_group_dotted in H as (react & t5 & -> & Hreact & H).
  rewrite rmatch_seq in H. apply rmatch_lit in H as (t6 & -> & H).
  rewrite rmatch_seq in H. apply rmatch_group_plus in H as (flex & t7 & -> & Hflex & H).
  apply rmatch_lit in H as (t8 & -> & H). injection H as <-.
  by exists react, flex.
Qed.

(** [re.search] returns a match of the pattern at some offset. *)
Lemma search_from_match r s : forall pos m,
  search_from r s pos = Some m ->
  exists k, match_here r (drop k s) (pos + k) = Some m.
Proof.
  induction s as [|b s IH]; intros pos m; simpl search_from.
  - destruct (match_here r [] pos) eqn:E; [|done]. intros [= ->].
    exists 0. by rewrite Nat.add_0_r.
  - destruct (match_here r (b :: s) pos) eqn:E.
    + intros [= ->]. exists 0. by rewrite Nat.add_0_r.
    + intros H. apply IH in H as [k H]. exists (S k). simpl.
      by replace (pos + S k) with (S pos + k) by lia.
Qed.

Lemma text_color_group color s pos m :
  match_here (TEXT_COLOR_RE color) s pos = Some m -> is_token is_ident (group m 1).
Proof.
  unfold match_here, TEXT_COLOR_RE. intros H.
  rewrite rmatch_seq in H. apply rmatch_lit in H as (t & -> & H).
  rewrite rmatch_seq in H. apply rmatch_group_plus in H as (v & t2 & -> & Hv & H).
  apply rmatch_lit in H as (t3 & -> & H). by injection H as <-.
Qed.

Lemma text_null_group s pos m :
  match_here TEXT_NULL_RE s pos = Some m -> is_token is_ident (group m 1).
Proof.
  unfold match_here, TEXT_NULL_RE. intros H.
  rewrite rmatch_seq in H. apply rmatch_lit in H as (t & -> & H).
  rewrite rmatch_seq in H. apply rmatch_group_plus in H as (v & t2 & -> & Hv & H).
  apply rmatch_lit in H as (t3 & -> & H). by injection H as <-.
Qed.

(** Whichever fallback finds the text component, it is an identifier token. *)
Lemma find_text_var_token block v :
  find_text_var block = Some v -> is_token is_ident v.
Proof.
  unfold find_text_var, re_search.
  destruct (search_from (TEXT_COLOR_RE (B "clawd_body")) block 0) as [m|] eqn:E1.
  { intros [= <-]. apply search_from_match in E1 as [k E1].
    by eapply text_color_group. }
  destruct (search_from (TEXT_COLOR_RE (B "penguinShimmer")) block 0) as [m|] eqn:E2.
  { intros [= <-]. apply search_from_match in E2 as [k E2].
    by eapply text_color_group. }
  destruct (search_from TEXT_NULL_RE block 0) as [m|] eqn:E3; [|done].
  intros [= <-]. apply search_from_match in E3 as [k E3]. by eapply text_null_group.
Qed.

(** X28. The identifiers recorded for a detected block are identifier
    tokens: the flex and text identifiers, and the function name of a full
    function, are non-empty runs of bytes among letters, digits, underscore
    and dollar; the React identifier is such a run, or two of them joined by
    a dot; a return block has no function name. *)
Theorem detected_identifiers_are_tokens (data : bytes) :
  Forall (fun b =>
            is_dotted (b_react_var b)
            /\ is_token is_ident (b_flex_var b)
            /\ is_token is_ident (b_text_var b)
            /\ match b_kind b with
               | full_function =>
                   exists name, b_func_name b = Some name /\ is_token is_ident name
               | return_block => b_func_name b = None
               end)
         (find_mascot_blocks data).
Proof.
  assert (forall b, anchored data b -> validated data b ->
            is_dotted (b_react_var b)
            /\ is_token is_ident (b_flex_var b)
            /\ is_token is_ident (b_text_var b)
            /\ match b_kind b with
               | full_function =>
                   exists name, b_func_name b = Some name /\ is_token is_ident name
               | return_block => b_func_name b = None
               end) as Hone.
  { intros b Ha (_ & _ & _ & Htext). apply find_text_var_token in Htext.
    unfold anchored in Ha. destruct (b_kind b).
    - destruct Ha as (m & Hm & Hname & -> & ->).
      apply full_anchor_groups in Hm as (name & react & flex & Hg & ? & ? & ?).
      unfold group in *. rewrite Hg in *. simpl in *. eauto 10.
    - destruct Ha as (m & Hm & Hname & -> & ->).
      apply return_anchor_groups in Hm as (react & flex & Hg & ? & ?).
      unfold group. rewrite Hg. simpl. eauto. }
  destruct (find_mascot_blocks_layout data) as (rets & -> & Hrets & _).
  destruct (find_full_functions_layout data) as [Hfulls _].
  apply Forall_app. split.
  - eapply Forall_impl; [exact Hfulls|]. intros b (_ & ? & ? & _). by apply Hone.
  - eapply Forall_impl; [exact Hrets|]. intros b (_ & ? & ? & _). by apply Hone.
Qed.

(** ** The colour marker in a replacement *)

(** A needle cannot straddle a byte it does not hold. *)
Lemma bytes_in_app_sep (w a b : bytes) (sep : byte) :
  sep ∉ w -> bytes_in w a = false -> bytes_in w b = false ->
  bytes_in w (a ++ sep :: b) = false.
Proof.
  intros Hsep Ha Hb. destruct (bytes_in w (a ++ sep :: b)) eqn:E; [|done].
  exfalso. apply bytes_in_spec in E as (pre & post & Heq).
  destruct (decide (length pre + length w <= length a)) as [Hfit|Hfit].
  { assert (bytes_in w a = true); [|congruence]. apply bytes_in_spec.
    exists pre, (take (length a - length pre - length w) post).
    pose proof (take_app_length a (sep :: b)) as Ha'. rewrite Heq in Ha'.
    rewrite take_app, (take_ge pre) in Ha' by lia.
    rewrite take_app, (take_ge w) in Ha' by lia. by rewrite <- Ha' at 1. }
  destruct (decide (length a < length pre)) as [Hlate|Hlate].
  { assert (bytes_in w b = true); [|congruence]. apply bytes_in_spec.
    exists (drop (S (length a)) pre), post.
    assert (drop (S (length a)) (a ++ sep :: b) = b) as Hb'.
    { rewrite drop_app_ge by lia. by replace (S (length a) - length a) with 1 by lia. }
    rewrite Heq, drop_app_le in Hb' by lia. done. }
  apply Hsep.
  assert ((a ++ sep :: b) !! length a = Some sep) as Hl by apply list_lookup_middle, eq_refl.
  rewrite Heq, lookup_app_r in Hl by lia.
  rewrite lookup_app_l in Hl by lia.
  by eapply list_elem_of_lookup_2.
Qed.

Lemma bytes_in_app_l (w a b : bytes) :
  bytes_in w a = true -> bytes_in w (a ++ b) = true.
Proof.
  rewrite !bytes_in_spec. intros (pre & post & ->). exists pre, (post ++ b).
  by rewrite <- !app_assoc.
Qed.

Lemma marker_cons (w rest : bytes) (sep : byte) :
  sep ∉ w -> bytes_in w rest = false -> bytes_in w (sep :: rest) = false.
Proof.
  intros Hsep Hrest. apply (bytes_in_app_sep w [] rest sep Hsep); [|done].
  destruct w as [|c w]; [|done]. by destruct rest.
Qed.

Lemma marker_lit (w lit rest : bytes) (sep : byte) :
  last lit = Some sep -> sep ∉ w ->
  bytes_in w lit = false -> bytes_in w rest = false ->
  bytes_in w (lit ++ rest) = false.
Proof.
  intros Hlast Hsep Hlit Hrest. apply last_Some in Hlast as [lit' ->].
  rewrite <- app_assoc. apply bytes_in_app_sep; [done| |done].
  destruct (bytes_in w lit') eqn:E; [|done].
  by rewrite (bytes_in_app_l w lit' [sep] E) in Hlit.
Qed.

Lemma marker_var (w v lit rest : bytes) (sep : byte) :
  head lit = Some sep -> sep ∉ w ->
  bytes_in w v = false -> bytes_in w (lit ++ rest) = false ->
  bytes_in w (v ++ lit ++ rest) = false.
Proof.
  intros Hhead Hsep Hv Hrest. destruct lit as [|c lit]; [done|].
  injection Hhead as ->. simpl app in *. apply bytes_in_app_sep; [done|done|].
  destruct (bytes_in w (lit ++ rest)) eqn:E; [|done].
  by rewrite (bytes_in_cons w sep _ E) in Hrest.
Qed.

(** Bytes foreign to a needle do not hold it. *)
Lemma marker_foreign (w s : bytes) :
  w <> [] -> Forall (fun c => c ∉ w) s -> bytes_in w s = false.
Proof.
  intros Hw Hs. destruct (bytes_in w s) eqn:E; [|done]. exfalso.
  apply bytes_in_spec in E as (pre & post & ->).
  destruct w as [|c w]; [done|].
  rewrite Forall_app in Hs. destruct Hs as [_ Hs]. simpl in Hs.
  inversion Hs as [|? ? Hc _]; subst. apply Hc, list_elem_of_here.
Qed.

Lemma marker_padding (pc : Z) :
  bytes_in (B "clawd_body") (bytes_mul (B "," ++ [dq; dq]) pc) = false.
Proof.
  apply marker_foreign; [done|]. unfold bytes_mul.
  induction (Z.to_nat pc) as [|n IH]; simpl; [done|].
  repeat (constructor; [apply (bool_decide_unpack _); by vm_compute|]). exact IH.
Qed.

Lemma marker_spaces (n : nat) :
  bytes_in (B "clawd_body") (replicate n (ord " ")) = false.
Proof.
  apply marker_foreign; [done|].
  induction n as [|n IH]; simpl; [done|].
  constructor; [apply (bool_decide_unpack _); by vm_compute|exact IH].
Qed.

(** Closes [bytes_in w (piece ++ ... ++ piece) = false] goals over
    right-nested pieces: closed literals that end with a byte foreign to
    [w], and pieces known to be free of [w], each followed by a literal
    that starts with a foreign byte. *)
Ltac marker_side :=
  first [ assumption
        | apply (bool_decide_unpack _); vm_compute; reflexivity
        | vm_compute; reflexivity ].

Ltac marker_step :=
  first
    [ eapply marker_var; [reflexivity|marker_side|assumption|]
    | eapply marker_lit; [reflexivity|marker_side|vm_compute; reflexivity|]
    | apply marker_cons; [marker_side|]
    | eapply bytes_in_app_sep;
        [marker_side|first [assumption|vm_compute; reflexivity]|]
    | assumption
    | vm_compute; reflexivity ].

(** Every candidate the builder renders is free of the marker when the
    identifiers are. *)
Lemma marker_free_candidate (b : block_info) (extra : nat) (pc : Z) :
  bytes_in (B "clawd_body") (b_react_var b) = false ->
  bytes_in (B "clawd_body") (b_flex_var b) = false ->
  bytes_in (B "clawd_body") (b_text_var b) = false ->
  bytes_in (B "clawd_body") (fmt_opt (b_func_name b)) = false ->
  bytes_in (B "clawd_body") (padded_candidate b extra pc) = false.
Proof.
  intros Hreact Hflex Htext Hname.
  pose proof (marker_padding pc) as Hpad. pose proof (marker_spaces extra) as Hsp.
  unfold padded_candidate, assemble, wrap_core, inner_element, row2_element,
    text_element, row3_literal, qt.
  set (react := b_react_var b) in *. set (flex := b_flex_var b) in *.
  set (text := b_text_var b) in *. set (name := fmt_opt (b_func_name b)) in *.
  set (pad := bytes_mul _ _) in *. set (sp := replicate _ _) in *.
  clearbody react flex text name pad sp.
  destruct (b_kind b); repeat (rewrite <- ?app_assoc; cbn [app]);
    repeat marker_step.
Qed.

(** X29. A replacement the builder returns holds the colour marker
    clawd_body only if one of the block's identifiers does: when the React,
    flex and text identifiers and the function name are free of it, so is
    the replacement. *)
Theorem replacement_drops_colour_marker (b : block_info) (r : bytes) (msg : build_msg) :
  build_replacement b = BuildOk r msg ->
  bytes_in (B "clawd_body") (b_react_var b) = false ->
  bytes_in (B "clawd_body") (b_flex_var b) = false ->
  bytes_in (B "clawd_body") (b_text_var b) = false ->
  bytes_in (B "clawd_body") (fmt_opt (b_func_name b)) = false ->
  bytes_in (B "clawd_body") r = false.
Proof.
  intros Hbuild Hreact Hflex Htext Hname.
  apply build_ok_shape in Hbuild as (extra & pc & _ & -> & _).
  by apply marker_free_candidate.
Qed.

Lemma replacement_drops_colour_marker_witness :
  exists r msg,
    build_replacement (stock_block 466) = BuildOk r msg
    /\ bytes_in (B "clawd_body") (b_block (stock_block 466)) = true
    /\ bytes_in (B "clawd_body") r = false.
Proof.
  destruct (build_replacement (stock_block 466)) as [r msg|msg] eqn:E.
  - exists r, msg. split; [reflexivity|]. split; [vm_compute; reflexivity|].
    exact (replacement_drops_colour_marker (stock_block 466) r msg E
             eq_refl eq_refl eq_refl eq_refl).
  - vm_compute in E. discriminate E.
Defined.

(** A candidate ends with a byte the marker does not hold. *)
Lemma padded_candidate_last (b : block_info) (extra : nat) (pc : Z) :
  exists body sep,
    padded_candidate b extra pc = body ++ [sep] /\ sep ∉ B "clawd_body".
Proof.
  unfold padded_candidate, assemble, wrap_core, inner_element.
  destruct (b_kind b); rewrite !app_assoc.
  - eexists _, _. split; [reflexivity|]. apply (bool_decide_unpack _). by vm_compute.
  - eexists _, _. split; [reflexivity|]. apply (bool_decide_unpack _). by vm_compute.
Qed.

Lemma bytes_in_take (w s : bytes) n :
  bytes_in w s = false -> bytes_in w (take n s) = false.
Proof.
  intros Hs. destruct (bytes_in w (take n s)) eqn:E; [|done].
  apply (bytes_in_app_l w _ (drop n s)) in E. rewrite take_drop in E. congruence.
Qed.

(** The context window at the offset of a replacement: free of the marker
    when the replacement and the bytes the window holds after it are. *)
Lemma patched_context_free (r pre post : bytes) (body : bytes) (sep : byte) :
  r = body ++ [sep] -> sep ∉ B "clawd_body" ->
  bytes_in (B "clawd_body") r = false ->
  bytes_in (B "clawd_body") (take (context_size - length r) post) = false ->
  bytes_in (B "clawd_body") (slice (pre ++ r ++ post) (length pre) context_size)
  = false.
Proof.
  intros Hr Hsep Hfree Hpost. unfold slice. rewrite drop_app_length, take_app.
  destruct (decide (context_size <= length r)) as [Hle|Hgt].
  - replace (context_size - length r) with 0 by lia. rewrite take_0, app_nil_r.
    by apply bytes_in_take.
  - rewrite take_ge by lia. rewrite Hr, <- app_assoc. simpl app.
    apply bytes_in_app_sep; [done| |by rewrite Hr in Hpost].
    destruct (bytes_in (B "clawd_body") body) eqn:E; [|done].
    apply (bytes_in_app_l _ _ [sep]) in E. rewrite <- Hr in E. congruence.
Qed.

(** X30. Whatever the image around it, a replacement whose identifiers are
    free of the colour marker is not detected again at its offset unless the
    marker occurs in the bytes that follow it within what is left of the
    600-byte context window: find_mascot_blocks returns no block at that
    offset, so a later run cannot report it as already patched. *)
Theorem patched_block_is_not_redetected (b : block_info) (r : bytes) (msg : build_msg)
    (pre post : bytes) :
  build_replacement b = BuildOk r msg ->
  bytes_in (B "clawd_body") (b_react_var b) = false ->
  bytes_in (B "clawd_body") (b_flex_var b) = false ->
  bytes_in (B "clawd_body") (b_text_var b) = false ->
  bytes_in (B "clawd_body") (fmt_opt (b_func_name b)) = false ->
  bytes_in (B "clawd_body") (take (context_size - length r) post) = false ->
  forall b', b' ∈ find_mascot_blocks (pre ++ r ++ post) -> b_offset b' <> length pre.
Proof.
  intros Hbuild Hreact Hflex Htext Hname Hpost b' Hb' Hoff.
  apply build_ok_shape in Hbuild as (extra & pc & _ & -> & _).
  pose proof (marker_free_candidate b extra pc Hreact Hflex Htext Hname) as Hfree.
  destruct (padded_candidate_last b extra pc) as (body & sep & Hr & Hsep).
  pose proof (patched_context_free _ pre post body sep Hr Hsep Hfree Hpost) as Hctx.
  assert (validated (pre ++ padded_candidate b extra pc ++ post) b') as (Hmark & _).
  { destruct (find_mascot_blocks_layout (pre ++ padded_candidate b extra pc ++ post))
      as (rets & Heq & Hrets & _).
    destruct (find_full_functions_layout (pre ++ padded_candidate b extra pc ++ post))
      as [Hfulls _].
    rewrite Heq in Hb'. rewrite Forall_forall in Hfulls, Hrets.
    apply elem_of_app in Hb' as [Hb'|Hb'].
    - by destruct (Hfulls b' Hb') as (_ & _ & ? & _).
    - by destruct (Hrets b' Hb') as (_ & _ & ? & _). }
  rewrite Hoff in Hmark. congruence.
Qed.

Lemma patched_block_is_not_redetected_witness :
  exists r msg,
    build_replacement (stock_block 466) = BuildOk r msg
    /\ forall b', b' ∈ find_mascot_blocks (B "ab" ++ r ++ B "cd") ->
         b_offset b' <> length (B "ab").
Proof.
  destruct (build_replacement (stock_block 466)) as [r msg|msg] eqn:E.
  - exists r, msg. split; [reflexivity|].
    apply (patched_block_is_not_redetected (stock_block 466) r msg (B "ab") (B "cd") E
             eq_refl eq_refl eq_refl eq_refl).
    destruct (context_size - length r) as [|[|[|n]]]; reflexivity.
  - vm_compute in E. discriminate E.
Defined.
